(** * T-espresso trace data plane: record codec, trace stream and device set-up

    A shallow embedding of
      - [src/lib/Common.h]              (constants, [record_t]),
      - [src/lib/InstrumentDevice.cpp]  ([InstrumentDevicePass::setupTraceInfo]),
      - [src/lib/RegisterStandardPasses.cpp] (the [cta] filter conversion),
      - [src/lib/cutrace_io.h]          (trace reader and writer),
    together with the properties of the natural-language specification that
    concern them.

    Conventions.  A C integer of width [w] is a [Z]; every place where C wraps
    or converts is written out with [wrap]/[swrap].  Files are sequences of
    [byte]; a multi-byte integer is stored in the byte order of the host, which
    is little-endian on the machines the tool runs on (x86-64 hosts of CUDA
    devices). *)

From Stdlib Require Import ZArith List Lia Bool String Btauto Sorted.
From coqutil Require Import Byte Word.LittleEndianList Z.bitblast.
Import ListNotations.
Local Open Scope Z_scope.

(** ** Fixed-width integers *)

Module Int.

(** Conversion to an unsigned integer of [w] bits. *)
Definition wrap (w z : Z) : Z := z mod 2 ^ w.

(** Conversion to a signed (two's complement) integer of [w] bits. *)
Definition swrap (w z : Z) : Z := (z + 2 ^ (w - 1)) mod 2 ^ w - 2 ^ (w - 1).

Definition u8 := wrap 8.
Definition u16 := wrap 16.
Definition u32 := wrap 32.
Definition u64 := wrap 64.
Definition s8 := swrap 8.
Definition s32 := swrap 32.

End Int.

(** ** Common.h *)

Module Common.

(** [typedef struct record_t { int64_t desc; int64_t addr; int64_t cta; }].
    The three words are kept as their 64-bit patterns. *)
Record record_t := mk_record_t { desc : Z; addr : Z; cta : Z }.

Definition RECORD_SIZE : Z := 24.
Definition SLOTS_SIZE : Z := 64.
Definition SLOTS_NUM : Z := 4.
Definition CACHELINE : Z := 64.

(** [traceinfo_t]: the three base pointers and the slot size. *)
Record traceinfo_t := mk_traceinfo_t {
  ti_allocs : Z; ti_commits : Z; ti_records : Z; ti_slot_size : Z }.

End Common.

(** ** InstrumentDevice.cpp: the values computed at kernel entry *)

Module InstrumentDevice.
Import Common.

(** The LLVM instructions the pass emits, on integers of the given width. *)
Definition CreateZExt (v : Z) : Z := Int.u32 v.          (* i32 -> i64 *)
Definition CreateTrunc (v : Z) : Z := Int.u32 v.         (* i64 -> i32 *)
Definition CreateLShr (v n : Z) : Z := Z.shiftr v n.
Definition CreateAnd (a b : Z) : Z := Z.land a b.
Definition CreateOr (a b : Z) : Z := Z.lor a b.
Definition CreateAdd64 (a b : Z) : Z := Int.u64 (a + b).
Definition CreateMul64 (a b : Z) : Z := Int.u64 (a * b).
Definition CreateMul32 (a b : Z) : Z := Int.u32 (a * b).
Definition CreateUDiv (a b : Z) : Z := a / b.
(** [CreateInBoundsGEP(i8_ty, p, i)] with an [i32] index: byte address. *)
Definition CreateInBoundsGEP (p i : Z) : Z := p + Int.s32 i.

(** The special registers read through inline assembly. *)
Record sregs := mk_sregs {
  tid_x : Z; tid_y : Z; tid_z : Z;
  ntid_x : Z; ntid_y : Z;
  ctaid_x : Z; ctaid_y : Z; ctaid_z : Z;
  smid : Z }.

Record TraceInfoValues := mk_TraceInfoValues {
  allocs : Z; commits : Z; records : Z; cta_arg : Z; warpid_v : Z }.

(** [warpid_v]: (tid_x + ntid_x * (tid_y + tid_z * ntid_y)) / 32. *)
Definition warpid (r : sregs) : Z :=
  let tid0 := CreateZExt (tid_x r) in
  let tid1 := CreateZExt (tid_y r) in
  let tid2 := CreateZExt (tid_z r) in
  let ntid0 := CreateZExt (ntid_x r) in
  let ntid1 := CreateZExt (ntid_y r) in
  let thread_i := CreateAdd64 (CreateMul64 tid2 ntid1) tid1 in
  let thread_i := CreateMul64 ntid0 thread_i in
  let thread_i := CreateAdd64 tid0 thread_i in
  CreateTrunc (CreateUDiv thread_i 32).

(** [ctaid_serialized], instruction by instruction. *)
Definition ctaid_serialized (x y z : Z) : Z :=
  let ctaid0 := CreateZExt x in
  let ctaid1 := CreateZExt y in
  let ctaid2 := CreateZExt z in
  let cta_arg_x := CreateLShr ctaid0 32 in
  let cta_arg_y := CreateAnd ctaid1 65535 in
  let cta_arg_y := CreateLShr cta_arg_y 16 in
  let cta_arg_z := CreateAnd ctaid2 65535 in
  CreateOr (CreateOr cta_arg_x cta_arg_y) cta_arg_z.

(** [slot = smid & (SLOTS_NUM - 1)]. *)
Definition slot (smid : Z) : Z := CreateAnd (Int.u32 smid) (SLOTS_NUM - 1).

Definition base_i (slot : Z) : Z := CreateMul32 slot CACHELINE.

Definition slot_i (slot : Z) : Z :=
  CreateMul32 (CreateMul32 slot SLOTS_SIZE) RECORD_SIZE.

Definition setupTraceInfo (gv : traceinfo_t) (r : sregs) : TraceInfoValues :=
  let s := slot (smid r) in
  {| allocs := CreateInBoundsGEP (ti_allocs gv) (base_i s);
     commits := CreateInBoundsGEP (ti_commits gv) (base_i s);
     records := CreateInBoundsGEP (ti_records gv) (slot_i s);
     cta_arg := ctaid_serialized (ctaid_x r) (ctaid_y r) (ctaid_z r);
     warpid_v := warpid r |}.

(** The cache line an address lies on. *)
Definition cache_line (a : Z) : Z := a / CACHELINE.

End InstrumentDevice.

(** ** RegisterStandardPasses.cpp: the [cta] filter argument *)

Module PluginEntry.

(** [ctaid_conv] of [ParseArgs], from the three parsed [uint32_t] numbers. *)
Definition ctaid_conv (c0 c1 c2 : Z) : Z :=
  Int.u64 (Int.u64 (Int.u64 (Z.shiftl (Int.u32 c0) 32)
                    + Int.u64 (Z.shiftl (Z.land (Int.u32 c1) 65535) 16))
           + Z.land (Int.u32 c2) 65535).

End PluginEntry.

(** ** stdio streams

    The reader sees a file as the bytes that are still to be read; the writer
    sees it as the bytes written so far together with the number of bytes the
    stream will still accept before [fwrite] reports a short count ([room]),
    so that a failing [fwrite] exists in the model.  For a buffered stream
    [room] includes the buffer of the stream: a device that is full shows in
    the return value of [fwrite] only once the buffer is full too, and
    otherwise at [fflush] or [fclose], whose results the sources do not look
    at.  Only calls with [nmemb = 1] occur in the sources. *)

Module Stdio.

Definition rFILE := list byte.

(** [fread(buf, size, 1, f)]: the number of complete items read (0 or 1), the
    bytes stored in [buf], and the stream after the call.  A zero [size]
    reads nothing and returns 0; a short read consumes what is left. *)
Definition fread (size : nat) (f : rFILE) : nat * list byte * rFILE :=
  if (size =? 0)%nat then (0%nat, [], f)
  else if (size <=? List.length f)%nat then (1%nat, firstn size f, skipn size f)
  else (0%nat, f, []).

Record wFILE := mk_wFILE { written : list byte; room : nat }.

(** [fwrite(ptr, size, 1, f)] where [data] is the memory at [ptr]: the number
    of complete items written (0 or 1) and the stream after the call.  A zero
    [size] writes nothing and returns 0. *)
Definition fwrite (data : list byte) (size : nat) (f : wFILE) : nat * wFILE :=
  if (size =? 0)%nat then (0%nat, f)
  else if (size <=? room f)%nat
  then (1%nat, {| written := written f ++ firstn size data;
                  room := room f - size |})
  else (0%nat, {| written := written f ++ firstn (room f) data; room := 0 |}).

(** [memcmp(a, b, n) == 0]. *)
Fixpoint memcmp_eq (a b : list byte) (n : nat) : bool :=
  match n with
  | O => true
  | S n' =>
      match a, b with
      | x :: a', y :: b' => Byte.eqb x y && memcmp_eq a' b' n'
      | _, _ => false
      end
  end.

(** [strlen] of the C string whose characters are [s] (the terminating NUL
    follows the list; an embedded NUL ends the string early). *)
Fixpoint strlen (s : list byte) : nat :=
  match s with
  | [] => O
  | c :: s' => if Byte.eqb c Byte.x00 then O else S (strlen s')
  end.

End Stdio.

(** ** cutrace_io.h *)

Module TraceIO.
Import Stdio.

Definition v2 : list byte :=
  [Byte.x19; Byte.x43; Byte.x55; Byte.x44; Byte.x41;
   Byte.x54; Byte.x52; Byte.x41; Byte.x43; Byte.x45].
Definition v3 : list byte :=
  [Byte.x1a; Byte.x43; Byte.x55; Byte.x44; Byte.x41;
   Byte.x54; Byte.x52; Byte.x41; Byte.x43; Byte.x45].

(** [trace_record_addr_t]: [uint64_t addr; int32_t offset; int8_t count]. *)
Record trace_record_addr_t := mk_addr_unit { addr : Z; offset : Z; count : Z }.

(** [trace_record_t].  The flexible array member [addr_unit] is kept as the
    list of its live units, the first [addr_len] ones. *)
Record trace_record_t := mk_trace_record {
  ctaid_x : Z; ctaid_y : Z; ctaid_z : Z;
  clock : Z;
  warp : Z; size : Z; debug : Z;
  type : Z; addr_len : Z; smid : Z;
  addr_unit : list trace_record_addr_t }.

(** [trace_t]; [kernel_name = None] is the NULL pointer. *)
Record trace_t := mk_trace {
  file : rFILE;
  block_size : Z;
  version : Z;
  new_kernel : Z;
  kernel_name : option (list byte);
  record : trace_record_t }.

(** The value of the global [trace_last_error]; [None] is NULL. *)
Definition error := option string.

(** The record macros [RECORD_SET_INIT] and [RECORD_GET_*] are used by
    [__trace_pack] and [__trace_unpack] but are defined in none of the source
    files at hand; they are an interface here.  [RECORD_SET_INIT] takes, in
    this order, [addr_len type smid warp ctaid.x ctaid.y ctaid.z clock size]
    and yields the 24-byte [record_t]; [RECORD_FITS] says which arguments the
    bit fields of the layout have room for. *)
Class RecordMacros := {
  RECORD_SET_INIT : Z -> Z -> Z -> Z -> Z -> Z -> Z -> Z -> Z -> Common.record_t;
  RECORD_GET_ALEN : Common.record_t -> Z;
  RECORD_GET_TYPE : Common.record_t -> Z;
  RECORD_GET_SMID : Common.record_t -> Z;
  RECORD_GET_WARP : Common.record_t -> Z;
  RECORD_GET_CTAX : Common.record_t -> Z;
  RECORD_GET_CTAY : Common.record_t -> Z;
  RECORD_GET_CTAZ : Common.record_t -> Z;
  RECORD_GET_CLOCK : Common.record_t -> Z;
  RECORD_GET_SIZE : Common.record_t -> Z;
  RECORD_FITS : Z -> Z -> Z -> Z -> Z -> Z -> Z -> Z -> Z -> bool }.

(** Modelled from the spec: the macros [RECORD_RAW_SIZE], [RECORD_ADDR],
    [RECORD_ADDR_META], [RECORD_GET_OFFSET] and [RECORD_GET_COUNT] are missing
    from the sources.  The wire record is the fixed 24-byte header followed by
    one unit per address; a unit is the 64-bit address and the 64-bit meta
    word that [__trace_pack] composes (offset above bit 8, count in the low
    8 bits).  A record buffer is the list of its 64-bit words. *)
Definition RECORD_RAW_SIZE (addr_len : Z) : Z := 24 + 16 * addr_len.
Definition RECORD_ADDR (buf : list Z) (i : nat) : Z := nth (3 + 2 * i) buf 0.
Definition RECORD_ADDR_META (buf : list Z) (i : nat) : Z := nth (4 + 2 * i) buf 0.
Definition RECORD_GET_OFFSET (buf : list Z) (i : nat) : Z :=
  Z.shiftr (RECORD_ADDR_META buf i) 8.
Definition RECORD_GET_COUNT (buf : list Z) (i : nat) : Z :=
  Z.land (RECORD_ADDR_META buf i) 255.

(** The [record_t] at the start of a buffer. *)
Definition header_of (buf : list Z) : Common.record_t :=
  {| Common.desc := nth 0 buf 0; Common.addr := nth 1 buf 0; Common.cta := nth 2 buf 0 |}.

(** The bytes of a buffer of 64-bit words, and back. *)
Definition bytes_of_words (ws : list Z) : list byte := flat_map (le_split 8) ws.

Fixpoint words_of_bytes (n : nat) (bs : list byte) : list Z :=
  match n with
  | O => []
  | S n' => le_combine (firstn 8 bs) :: words_of_bytes n' (skipn 8 bs)
  end.

(** The meta word of one address unit, as [__trace_pack] computes it:
    [(offset << 8) | ((int64_t)count & 0xFF)].  The shift is done on [int]
    (32 bits, wrapping as the compiled code does); its result is then
    converted to [int64_t] for the [|]. *)
Definition pack_meta (offset count : Z) : Z :=
  Z.lor (Int.s32 (Z.shiftl offset 8)) (Z.land count 255).

Definition default_unit : trace_record_addr_t :=
  {| addr := 0; offset := 0; count := 0 |}.

Section WithMacros.
Context {M : RecordMacros}.

Definition __trace_unpack (buf : list Z) (record : trace_record_t) : trace_record_t :=
  let h := header_of buf in
  let alen := Int.u8 (RECORD_GET_ALEN h) in
  {| addr_len := alen;
     type := Int.u8 (RECORD_GET_TYPE h);
     smid := Int.u8 (RECORD_GET_SMID h);
     warp := Int.u32 (RECORD_GET_WARP h);
     ctaid_x := Int.u32 (RECORD_GET_CTAX h);
     ctaid_y := Int.u16 (RECORD_GET_CTAY h);
     ctaid_z := Int.u16 (RECORD_GET_CTAZ h);
     clock := Int.u64 (RECORD_GET_CLOCK h);
     size := Int.u32 (RECORD_GET_SIZE h);
     debug := debug record;
     addr_unit :=
       map (fun i => {| addr := Int.u64 (RECORD_ADDR buf i);
                        offset := Int.s32 (RECORD_GET_OFFSET buf i);
                        count := Int.s8 (RECORD_GET_COUNT buf i) |})
           (seq 0 (Z.to_nat alen)) |}.

Definition __trace_pack (record : trace_record_t) : list Z :=
  let h := RECORD_SET_INIT (addr_len record) (type record) (smid record)
             (warp record) (ctaid_x record) (ctaid_y record) (ctaid_z record)
             (clock record) (size record) in
  [Common.desc h; Common.addr h; Common.cta h]
  ++ flat_map (fun i => let u := nth i (addr_unit record) default_unit in
                        [Int.u64 (addr u); Int.u64 (pack_meta (offset u) (count u))])
              (seq 0 (Z.to_nat (addr_len record))).

(** [trace_open]; [m] is the content of the block [malloc] returns. *)
Definition trace_open (m : trace_t) (f : rFILE) (e : error) : option trace_t * error :=
  match fread 10 f with
  | (1%nat, versionbuf, f1) =>
      if memcmp_eq versionbuf v2 10 then
        (Some {| file := f1; block_size := block_size m; version := 2;
                 new_kernel := 0; kernel_name := None; record := record m |}, e)
      else if memcmp_eq versionbuf v3 10 then
        (Some {| file := f1; block_size := block_size m; version := 3;
                 new_kernel := 0; kernel_name := None; record := record m |}, e)
      else (None, Some "invalid version"%string)
  | _ => (None, Some "unable to read version"%string)
  end.

(** [trace_next]: the return value, [trace_last_error], and the stream.
    A record frame is read into the local [buf] and unpacked into the block
    that [trace_open] allocated, both made for 32 address units; this is what
    the call does as long as it stays inside them, which
    [trace_next_in_bounds] below decides.  Outside, the C code writes past
    the buffer or the block and has no defined behaviour. *)
Definition trace_next (t : trace_t) : Z * error * trace_t :=
  match fread 8 (file t) with
  | (1%nat, first, f1) =>
      let buf0 := le_combine first in
      let ch := Int.u8 (Z.land (Z.shiftr buf0 56) 255) in
      if ch =? 0 then
        let name_len := Int.u8 (Z.land (Z.shiftr buf0 48) 255) in
        let bsize := Int.u16 (Z.land (Z.shiftr buf0 32) 65535) in
        match fread (Z.to_nat name_len) f1 with
        | (1%nat, name, f2) =>
            (0, None,
             {| file := f2; block_size := bsize; version := version t;
                new_kernel := 1; kernel_name := Some name; record := record t |})
        | (_, part, f2) =>
            (1, Some "unable to read kernel name length"%string,
             {| file := f2; block_size := block_size t; version := version t;
                new_kernel := new_kernel t; kernel_name := Some part;
                record := record t |})
        end
      else
        let rest := Z.to_nat (RECORD_RAW_SIZE ch - 8) in
        match fread rest f1 with
        | (1%nat, body, f2) =>
            let buf := buf0 :: words_of_bytes (rest / 8) body in
            (0, None,
             {| file := f2; block_size := block_size t; version := version t;
                new_kernel := 0; kernel_name := kernel_name t;
                record := __trace_unpack buf (record t) |})
        | (_, _, f2) =>
            (1, Some "unable to read record"%string,
             {| file := f2; block_size := block_size t; version := version t;
                new_kernel := 0; kernel_name := kernel_name t;
                record := record t |})
        end
  | (_, _, f1) =>
      (1, None,
       {| file := f1; block_size := block_size t; version := version t;
          new_kernel := new_kernel t; kernel_name := kernel_name t;
          record := record t |})
  end.

Definition trace_write_header (f : wFILE) (version : Z) : Z * error * wFILE :=
  if version =? 2 then
    match fwrite v2 10 f with
    | (O, f1) => (1, Some "write error"%string, f1)
    | (_, f1) => (0, None, f1)
    end
  else if version =? 3 then
    match fwrite v3 10 f with
    | (O, f1) => (1, Some "write error"%string, f1)
    | (_, f1) => (0, None, f1)
    end
  else (1, Some "invalid version"%string, f).

(** [trace_write_kernel]; the parameter [block_size] is a [uint16_t], a
    number from 0 to 2^16 - 1. *)
Definition trace_write_kernel (f : wFILE) (name : list byte) (block_size : Z)
  : Z * error * wFILE :=
  let name_len := Int.u8 (Z.land (Z.of_nat (strlen name)) 255) in
  let header := Int.u64 (Z.lor (Int.u64 (Z.shiftl name_len 48))
                               (Int.u64 (Z.shiftl block_size 32))) in
  match fwrite (le_split 8 header) 8 f with
  | (O, f1) => (1, Some "write error"%string, f1)
  | (_, f1) =>
      match fwrite name (Z.to_nat name_len) f1 with
      | (O, f2) => (1, Some "write error"%string, f2)
      | (_, f2) => (0, None, f2)
      end
  end.

(** [trace_write_record]; [e] is [trace_last_error] before the call.  The
    frame is packed into the local [char buf[TRACE_RECORD_SIZE(32)]]: this is
    what the call does for a record of at most 32 address units
    ([RECORD_RAW_SIZE(addr_len)] within [writer_buf_size] below).  With more
    units the C code writes past [buf] and has no defined behaviour. *)
Definition trace_write_record (f : wFILE) (record : trace_record_t) (e : error)
  : Z * error * wFILE :=
  let buf := __trace_pack record in
  match fwrite (bytes_of_words buf)
               (Z.to_nat (RECORD_RAW_SIZE (addr_len record))) f with
  | (O, f1) => (1, Some "write error"%string, f1)
  | (_, f1) => (0, e, f1)
  end.

End WithMacros.

(** [TRACE_RECORD_SIZE(addr_len)], that is
    [offsetof(trace_record_t, addr_unit) + sizeof(trace_record_addr_t) * addr_len].
    The fields before the array take 31 bytes and the array is aligned to 8,
    so the offset is 32; a [trace_record_addr_t] takes 16 bytes. *)
Definition TRACE_RECORD_SIZE (addr_len : Z) : Z := 32 + 16 * addr_len.

(** The bytes of [char buf[TRACE_RECORD_SIZE(32)]] in [trace_write_record]. *)
Definition writer_buf_size : Z := TRACE_RECORD_SIZE 32.

(** The bytes of [uint64_t buf[TRACE_RECORD_SIZE(32)/8+1]] in [trace_next]. *)
Definition reader_buf_size : Z := 8 * (TRACE_RECORD_SIZE 32 / 8 + 1).

(** The address units that the record of a [trace_t] has room for:
    [trace_open] allocates [offsetof(trace_t, record) + TRACE_RECORD_SIZE(32)]
    bytes. *)
Definition record_block_units : Z := 32.

(** Whether a call of [trace_next] stays inside [buf] and the record block.
    The first read stores 8 bytes.  A kernel name goes to a block of its own
    size.  For a record frame of [ch] units the second read stores, behind
    the first 8 bytes, the [RECORD_RAW_SIZE(ch) - 8] bytes asked for or, when
    fewer are left, those; and when it succeeds [__trace_unpack] stores [ch]
    units in the record block. *)
Definition trace_next_in_bounds (t : trace_t) : bool :=
  match fread 8 (file t) with
  | (1%nat, first, f1) =>
      let buf0 := le_combine first in
      let ch := Int.u8 (Z.land (Z.shiftr buf0 56) 255) in
      if ch =? 0 then true
      else
        let rest := Z.to_nat (RECORD_RAW_SIZE ch - 8) in
        match fread rest f1 with
        | (1%nat, body, _) =>
            (8 + Z.of_nat (List.length body) <=? reader_buf_size)
            && (ch <=? record_block_units)
        | (_, part, _) => 8 + Z.of_nat (List.length part) <=? reader_buf_size
        end
  | _ => true
  end.

(** What [__trace_pack], [__trace_unpack], [trace_next] and
    [trace_write_record] need of the header macros: arguments the layout has
    room for also fit the C types of the fields; [RECORD_SET_INIT] yields
    64-bit words; it stores the number of address units in the top byte of the
    first word, where [trace_next] looks for it; and each [RECORD_GET_*] reads
    back what [RECORD_SET_INIT] stored. *)
Class RecordMacrosOk (M : RecordMacros) : Prop := {
  fits_types : forall a t s w x y z c sz,
    RECORD_FITS a t s w x y z c sz = true ->
    0 <= a < 2 ^ 8 /\ 0 <= t < 2 ^ 8 /\ 0 <= s < 2 ^ 8 /\ 0 <= w < 2 ^ 32 /\
    0 <= x < 2 ^ 32 /\ 0 <= y < 2 ^ 16 /\ 0 <= z < 2 ^ 16 /\
    0 <= c < 2 ^ 64 /\ 0 <= sz < 2 ^ 32;
  set_init_words : forall a t s w x y z c sz,
    let h := RECORD_SET_INIT a t s w x y z c sz in
    0 <= Common.desc h < 2 ^ 64 /\ 0 <= Common.addr h < 2 ^ 64 /\
    0 <= Common.cta h < 2 ^ 64;
  set_init_tag : forall a t s w x y z c sz,
    RECORD_FITS a t s w x y z c sz = true ->
    Z.land (Z.shiftr (Common.desc (RECORD_SET_INIT a t s w x y z c sz)) 56) 255 = a;
  get_set_init : forall a t s w x y z c sz,
    RECORD_FITS a t s w x y z c sz = true ->
    let h := RECORD_SET_INIT a t s w x y z c sz in
    RECORD_GET_ALEN h = a /\ RECORD_GET_TYPE h = t /\ RECORD_GET_SMID h = s /\
    RECORD_GET_WARP h = w /\ RECORD_GET_CTAX h = x /\ RECORD_GET_CTAY h = y /\
    RECORD_GET_CTAZ h = z /\ RECORD_GET_CLOCK h = c /\ RECORD_GET_SIZE h = sz }.

End TraceIO.

(** ** A layout for the header macros *)

Module SpecLayout.
Import TraceIO.

(** Modelled from the spec: the header macros are missing from the sources.
    This layout follows the three-word header of the specification and what
    the reader and the disabled code of [__trace_pack] show: word 0 holds the
    number of address units in its top byte (where [trace_next] tests it),
    then the type, the processor id, the access size (16 bits, as the device
    passes it) and the warp id (24 bits); word 1 holds the clock; word 2 holds
    the CTA coordinates, x in the high 32 bits, then y and z in 16 bits each. *)
Definition set_init (alen type smid warp x y z clock size : Z) : Common.record_t :=
  {| Common.desc :=
       Z.lor (Z.shiftl (Z.land alen 255) 56)
         (Z.lor (Z.shiftl (Z.land type 255) 48)
            (Z.lor (Z.shiftl (Z.land smid 255) 40)
               (Z.lor (Z.shiftl (Z.land size 65535) 24) (Z.land warp 16777215))));
     Common.addr := Z.land clock (Z.ones 64);
     Common.cta :=
       Z.lor (Z.shiftl (Z.land x (Z.ones 32)) 32)
         (Z.lor (Z.shiftl (Z.land y 65535) 16) (Z.land z 65535)) |}.

Definition get_alen (h : Common.record_t) : Z := Z.land (Z.shiftr (Common.desc h) 56) 255.
Definition get_type (h : Common.record_t) : Z := Z.land (Z.shiftr (Common.desc h) 48) 255.
Definition get_smid (h : Common.record_t) : Z := Z.land (Z.shiftr (Common.desc h) 40) 255.
Definition get_size (h : Common.record_t) : Z := Z.land (Z.shiftr (Common.desc h) 24) 65535.
Definition get_warp (h : Common.record_t) : Z := Z.land (Common.desc h) 16777215.
Definition get_clock (h : Common.record_t) : Z := Common.addr h.
Definition get_ctax (h : Common.record_t) : Z := Z.land (Z.shiftr (Common.cta h) 32) (Z.ones 32).
Definition get_ctay (h : Common.record_t) : Z := Z.land (Z.shiftr (Common.cta h) 16) 65535.
Definition get_ctaz (h : Common.record_t) : Z := Z.land (Common.cta h) 65535.

Definition in_bits (w v : Z) : bool := (0 <=? v) && (v <? 2 ^ w).

Definition fits (alen type smid warp x y z clock size : Z) : bool :=
  in_bits 8 alen && in_bits 8 type && in_bits 8 smid && in_bits 24 warp &&
  in_bits 32 x && in_bits 16 y && in_bits 16 z && in_bits 64 clock &&
  in_bits 16 size.

Definition macros : RecordMacros :=
  {| RECORD_SET_INIT := set_init;
     RECORD_GET_ALEN := get_alen;
     RECORD_GET_TYPE := get_type;
     RECORD_GET_SMID := get_smid;
     RECORD_GET_WARP := get_warp;
     RECORD_GET_CTAX := get_ctax;
     RECORD_GET_CTAY := get_ctay;
     RECORD_GET_CTAZ := get_ctaz;
     RECORD_GET_CLOCK := get_clock;
     RECORD_GET_SIZE := get_size;
     RECORD_FITS := fits |}.

End SpecLayout.

(** ** Wire forms

    The frames of a trace file as the specification describes them, to be
    compared with what the writer emits and the reader accepts. *)

Module WireFormat.
Import TraceIO.

(** The 64-bit header of a kernel frame: a zero tag in the top byte, the
    8-bit name length below it, then the 16-bit block size; the low 32 bits
    are padding. *)
Definition kernel_header (name_len block_size : Z) : Z :=
  Z.lor (Z.shiftl name_len 48) (Z.shiftl block_size 32).

(** A kernel frame: the 8-byte header, then the name without terminator. *)
Definition kernel_frame (name : list byte) (block_size : Z) : list byte :=
  le_split 8 (kernel_header (Z.of_nat (List.length name)) block_size) ++ name.

(** A reader positioned at the bytes [f]. *)
Definition reader_at (t : trace_t) (f : Stdio.rFILE) : trace_t :=
  {| file := f; block_size := block_size t; version := version t;
     new_kernel := new_kernel t; kernel_name := kernel_name t;
     record := record t |}.

(** A record with another value in its [debug] field. *)
Definition with_debug (r : trace_record_t) (d : Z) : trace_record_t :=
  {| ctaid_x := ctaid_x r; ctaid_y := ctaid_y r; ctaid_z := ctaid_z r;
     clock := clock r; warp := warp r; size := size r; debug := d;
     type := type r; addr_len := addr_len r; smid := smid r;
     addr_unit := addr_unit r |}.

(** The address units that survive the meta word of [__trace_pack]: a 64-bit
    address, an offset of 24 bits (signed) and a count of 8 bits (signed). *)
Definition unit_fits (u : trace_record_addr_t) : Prop :=
  0 <= addr u < 2 ^ 64 /\ - 2 ^ 23 <= offset u < 2 ^ 23 /\ - 2 ^ 7 <= count u < 2 ^ 7.

(** The address units of the declared C types: [uint64_t], [int32_t],
    [int8_t]. *)
Definition unit_declared (u : trace_record_addr_t) : Prop :=
  0 <= addr u < 2 ^ 64 /\ - 2 ^ 31 <= offset u < 2 ^ 31 /\ - 2 ^ 7 <= count u < 2 ^ 7.

(** A file without its last three bytes. *)
Definition truncate3 (f : list byte) : list byte := firstn (List.length f - 3) f.

(** The two buffer words of an address unit. *)
Definition packed_unit (u : trace_record_addr_t) : list Z :=
  [Int.u64 (addr u); Int.u64 (pack_meta (offset u) (count u))].

(** A record whose fields all lie within the widths of their C types and
    which has at least one address unit. *)
Definition record_declared (r : trace_record_t) : Prop :=
  1 <= addr_len r < 2 ^ 8 /\ 0 <= type r < 2 ^ 8 /\ 0 <= smid r < 2 ^ 8 /\
  0 <= warp r < 2 ^ 32 /\ 0 <= size r < 2 ^ 32 /\ 0 <= debug r < 2 ^ 32 /\
  0 <= ctaid_x r < 2 ^ 32 /\ 0 <= ctaid_y r < 2 ^ 16 /\ 0 <= ctaid_z r < 2 ^ 16 /\
  0 <= clock r < 2 ^ 64 /\
  List.length (addr_unit r) = Z.to_nat (addr_len r) /\
  Forall unit_declared (addr_unit r).

(** A record that the wire form has room for: at least one address unit, the
    header fields within the bit fields of the layout, and every address unit
    within the meta word. *)
Definition record_fits {M : RecordMacros} (r : trace_record_t) : Prop :=
  1 <= addr_len r /\
  RECORD_FITS (addr_len r) (type r) (smid r) (warp r) (ctaid_x r) (ctaid_y r)
              (ctaid_z r) (clock r) (size r) = true /\
  List.length (addr_unit r) = Z.to_nat (addr_len r) /\
  Forall unit_fits (addr_unit r).

(** The bytes of a record frame. *)
Definition record_frame {M : RecordMacros} (r : trace_record_t) : list byte :=
  bytes_of_words (__trace_pack r).

End WireFormat.

(** ** Sample values *)

Module Samples.
Import TraceIO.

(** The kernel name "k". *)
Definition name_k : list byte := [Byte.x6b].

(** A name of 257 letters "a". *)
Definition name_257 : list byte := repeat Byte.x61 257.

Definition unit_a : trace_record_addr_t := {| addr := 4096; offset := 0; count := 1 |}.
Definition unit_b : trace_record_addr_t := {| addr := 4100; offset := 4; count := 2 |}.
Definition unit_c : trace_record_addr_t := {| addr := 8192; offset := -8; count := -1 |}.

(** A load of 4 bytes with three address units. *)
Definition record_3 : trace_record_t :=
  {| ctaid_x := 7; ctaid_y := 2; ctaid_z := 1; clock := 123456789;
     warp := 5; size := 4; debug := 0; type := 1; addr_len := 3; smid := 9;
     addr_unit := [unit_a; unit_b; unit_c] |}.

(** The same record with instruction id 7 in [debug]. *)
Definition record_3_debug : trace_record_t := WireFormat.with_debug record_3 7.

(** The same record with the offset 2^24 in its second unit, and with the
    offset 0 there. *)
Definition record_3_offset (o : Z) : trace_record_t :=
  {| ctaid_x := 7; ctaid_y := 2; ctaid_z := 1; clock := 123456789;
     warp := 5; size := 4; debug := 0; type := 1; addr_len := 3; smid := 9;
     addr_unit := [unit_a; {| addr := 4100; offset := o; count := 2 |}; unit_c] |}.

(** A block as [malloc] may return it. *)
Definition blank_record : trace_record_t :=
  {| ctaid_x := 0; ctaid_y := 0; ctaid_z := 0; clock := 0;
     warp := 0; size := 0; debug := 0; type := 0; addr_len := 0; smid := 0;
     addr_unit := [] |}.

Definition blank_trace : trace_t :=
  {| file := []; block_size := 0; version := 0; new_kernel := 0;
     kernel_name := None; record := blank_record |}.

(** The file that holds a version-3 header, the kernel frame ("k", 32) and
    the record [r], as the three writer calls leave it. *)
Definition write_trace {M : RecordMacros} (r : trace_record_t) : Stdio.wFILE :=
  let '(_, _, f1) := trace_write_header (Stdio.mk_wFILE [] 4096) 3 in
  let '(_, _, f2) := trace_write_kernel f1 name_k 32 in
  let '(_, _, f3) := trace_write_record f2 r None in
  f3.

(** Opening [bytes] and calling [trace_next] three times. *)
Definition read_three {M : RecordMacros} (m : trace_t) (bytes : list byte)
  : option ((Z * error * trace_t) * (Z * error * trace_t) * (Z * error * trace_t)) :=
  match trace_open m bytes None with
  | (Some t0, _) =>
      let n1 := trace_next t0 in
      let n2 := trace_next (snd n1) in
      let n3 := trace_next (snd n2) in
      Some (n1, n2, n3)
  | (None, _) => None
  end.

End Samples.

(** ** Records with other address units *)

Module RecordEdit.
Import TraceIO.

(** The record [r] with the address units [us]. *)
Definition with_units (r : trace_record_t) (us : list trace_record_addr_t)
  : trace_record_t :=
  {| ctaid_x := ctaid_x r; ctaid_y := ctaid_y r; ctaid_z := ctaid_z r;
     clock := clock r; warp := warp r; size := size r; debug := debug r;
     type := type r; addr_len := addr_len r; smid := smid r;
     addr_unit := us |}.

(** The address unit [u] with the offset [o]. *)
Definition with_offset (u : trace_record_addr_t) (o : Z) : trace_record_addr_t :=
  {| addr := addr u; offset := o; count := count u |}.

End RecordEdit.

(** ** InstrumentDevice.cpp: the pointer kinds *)

Module PointerKinds.

(** [enum PointerKind { PK_OTHER = 0, PK_GLOBAL, PK_UNINITIALIZED }]. *)
Inductive PointerKind := PK_OTHER | PK_GLOBAL | PK_UNINITIALIZED.

Definition enum_value (pk : PointerKind) : Z :=
  match pk with PK_OTHER => 0 | PK_GLOBAL => 1 | PK_UNINITIALIZED => 2 end.

(** [return pk1 < pk2 ? pk1 : pk2]. *)
Definition mergePointerKinds (pk1 pk2 : PointerKind) : PointerKind :=
  if enum_value pk1 <? enum_value pk2 then pk1 else pk2.

End PointerKinds.

(** ** Common.h: the symbol of a kernel *)

Module Symbols.

(** A [std::string] is the list of its characters. *)
Definition cstring := list Ascii.ascii.

(** [("__" + kernelName + "_trace").str()]. *)
Definition getSymbolNameForKernel (kernelName : cstring) : cstring :=
  list_ascii_of_string "__" ++ kernelName ++ list_ascii_of_string "_trace".

End Symbols.

(** ** RegisterStandardPasses.cpp: the plugin arguments *)

Module PluginArgs.
Import Stdlib.Strings.Ascii.
Import Symbols.

(** [InstrumentPassArg] is declared in [Passes.h], which is not among the
    sources; its fields are the ones [ParseArgs] assigns: two flags, the
    kernel names, and the vectors of [uint8_t] processor ids, [uint64_t]
    coordinate values and [uint32_t] warp ids. *)
Record InstrumentPassArg := mk_InstrumentPassArg {
  trace_thread : bool;
  trace_mem : bool;
  kernel : list cstring;
  sm : list Z;
  cta : list Z;
  warp : list Z }.

(** What [std::stoi] throws. *)
Inductive exception := invalid_argument | out_of_range.

Inductive result (A : Type) :=
| Ok (a : A)
| Throw (e : exception).
Arguments Ok {A} a.
Arguments Throw {A} e.

(** A string literal. *)
Definition lit (s : string) : cstring := list_ascii_of_string s.

Definition cstring_eqb (a b : cstring) : bool :=
  String.eqb (string_of_list_ascii a) (string_of_list_ascii b).

(** The strings that a loop [while (getline(stream, str, delim))] extracts
    from a stream holding [s]; [cur] is the part of the current string that
    has been read.  A string ends at a delimiter or at the end of the stream;
    at the end of the stream nothing is extracted if no character is left. *)
Fixpoint getlines (delim : Ascii.ascii) (cur s : cstring) : list cstring :=
  match s with
  | [] => match cur with [] => [] | _ => [cur] end
  | c :: s' =>
      if Ascii.eqb c delim then cur :: getlines delim [] s'
      else getlines delim (cur ++ [c]) s'
  end.

(** [::isdigit] on a character. *)
Definition isdigit (c : Ascii.ascii) : bool :=
  (48 <=? Z.of_nat (Ascii.nat_of_ascii c)) && (Z.of_nat (Ascii.nat_of_ascii c) <=? 57).

(** [std::all_of(s.begin(), s.end(), ::isdigit)]. *)
Definition all_digits (s : cstring) : bool := forallb isdigit s.

(** The number that a string of decimal digits denotes. *)
Definition decimal (s : cstring) : Z :=
  fold_left (fun acc c => 10 * acc + (Z.of_nat (Ascii.nat_of_ascii c) - 48)) s 0.

Definition INT_MAX : Z := 2147483647.

(** [std::stoi] on a string of digits, the only strings it is called with:
    an empty string has no number, a number above [INT_MAX] is out of
    range. *)
Definition stoi (s : cstring) : result Z :=
  match s with
  | [] => Throw invalid_argument
  | _ => if decimal s <=? INT_MAX then Ok (decimal s) else Throw out_of_range
  end.

(** [optstr.find('=')]: the option name and, when there is an [=], the text
    behind it. *)
Fixpoint split_equal (s : cstring) : cstring * option cstring :=
  match s with
  | [] => ([], None)
  | c :: s' =>
      if Ascii.eqb c "="%char then ([], Some s')
      else let '(n, a) := split_equal s' in (c :: n, a)
  end.

Definition push_kernel (pa : InstrumentPassArg) (k : cstring) :=
  {| trace_thread := trace_thread pa; trace_mem := trace_mem pa;
     kernel := kernel pa ++ [k]; sm := sm pa; cta := cta pa; warp := warp pa |}.
Definition push_sm (pa : InstrumentPassArg) (v : Z) :=
  {| trace_thread := trace_thread pa; trace_mem := trace_mem pa;
     kernel := kernel pa; sm := sm pa ++ [v]; cta := cta pa; warp := warp pa |}.
Definition push_cta (pa : InstrumentPassArg) (v : Z) :=
  {| trace_thread := trace_thread pa; trace_mem := trace_mem pa;
     kernel := kernel pa; sm := sm pa; cta := cta pa ++ [v]; warp := warp pa |}.
Definition push_warp (pa : InstrumentPassArg) (v : Z) :=
  {| trace_thread := trace_thread pa; trace_mem := trace_mem pa;
     kernel := kernel pa; sm := sm pa; cta := cta pa; warp := warp pa ++ [v] |}.
Definition set_flags (pa : InstrumentPassArg) (t m : bool) :=
  {| trace_thread := t; trace_mem := m;
     kernel := kernel pa; sm := sm pa; cta := cta pa; warp := warp pa |}.

(** The loop of the [kernel] option. *)
Definition kernel_items (items : list cstring) (pa : InstrumentPassArg) :=
  fold_left push_kernel items pa.

(** The loop of the [sm] option. *)
Fixpoint sm_items (items : list cstring) (pa : InstrumentPassArg)
  : result InstrumentPassArg :=
  match items with
  | [] => Ok pa
  | optarg :: rest =>
      if all_digits optarg then
        match stoi optarg with
        | Ok v => sm_items rest (push_sm pa (Int.u8 (Z.land v 255)))
        | Throw e => Throw e
        end
      else sm_items rest pa
  end.

(** The loop of the [warp] option. *)
Fixpoint warp_items (items : list cstring) (pa : InstrumentPassArg)
  : result InstrumentPassArg :=
  match items with
  | [] => Ok pa
  | optarg :: rest =>
      if all_digits optarg then
        match stoi optarg with
        | Ok v => warp_items rest (push_warp pa (Int.u32 v))
        | Throw e => Throw e
        end
      else warp_items rest pa
  end.

(** The loop over the components of one coordinate: component [i] of
    [ctaid] is assigned when the [i]-th string consists of digits; at most
    three strings are extracted. *)
Fixpoint cta_components (comps : list cstring) (i : nat) (ctaid : list Z)
  : result (list Z) :=
  match comps with
  | [] => Ok ctaid
  | cur :: rest =>
      if (i <? 3)%nat then
        if all_digits cur then
          match stoi cur with
          | Ok v =>
              cta_components rest (S i)
                (firstn i ctaid ++ Int.u32 v :: skipn (S i) ctaid)
          | Throw e => Throw e
          end
        else cta_components rest (S i) ctaid
      else Ok ctaid
  end.

(** The loop of the [cta] option. *)
Fixpoint cta_items (items : list cstring) (pa : InstrumentPassArg)
  : result InstrumentPassArg :=
  match items with
  | [] => Ok pa
  | optarg :: rest =>
      match cta_components (getlines "/"%char [] optarg) 0 [0; 0; 0] with
      | Ok ctaid =>
          cta_items rest
            (push_cta pa (PluginEntry.ctaid_conv (nth 0 ctaid 0) (nth 1 ctaid 0)
                            (nth 2 ctaid 0)))
      | Throw e => Throw e
      end
  end.

(** One turn of the loop over the options. *)
Inductive turn :=
| Continue (pa : InstrumentPassArg)
| ReturnFalse (pa : InstrumentPassArg)
| Raise (e : exception).

Definition lift (r : result InstrumentPassArg) : turn :=
  match r with Ok pa => Continue pa | Throw e => Raise e end.

Definition option_turn (optstr : cstring) (pa : InstrumentPassArg) : turn :=
  let '(optname, arg) := split_equal optstr in
  let optarglist :=
    match arg with Some a => getlines " "%char [] a | None => [] end in
  if cstring_eqb optname (lit "thread-only") then Continue (set_flags pa true false)
  else if cstring_eqb optname (lit "mem-only") then Continue (set_flags pa false true)
  else if cstring_eqb optname (lit "no-trace") then ReturnFalse pa
  else if cstring_eqb optname (lit "kernel") then Continue (kernel_items optarglist pa)
  else if cstring_eqb optname (lit "sm") then lift (sm_items optarglist pa)
  else if cstring_eqb optname (lit "cta") then lift (cta_items optarglist pa)
  else if cstring_eqb optname (lit "warp") then lift (warp_items optarglist pa)
  else Continue pa.

Fixpoint options_loop (opts : list cstring) (pa : InstrumentPassArg)
  : result (bool * InstrumentPassArg) :=
  match opts with
  | [] => Ok (true, pa)
  | optstr :: rest =>
      match option_turn optstr pa with
      | Continue pa' => options_loop rest pa'
      | ReturnFalse pa' => Ok (false, pa')
      | Raise e => Throw e
      end
  end.

(** The stream [argslist]: every argument followed by a comma. *)
Definition argslist (args : list cstring) : cstring :=
  flat_map (fun a => a ++ [","%char]) args.

(** [ParseArgs]: the return value and the static [pass_args] after the call,
    or the exception that leaves it.  The message printed for an unused
    argument is not modelled. *)
Definition ParseArgs (pass_args : InstrumentPassArg) (args : list cstring)
  : result (bool * InstrumentPassArg) :=
  options_loop (getlines ","%char [] (argslist args))
               (set_flags pass_args true true).

End PluginArgs.

(** ** What a call of [ParseArgs] may change *)

Module PluginArgsSpec.
Import PluginArgs.

(** [pa'] holds the filter entries of [pa], in their order, followed by new
    ones that lie within the element types of the vectors. *)
Definition extends (pa pa' : InstrumentPassArg) : Prop :=
  (exists l, kernel pa' = kernel pa ++ l) /\
  (exists l, sm pa' = sm pa ++ l /\ Forall (fun v => 0 <= v < 2 ^ 8) l) /\
  (exists l, cta pa' = cta pa ++ l /\ Forall (fun v => 0 <= v < 2 ^ 64) l) /\
  (exists l, warp pa' = warp pa ++ l /\ Forall (fun v => 0 <= v < 2 ^ 32) l).

(** The two trace flags are as in [pa]. *)
Definition same_flags (pa pa' : InstrumentPassArg) : Prop :=
  trace_thread pa' = trace_thread pa /\ trace_mem pa' = trace_mem pa.

(** A [pass_args] without entries. *)
Definition pa_blank : InstrumentPassArg :=
  mk_InstrumentPassArg false false [] [] [] [].

End PluginArgsSpec.

(** ** InstrumentDevice.cpp: the device pass on an abstract module

    The pass works on LLVM values and instructions.  Here a value or an
    instruction is what the [dyn_cast] and [isa] tests of the pass tell
    about it, and it is named by a number; operands are such numbers. *)

Module DevicePass.
Import Stdlib.Strings.Ascii.
Import Symbols PointerKinds PluginArgs.

(** The values that [getPointerKind] tells apart. *)
Inductive value :=
| VAlloca                      (* AllocaInst *)
| VGlobal                      (* GlobalValue *)
| VArgument                    (* Argument *)
| VGEP (ptr : nat)             (* GEPOperator, instruction or constant *)
| VAtomicRMW (ptr : nat)       (* AtomicRMWInst *)
| VCall                        (* CallInst *)
| VPhi (incoming : list nat)   (* PHINode *)
| VBitCast (op : nat)          (* BitCastOperator *)
| VOther.

Definition values := nat -> value.

(** A run ends with a result or in [report_fatal_error]. *)
Inductive outcome (A : Type) :=
| Done (a : A)
| Fatal (msg : cstring).
Arguments Done {A} a.
Arguments Fatal {A} msg.

(** [while (auto* cast = dyn_cast<BitCastOperator>(node)) node = cast->getOperand(0)]. *)
Fixpoint skip_casts (fuel : nat) (g : values) (node : nat) : option nat :=
  match fuel with
  | O => None
  | S fuel' =>
      match g node with
      | VBitCast op => skip_casts fuel' g op
      | _ => Some node
      end
  end.

(** [seen.count(node) > 0]. *)
Definition seen_count (seen : list nat) (node : nat) : bool :=
  existsb (Nat.eqb node) seen.

(** The loop of [getPointerKind].  The head of [stack] is the back of the
    [SmallVector]; [cfuel] bounds the loop that skips casts. *)
Fixpoint getPointerKind_loop (fuel cfuel : nat) (g : values) (is_kernel : bool)
  (stack seen : list nat) (kind : PointerKind) : option (outcome PointerKind) :=
  match fuel with
  | O => None
  | S fuel' =>
      match stack with
      | [] => Some (Done kind)
      | node :: stack' =>
          if seen_count seen node
          then getPointerKind_loop fuel' cfuel g is_kernel stack' seen kind
          else
            let seen' := node :: seen in
            match skip_casts cfuel g node with
            | None => None
            | Some n =>
                match g n with
                | VAlloca =>
                    getPointerKind_loop fuel' cfuel g is_kernel stack' seen'
                      (mergePointerKinds kind PK_OTHER)
                | VGlobal =>
                    getPointerKind_loop fuel' cfuel g is_kernel stack' seen'
                      (mergePointerKinds kind PK_GLOBAL)
                | VArgument =>
                    getPointerKind_loop fuel' cfuel g is_kernel stack' seen'
                      (mergePointerKinds kind
                         (if is_kernel then PK_GLOBAL else PK_OTHER))
                | VGEP p =>
                    getPointerKind_loop fuel' cfuel g is_kernel (p :: stack') seen' kind
                | VAtomicRMW p =>
                    getPointerKind_loop fuel' cfuel g is_kernel (p :: stack') seen' kind
                | VCall =>
                    Some (Fatal (lit "Base Pointer is result of function. No."))
                | VPhi incoming =>
                    getPointerKind_loop fuel' cfuel g is_kernel
                      (rev incoming ++ stack') seen' kind
                | VBitCast _ | VOther =>
                    getPointerKind_loop fuel' cfuel g is_kernel stack' seen' kind
                end
            end
      end
  end.

Definition getPointerKind (fuel : nat) (g : values) (val : nat) (is_kernel : bool)
  : option (outcome PointerKind) :=
  getPointerKind_loop fuel fuel g is_kernel [val] [] PK_UNINITIALIZED.

(** The instructions that the pass tells apart; [callee] is [None] when
    [getCalledFunction()] is null. *)
Inductive opcode :=
| ILoad (ptr : nat)
| IStore (ptr : nat)
| IAtomicRMW (ptr : nat)
| IAtomicCmpXchg (ptr : nat)
| ICall (callee : option cstring) (arg0 : nat)
| IReturn
| IOther.

(** [DebugLoc]: file name, line and column. *)
Record DebugLoc := mk_DebugLoc { loc_filename : cstring; loc_line : Z; loc_column : Z }.

(** An instruction: what it is, the store size of the type its pointer
    operand points to, and its debug location if it has one. *)
Record instruction := mk_instruction {
  op : opcode; store_size : Z; debug_loc : option DebugLoc }.

(** A kernel: its instructions in the order of its basic blocks.  An
    instruction is named by its position. *)
Definition kernel_body := list instruction.

(** [name.startswith(prefix)]. *)
Fixpoint startswith (name prefix : cstring) : bool :=
  match prefix, name with
  | [], _ => true
  | p :: prefix', c :: name' => Ascii.eqb c p && startswith name' prefix'
  | _ :: _, [] => false
  end.

(** One instruction of the loop of [collectGlobalMemAccesses]: its pointer
    kind, or [None] for [continue]. *)
Definition access_kind (fuel : nat) (g : values) (i : instruction)
  : option (outcome (option PointerKind)) :=
  let of_pointer p :=
    match getPointerKind fuel g p true with
    | None => None
    | Some (Done k) => Some (Done (Some k))
    | Some (Fatal m) => Some (Fatal m)
    end in
  match op i with
  | ILoad p | IStore p | IAtomicRMW p | IAtomicCmpXchg p => of_pointer p
  | ICall None _ => Some (Done None)
  | ICall (Some callee_name) arg0 =>
      if startswith callee_name (lit "llvm.nvvm.atomic") then of_pointer arg0
      else if cstring_eqb callee_name (lit "___cuprof_trace")
      then Some (Fatal (lit "already instrumented!"))
      else if negb (startswith callee_name (lit "llvm."))
      then Some (Fatal (lit "call to non-intrinsic: " ++ callee_name))
      else Some (Done (Some PK_OTHER))
  | IReturn | IOther => Some (Done None)
  end.

(** [collectGlobalMemAccesses]: the positions, from [pos] on, of the
    instructions it returns. *)
Fixpoint collect_from (fuel : nat) (g : values) (body : kernel_body) (pos : nat)
  : option (outcome (list nat)) :=
  match body with
  | [] => Some (Done [])
  | i :: rest =>
      match access_kind fuel g i with
      | None => None
      | Some (Fatal m) => Some (Fatal m)
      | Some (Done k) =>
          match collect_from fuel g rest (S pos) with
          | None => None
          | Some (Fatal m) => Some (Fatal m)
          | Some (Done result) =>
              match k with
              | Some PK_GLOBAL => Some (Done (pos :: result))
              | _ => Some (Done result)
              end
          end
      end
  end.

Definition collectGlobalMemAccesses (fuel : nat) (g : values) (body : kernel_body)
  : option (outcome (list nat)) :=
  collect_from fuel g body 0.

(** [collectReturnInst]. *)
Fixpoint returns_from (body : kernel_body) (pos : nat) : list nat :=
  match body with
  | [] => []
  | i :: rest =>
      match op i with
      | IReturn => pos :: returns_from rest (S pos)
      | _ => returns_from rest (S pos)
      end
  end.

Definition collectReturnInst (body : kernel_body) : list nat := returns_from body 0.

(** [std::to_string] of an unsigned number of 32 bits: its decimal digits. *)
Fixpoint to_string_digits (fuel : nat) (n : Z) (acc : cstring) : cstring :=
  match fuel with
  | O => acc
  | S fuel' =>
      let acc' := ascii_of_nat (48 + Z.to_nat (n mod 10)) :: acc in
      if n / 10 =? 0 then acc' else to_string_digits fuel' (n / 10) acc'
  end.

Definition to_string (n : Z) : cstring := to_string_digits 10 n [].

(** [while (inst_path.find("./") == 0) inst_path.erase(0, 2)]. *)
Fixpoint strip_dot_slash (path : cstring) : cstring :=
  match path with
  | "."%char :: "/"%char :: rest => strip_dot_slash rest
  | _ => path
  end.

(** [trace_header_inst_t] and [trace_header_kernel_t] are declared in
    [TraceIO.h], which is not among the sources; their fields are the ones
    [setupAndGetKernelDebugData] assigns.  The block is cleared by [memset]
    before it is filled. *)
Record trace_header_inst_t := mk_header_inst {
  inst_id : Z; row : Z; col : Z;
  inst_filename_len : Z; inst_filename : cstring }.

Record trace_header_kernel_t := mk_header_kernel {
  header_kernel_name : cstring; kernel_name_len : Z;
  insts_count : Z; insts : list trace_header_inst_t }.

(** The metadata [TRACE_DEBUG_DATA] of the instructions: position and
    string, the latest entry first. *)
Definition metadata := list (nat * cstring).

Fixpoint getMetadata (md : metadata) (pos : nat) : option cstring :=
  match md with
  | [] => None
  | (p, s) :: md' => if Nat.eqb p pos then Some s else getMetadata md' pos
  end.

(** The loop of [setupAndGetKernelDebugData] over [inst_list]: the entries
    of the header, the metadata, the last id and [debuginfo_not_found]. *)
Fixpoint debug_entries (body : kernel_body) (inst_list : list nat)
  (id : Z) (md : metadata) (not_found : bool)
  : list trace_header_inst_t * metadata * Z * bool :=
  match inst_list with
  | [] => ([], md, id, not_found)
  | pos :: rest =>
      let id' := Int.u32 (id + 1) in
      let '(entry, not_found') :=
        match nth_error body pos with
        | Some {| debug_loc := Some loc |} =>
            let inst_path := strip_dot_slash (loc_filename loc) in
            let inst_path_len := Z.min (Z.of_nat (List.length inst_path)) 255 in
            ({| inst_id := id'; row := loc_line loc; col := loc_column loc;
                inst_filename_len := inst_path_len;
                inst_filename := firstn (Z.to_nat inst_path_len) inst_path |},
             not_found)
        | _ =>
            ({| inst_id := id'; row := 0; col := 0;
                inst_filename_len := 0; inst_filename := [] |}, true)
        end in
      let '(entries, md', last, nf) :=
        debug_entries body rest id' ((pos, to_string id') :: md) not_found' in
      (entry :: entries, md', last, nf)
  end.

(** [setupAndGetKernelDebugData], up to the serialisation of the header
    (by [header_serialize], which is not among the sources): the header, the
    metadata after the call and the return value. *)
Definition setupAndGetKernelDebugData (kernel_name : cstring) (body : kernel_body)
  (inst_list : list nat) (md : metadata)
  : trace_header_kernel_t * metadata * bool :=
  let kernel_name_len := Int.u8 (Z.min (Z.of_nat (List.length kernel_name)) 255) in
  let '(entries, md', last, not_found) := debug_entries body inst_list 0 md false in
  ({| header_kernel_name := firstn (Z.to_nat kernel_name_len) kernel_name;
      kernel_name_len := kernel_name_len;
      insts_count := last; insts := entries |},
   md', negb not_found).

(** The record types; their numbers are defined in [TraceIO.h]. *)
Inductive record_type :=
| RECORD_LOAD | RECORD_STORE | RECORD_ATOMIC | RECORD_EXECUTE | RECORD_RETURN.

(** The arguments of an inserted trace call that depend on the instruction:
    where it is inserted, the pointer whose address is traced, the
    instruction id, the size (an [i16]) and the type. *)
Record trace_call := mk_trace_call {
  call_pos : nat; call_addr : nat; call_inst_id : Z; call_size : Z;
  call_type : record_type }.

(** What ends [instrumentMemAccess] early. *)
Inductive failure :=
| fatal_error (msg : cstring)
| assertion_failed
| null_callee
| stoi_throws (e : exception).

(** One turn of the loop of [instrumentMemAccess]. *)
Definition instrument_one (body : kernel_body) (md : metadata) (pos : nat)
  : failure + trace_call :=
  match nth_error body pos with
  | None => inl (fatal_error (lit "invalid access type encountered, this should not have happened"))
  | Some i =>
      let access :=
        match op i with
        | ILoad p => inr (p, RECORD_LOAD)
        | IStore p => inr (p, RECORD_STORE)
        | IAtomicRMW p => inr (p, RECORD_ATOMIC)
        | IAtomicCmpXchg p => inr (p, RECORD_ATOMIC)
        | ICall None _ => inl null_callee
        | ICall (Some callee_name) arg0 =>
            if startswith callee_name (lit "llvm.nvvm.atomic")
            then inr (arg0, RECORD_ATOMIC) else inl assertion_failed
        | IReturn | IOther =>
            inl (fatal_error (lit "invalid access type encountered, this should not have happened"))
        end in
      match access with
      | inl f => inl f
      | inr (p, ty) =>
          let id :=
            match getMetadata md pos with
            | Some s => match stoi s with Ok v => inr (Int.u32 v) | Throw e => inl (stoi_throws e) end
            | None => inr 0
            end in
          match id with
          | inl f => inl f
          | inr inst_id_num =>
              inr {| call_pos := pos; call_addr := p; call_inst_id := inst_id_num;
                     call_size := Int.u16 (store_size i); call_type := ty |}
          end
      end
  end.

(** [instrumentMemAccess]: the trace calls it inserts. *)
Fixpoint instrumentMemAccess (body : kernel_body) (md : metadata)
  (memacc_insts : list nat) : failure + list trace_call :=
  match memacc_insts with
  | [] => inr []
  | pos :: rest =>
      match instrument_one body md pos with
      | inl f => inl f
      | inr c =>
          match instrumentMemAccess body md rest with
          | inl f => inl f
          | inr cs => inr (c :: cs)
          end
      end
  end.

End DevicePass.

(** ** Reading the device pass *)

Module DevicePassSpec.
Import Symbols PluginArgs DevicePass.

(** The instructions that [instrumentMemAccess] has a record type for. *)
Definition memory_access (o : opcode) : option (nat * record_type) :=
  match o with
  | ILoad p => Some (p, RECORD_LOAD)
  | IStore p => Some (p, RECORD_STORE)
  | IAtomicRMW p => Some (p, RECORD_ATOMIC)
  | IAtomicCmpXchg p => Some (p, RECORD_ATOMIC)
  | ICall (Some callee_name) arg0 =>
      if startswith callee_name (lit "llvm.nvvm.atomic")
      then Some (arg0, RECORD_ATOMIC) else None
  | _ => None
  end.

(** One digit more at the end of a number. *)
Definition digit_step (a : Z) (c : Ascii.ascii) : Z :=
  10 * a + (Z.of_nat (Ascii.nat_of_ascii c) - 48).

(** [k] times "./". *)
Fixpoint dot_slashes (k : nat) : cstring :=
  match k with
  | O => []
  | S k' => lit "./" ++ dot_slashes k'
  end.

End DevicePassSpec.

(** ** The values behind a pointer *)

Module PointerGraph.
Import PointerKinds DevicePass.

(** The value that skipping casts from [v] arrives at. *)
Inductive strips (g : values) : nat -> nat -> Prop :=
| strips_here v : (forall o, g v <> VBitCast o) -> strips g v v
| strips_cast v o n : g v = VBitCast o -> strips g o n -> strips g v n.

(** The operands that the loop of [getPointerKind] pushes for a value. *)
Definition operands (x : value) : list nat :=
  match x with
  | VGEP p | VAtomicRMW p => [p]
  | VPhi incoming => incoming
  | _ => []
  end.

(** The kind that a value merges into the result. *)
Definition contribution (is_kernel : bool) (x : value) : option PointerKind :=
  match x with
  | VAlloca => Some PK_OTHER
  | VGlobal => Some PK_GLOBAL
  | VArgument => Some (if is_kernel then PK_GLOBAL else PK_OTHER)
  | _ => None
  end.

Definition is_call_value (x : value) : bool :=
  match x with VCall => true | _ => false end.

(** [w] is pushed when [v] is visited. *)
Definition edge (g : values) (v w : nat) : Prop :=
  exists n, strips g v n /\ In w (operands (g n)).

(** The values that a pointer may come from. *)
Inductive reach (g : values) (val : nat) : nat -> Prop :=
| reach_start : reach g val val
| reach_step v w : reach g val v -> edge g v w -> reach g val w.

Definition contributes (g : values) (is_kernel : bool) (v : nat) (c : PointerKind)
  : Prop :=
  exists n, strips g v n /\ contribution is_kernel (g n) = Some c.

Definition is_call (g : values) (v : nat) : Prop :=
  exists n, strips g v n /\ g n = VCall.

(** The state of the loop between two turns. *)
Definition loop_invariant (g : values) (is_kernel : bool) (val : nat)
  (stack seen : list nat) (kind : PointerKind) : Prop :=
  (forall v, In v seen \/ In v stack -> reach g val v) /\
  (forall v w, In v seen -> edge g v w -> In w seen \/ In w stack) /\
  (In val seen \/ In val stack) /\
  (forall v c, In v seen -> contributes g is_kernel v c ->
               enum_value kind <= enum_value c) /\
  (kind = PK_UNINITIALIZED \/
   exists v, In v seen /\ contributes g is_kernel v kind) /\
  (forall v, In v seen -> ~ is_call g v).

(** What holds of the kind that is returned. *)
Definition is_least_kind (g : values) (is_kernel : bool) (val : nat)
  (kind : PointerKind) : Prop :=
  (forall v c, reach g val v -> contributes g is_kernel v c ->
               enum_value kind <= enum_value c) /\
  (kind = PK_UNINITIALIZED \/
   exists v, reach g val v /\ contributes g is_kernel v kind) /\
  (forall v, reach g val v -> ~ is_call g v).

(** A module with [N] values in which a cast is applied to an earlier
    value. *)
Definition finite_below (g : values) (N : nat) : Prop :=
  forall v, (N <= v)%nat -> g v = VOther.

Definition casts_descend (g : values) : Prop :=
  forall v o, g v = VBitCast o -> (o < v)%nat.

(** The operands pushed for [v], and the number of turns that the values
    not yet seen can still cause. *)
Definition pushed (g : values) (v : nat) : list nat :=
  match skip_casts (S v) g v with
  | Some n => operands (g n)
  | None => []
  end.

Definition weight_on (g : values) (seen : list nat) (l : list nat) : nat :=
  list_sum (map (fun v => if seen_count seen v then 0%nat
                          else S (List.length (pushed g v))) l).

Definition weight (g : values) (N : nat) (seen : list nat) : nat :=
  weight_on g seen (seq 0 N).

(** Turns that are always enough for a module with [N] values. *)
Definition enough_fuel (g : values) (N : nat) : nat := S (S (N + weight g N [])).

End PointerGraph.

(** ** A sample kernel *)

Module SampleKernel.
Import PointerKinds DevicePass PluginArgs.

(** Value 0 is a kernel argument, 1 an element of it, 2 a cast of 1, 3 a
    local variable, 4 a value loaded from memory, 5 a phi of 2 and itself. *)
Definition sample_values : values :=
  fun v =>
    match v with
    | 0%nat => VArgument
    | 1%nat => VGEP 0
    | 2%nat => VBitCast 1
    | 3%nat => VAlloca
    | 5%nat => VPhi [2%nat; 5%nat]
    | _ => VOther
    end.

(** A load through the phi, a store to the local variable, a load through
    the loaded pointer, an atomic increment of the argument, a return. *)
Definition sample_body : kernel_body :=
  [ mk_instruction (ILoad 5) 4 (Some (mk_DebugLoc (lit "././src/k.cu") 10 3));
    mk_instruction (IStore 3) 4 None;
    mk_instruction (ILoad 4) 8 None;
    mk_instruction (ICall (Some (lit "llvm.nvvm.atomic.load.inc.32.p0i32")) 0) 4 None;
    mk_instruction IReturn 0 None ].

End SampleKernel.

(** * Properties *)

Module IntFacts.
Import Int.

Lemma wrap_small w z : 0 <= z < 2 ^ w -> wrap w z = z.
Proof. intros H. unfold wrap. now apply Z.mod_small. Qed.

Lemma wrap_range w z : 0 <= w -> 0 <= wrap w z < 2 ^ w.
Proof. intros H. unfold wrap. apply Z.mod_pos_bound. now apply Z.pow_pos_nonneg. Qed.

Lemma s32_small z : - 2 ^ 31 <= z < 2 ^ 31 -> s32 z = z.
Proof.
  intros H. unfold s32, swrap. change (32 - 1) with 31.
  rewrite Z.mod_small; lia.
Qed.

Lemma s8_small z : - 2 ^ 7 <= z < 2 ^ 7 -> s8 z = z.
Proof.
  intros H. unfold s8, swrap. change (8 - 1) with 7.
  rewrite Z.mod_small; lia.
Qed.

Lemma u8_small z : 0 <= z < 2 ^ 8 -> u8 z = z.
Proof. apply wrap_small. Qed.

Lemma u16_small z : 0 <= z < 2 ^ 16 -> u16 z = z.
Proof. apply wrap_small. Qed.

Lemma u32_small z : 0 <= z < 2 ^ 32 -> u32 z = z.
Proof. apply wrap_small. Qed.

Lemma u64_small z : 0 <= z < 2 ^ 64 -> u64 z = z.
Proof. apply wrap_small. Qed.

Lemma wrap_wrap w z : 0 <= w -> wrap w (wrap w z) = wrap w z.
Proof. intros H. unfold wrap. apply Z.mod_mod. apply Z.pow_nonzero; lia. Qed.

End IntFacts.

(** Equality of two bit patterns, bit by bit; bits at negative positions that
    a shift leaves behind are cleared before the boolean goal is closed. *)
Ltac bits :=
  Z.bitblast;
  repeat match goal with
         | |- context [Z.testbit ?a ?i] =>
             rewrite (Z.testbit_neg_r a i) by lia
         end;
  try reflexivity; try btauto.

(** ** Kernel entry: coordinate identifier and shard selection *)

Module DeviceFacts.
Import Common InstrumentDevice.

Lemma u32_range v : 0 <= Int.u32 v < 2 ^ 32.
Proof. apply IntFacts.wrap_range; lia. Qed.

(** A logical right shift by the full width of the operand leaves nothing. *)
Lemma lshr_all w v : 0 <= w -> 0 <= v < 2 ^ w -> CreateLShr v w = 0.
Proof.
  intros Hw Hv. unfold CreateLShr.
  rewrite Z.shiftr_div_pow2 by assumption. now apply Z.div_small.
Qed.

Lemma and_65535_range v : 0 <= CreateAnd v 65535 < 2 ^ 16.
Proof.
  unfold CreateAnd. change 65535 with (Z.ones 16).
  rewrite Z.land_ones by lia. apply Z.mod_pos_bound. lia.
Qed.

(** What the emitted instructions compute: only the low 16 bits of z. *)
Lemma ctaid_serialized_value x y z :
  ctaid_serialized x y z = Z.land (Int.u32 z) 65535.
Proof.
  unfold ctaid_serialized, CreateZExt.
  rewrite (lshr_all 32) by (try lia; apply u32_range).
  rewrite (lshr_all 16) by (try lia; apply and_65535_range).
  reflexivity.
Qed.

(** C2 (code defect).  The device pass does not place (x << 32) | (y << 16) | z
    in the record: it shifts x and y to the right ([CreateLShr]) where the
    comment above the code and the conversion of the [cta] filter argument in
    [ParseArgs] shift to the left, so for every coordinate the identifier is
    just the low 16 bits of z.  At the coordinate (1, 2, 3) the pass computes
    3, while the packed identifier, as [ParseArgs] computes it, is
    4295098371. *)
Theorem ctaid_serialized_drops_x_and_y :
  (forall x y z, ctaid_serialized x y z = Z.land (Int.u32 z) 65535) /\
  ctaid_serialized 1 2 3 = 3 /\
  Z.lor (Z.shiftl 1 32) (Z.lor (Z.shiftl 2 16) 3) = 4295098371 /\
  PluginEntry.ctaid_conv 1 2 3 = 4295098371 /\
  ctaid_serialized 1 2 3 <> PluginEntry.ctaid_conv 1 2 3.
Proof.
  split; [exact ctaid_serialized_value|].
  repeat split; try reflexivity. vm_compute. discriminate.
Qed.

Lemma slot_mod smid : 0 <= smid < 2 ^ 32 -> slot smid = smid mod SLOTS_NUM.
Proof.
  intros H. unfold slot, CreateAnd. rewrite IntFacts.u32_small by assumption.
  change (SLOTS_NUM - 1) with (Z.ones 2). rewrite Z.land_ones by lia.
  reflexivity.
Qed.

Lemma slot_range smid : 0 <= smid < 2 ^ 32 -> 0 <= slot smid < SLOTS_NUM.
Proof.
  intros H. rewrite slot_mod by assumption. apply Z.mod_pos_bound. reflexivity.
Qed.

Lemma base_i_value s : 0 <= s < SLOTS_NUM -> base_i s = s * CACHELINE.
Proof.
  unfold base_i, CreateMul32, SLOTS_NUM, CACHELINE. intros H.
  apply IntFacts.u32_small. lia.
Qed.

Lemma gep_base_i p s :
  0 <= s < SLOTS_NUM -> CreateInBoundsGEP p (base_i s) = p + s * CACHELINE.
Proof.
  intros H. unfold CreateInBoundsGEP. rewrite base_i_value by assumption.
  rewrite IntFacts.s32_small; [reflexivity|].
  unfold SLOTS_NUM, CACHELINE in *. lia.
Qed.

Lemma cache_line_shift p s : cache_line (p + s * CACHELINE) = cache_line p + s.
Proof. unfold cache_line. apply Z.div_add. discriminate. Qed.

(** C8.  A producer running on processor [smid] uses the shard
    [smid mod SLOTS_NUM], where [SLOTS_NUM] = 4 is a power of two; its alloc
    and commit counters are at byte offset shard * [CACHELINE] (64) from the
    bases of the counter arrays; and two producers of one kernel whose shards
    differ have their alloc counters, and their commit counters, on different
    cache lines. *)
Theorem shard_counters_on_distinct_cache_lines
  (gv : traceinfo_t) (r1 r2 : sregs)
  (H1 : 0 <= smid r1 < 2 ^ 32) (H2 : 0 <= smid r2 < 2 ^ 32) :
  let i1 := setupTraceInfo gv r1 in
  let i2 := setupTraceInfo gv r2 in
  SLOTS_NUM = 2 ^ 2 /\ CACHELINE = 64 /\
  slot (smid r1) = smid r1 mod SLOTS_NUM /\
  allocs i1 = ti_allocs gv + slot (smid r1) * CACHELINE /\
  commits i1 = ti_commits gv + slot (smid r1) * CACHELINE /\
  (slot (smid r1) <> slot (smid r2) ->
   cache_line (allocs i1) <> cache_line (allocs i2) /\
   cache_line (commits i1) <> cache_line (commits i2)).
Proof.
  pose proof (slot_range _ H1) as R1. pose proof (slot_range _ H2) as R2.
  cbn zeta. unfold setupTraceInfo. cbn [allocs commits].
  rewrite !gep_base_i by assumption.
  repeat split; try reflexivity.
  - now apply slot_mod.
  - rewrite !cache_line_shift. lia.
  - rewrite !cache_line_shift. lia.
Qed.

Lemma shard_counters_on_distinct_cache_lines_witness :
  let gv := {| ti_allocs := 4096; ti_commits := 8192; ti_records := 16384;
               ti_slot_size := 64 |} in
  let r1 := mk_sregs 0 0 0 32 1 0 0 0 5 in
  let r2 := mk_sregs 0 0 0 32 1 0 0 0 6 in
  allocs (setupTraceInfo gv r1) = 4096 + 1 * 64 /\
  cache_line (allocs (setupTraceInfo gv r1))
    <> cache_line (allocs (setupTraceInfo gv r2)).
Proof.
  cbn zeta.
  pose proof (shard_counters_on_distinct_cache_lines
                {| ti_allocs := 4096; ti_commits := 8192; ti_records := 16384;
                   ti_slot_size := 64 |}
                (mk_sregs 0 0 0 32 1 0 0 0 5) (mk_sregs 0 0 0 32 1 0 0 0 6)
                ltac:(cbn; lia) ltac:(cbn; lia)) as H.
  cbn zeta in H.
  destruct H as (_ & _ & _ & Ha & _ & Hd).
  split.
  - exact Ha.
  - apply Hd. vm_compute. discriminate.
Defined.

End DeviceFacts.

(** ** Streams *)

Module StdioFacts.
Import Stdio.

Lemma firstn_length_app {A} (a b : list A) : firstn (List.length a) (a ++ b) = a.
Proof.
  rewrite firstn_app, Nat.sub_diag, firstn_all. cbn. apply app_nil_r.
Qed.

Lemma skipn_length_app {A} (a b : list A) : skipn (List.length a) (a ++ b) = b.
Proof.
  rewrite skipn_app, Nat.sub_diag, skipn_all. reflexivity.
Qed.

Lemma fread_zero f : fread 0 f = (0%nat, [], f).
Proof. reflexivity. Qed.

(** A read of a non-zero size succeeds when that many bytes are there. *)
Lemma fread_app (n : nat) (a b : list byte) :
  n <> 0%nat -> List.length a = n -> fread n (a ++ b) = (1%nat, a, b).
Proof.
  intros Hn Ha. unfold fread.
  destruct (Nat.eqb_spec n 0) as [E|_]; [contradiction|].
  destruct (Nat.leb_spec n (List.length (a ++ b))) as [_|L].
  - subst n. now rewrite firstn_length_app, skipn_length_app.
  - rewrite length_app in L. lia.
Qed.

Lemma fread_exact (n : nat) (a : list byte) :
  n <> 0%nat -> List.length a = n -> fread n a = (1%nat, a, []).
Proof.
  intros Hn Ha. rewrite <- (app_nil_r a) at 1. now apply fread_app.
Qed.

(** A read fails, leaving the stream at its end, when too few bytes are left. *)
Lemma fread_short (n : nat) (f : rFILE) :
  (List.length f < n)%nat -> fread n f = (0%nat, f, []).
Proof.
  intros L. unfold fread.
  destruct (Nat.eqb_spec n 0) as [E|_]; [lia|].
  destruct (Nat.leb_spec n (List.length f)); [lia|reflexivity].
Qed.

Lemma fread_count (n : nat) (f : rFILE) :
  fst (fst (fread n f)) = 1%nat \/ fst (fst (fread n f)) = 0%nat.
Proof.
  unfold fread. destruct (n =? 0)%nat; [now right|].
  destruct (n <=? List.length f)%nat; [now left|now right].
Qed.

Lemma fwrite_zero data f : fwrite data 0 f = (0%nat, f).
Proof. reflexivity. Qed.

Lemma fwrite_ok data (n : nat) f :
  n <> 0%nat -> (n <= room f)%nat ->
  fwrite data n f =
  (1%nat, {| written := written f ++ firstn n data; room := room f - n |}).
Proof.
  intros Hn Hr. unfold fwrite.
  destruct (Nat.eqb_spec n 0) as [E|_]; [contradiction|].
  destruct (Nat.leb_spec n (room f)); [reflexivity|lia].
Qed.

Lemma fwrite_full data (n : nat) f :
  n <> 0%nat -> (room f < n)%nat ->
  fwrite data n f =
  (0%nat, {| written := written f ++ firstn (room f) data; room := 0 |}).
Proof.
  intros Hn Hr. unfold fwrite.
  destruct (Nat.eqb_spec n 0) as [E|_]; [contradiction|].
  destruct (Nat.leb_spec n (room f)); [lia|reflexivity].
Qed.

Lemma memcmp_eq_spec (n : nat) : forall a b : list byte,
  List.length a = n -> List.length b = n -> (memcmp_eq a b n = true <-> a = b).
Proof.
  induction n as [|n IH]; intros [|x a] [|y b] Ha Hb; try discriminate.
  - now split.
  - cbn [memcmp_eq]. rewrite andb_true_iff, IH by (cbn in *; lia).
    split.
    + intros [E ->]. apply Byte.byte_dec_bl in E. now subst.
    + intros E. injection E as -> ->. split; [now apply Byte.byte_dec_lb|reflexivity].
Qed.

(** A string without an embedded NUL has the length of its list. *)
Lemma strlen_length (s : list byte) : ~ In Byte.x00 s -> strlen s = List.length s.
Proof.
  induction s as [|c s IH]; intros H; [reflexivity|].
  cbn [strlen]. destruct (Byte.eqb c Byte.x00) eqn:E.
  - apply Byte.byte_dec_bl in E. subst c. exfalso. apply H. now left.
  - cbn [List.length]. f_equal. apply IH. intros I. apply H. now right.
Qed.

End StdioFacts.

(** ** Opening a trace and writing its header *)

Module HeaderFacts.
Import Stdio TraceIO StdioFacts.

Lemma trace_open_long (m : trace_t) (f : rFILE) (e : error) :
  (10 <= List.length f)%nat ->
  trace_open m f e =
  if memcmp_eq (firstn 10 f) v2 10 then
    (Some {| file := skipn 10 f; block_size := block_size m; version := 2;
             new_kernel := 0; kernel_name := None; record := record m |}, e)
  else if memcmp_eq (firstn 10 f) v3 10 then
    (Some {| file := skipn 10 f; block_size := block_size m; version := 3;
             new_kernel := 0; kernel_name := None; record := record m |}, e)
  else (None, Some "invalid version"%string).
Proof.
  intros L. unfold trace_open.
  rewrite <- (firstn_skipn 10 f) at 1.
  rewrite fread_app; [reflexivity|discriminate|].
  rewrite length_firstn. lia.
Qed.

Lemma trace_open_short (m : trace_t) (f : rFILE) (e : error) :
  (List.length f < 10)%nat ->
  trace_open m f e = (None, Some "unable to read version"%string).
Proof. intros L. unfold trace_open. now rewrite fread_short. Qed.

Lemma firstn_10_long (f v : list byte) :
  firstn 10 f = v -> List.length v = 10%nat -> (10 <= List.length f)%nat.
Proof.
  intros E L. rewrite <- E, length_firstn in L. lia.
Qed.

Lemma v2_neq_v3 : v2 <> v3.
Proof. discriminate. Qed.

(** The outcome of [trace_open] in terms of the first ten bytes. *)
Lemma trace_open_cases (m : trace_t) (f : rFILE) (e : error) :
  (firstn 10 f = v2 /\
   trace_open m f e =
   (Some {| file := skipn 10 f; block_size := block_size m; version := 2;
            new_kernel := 0; kernel_name := None; record := record m |}, e)) \/
  (firstn 10 f = v3 /\
   trace_open m f e =
   (Some {| file := skipn 10 f; block_size := block_size m; version := 3;
            new_kernel := 0; kernel_name := None; record := record m |}, e)) \/
  (firstn 10 f <> v2 /\ firstn 10 f <> v3 /\
   fst (trace_open m f e) = None /\ snd (trace_open m f e) <> None).
Proof.
  destruct (Nat.le_gt_cases 10 (List.length f)) as [L|L].
  - rewrite trace_open_long by assumption.
    assert (Hl : List.length (firstn 10 f) = 10%nat) by (rewrite length_firstn; lia).
    destruct (memcmp_eq (firstn 10 f) v2 10) eqn:E2.
    + left. split; [|reflexivity]. now apply (memcmp_eq_spec 10).
    + destruct (memcmp_eq (firstn 10 f) v3 10) eqn:E3.
      * right; left. split; [|reflexivity]. now apply (memcmp_eq_spec 10).
      * right; right. repeat split.
        -- intros E. apply (memcmp_eq_spec 10) in E; [congruence|assumption|reflexivity].
        -- intros E. apply (memcmp_eq_spec 10) in E; [congruence|assumption|reflexivity].
        -- discriminate.
  - right; right. rewrite trace_open_short by assumption.
    assert (Hl : (List.length (firstn 10 f) < 10)%nat) by (rewrite length_firstn; lia).
    repeat split.
    + intros E. apply firstn_10_long in E; [lia|reflexivity].
    + intros E. apply firstn_10_long in E; [lia|reflexivity].
    + discriminate.
Qed.

(** C5.  [trace_open] returns a stream exactly when the first ten bytes of the
    source are one of the two magic sequences; the stream has version 2 for
    the magic [v2] and version 3 for the magic [v3]; for every other prefix,
    also of a source with fewer than ten bytes, it returns NULL and sets an
    error. *)
Theorem trace_open_checks_magic (m : trace_t) (f : rFILE) (e : error) :
  ((exists t, fst (trace_open m f e) = Some t) <->
   (firstn 10 f = v2 \/ firstn 10 f = v3)) /\
  (firstn 10 f = v2 ->
   exists t, fst (trace_open m f e) = Some t /\ version t = 2) /\
  (firstn 10 f = v3 ->
   exists t, fst (trace_open m f e) = Some t /\ version t = 3) /\
  ((firstn 10 f <> v2 /\ firstn 10 f <> v3) ->
   fst (trace_open m f e) = None /\ snd (trace_open m f e) <> None) /\
  ((List.length f < 10)%nat -> fst (trace_open m f e) = None).
Proof.
  pose proof v2_neq_v3 as N.
  destruct (trace_open_cases m f e) as [[P E]|[[P E]|(P2 & P3 & E & E')]].
  - rewrite E. cbn [fst snd].
    split; [|split; [|split; [|split]]].
    + split; [intros _; now left|intros _; eexists; reflexivity].
    + intros _. eexists; split; reflexivity.
    + intros Q. congruence.
    + intros [Q _]. contradiction.
    + intros L. apply firstn_10_long in P; [lia|reflexivity].
  - rewrite E. cbn [fst snd].
    split; [|split; [|split; [|split]]].
    + split; [intros _; now right|intros _; eexists; reflexivity].
    + intros Q. congruence.
    + intros _. eexists; split; reflexivity.
    + intros [_ Q]. contradiction.
    + intros L. apply firstn_10_long in P; [lia|reflexivity].
  - split; [|split; [|split; [|split]]].
    + split; [intros [t Ht]; congruence|intros [Q|Q]; contradiction].
    + intros Q. contradiction.
    + intros Q. contradiction.
    + intros _. split; assumption.
    + intros _. assumption.
Qed.

(** C9.  For a version other than 2 and 3, [trace_write_header] returns 1
    with the error "invalid version" and leaves the file as it was. *)
Theorem trace_write_header_invalid_version (f : wFILE) (v : Z)
  (H2 : v <> 2) (H3 : v <> 3) :
  trace_write_header f v = (1, Some "invalid version"%string, f).
Proof.
  unfold trace_write_header.
  destruct (Z.eqb_spec v 2) as [E|_]; [contradiction|].
  destruct (Z.eqb_spec v 3) as [E|_]; [contradiction|].
  reflexivity.
Qed.

Lemma trace_write_header_invalid_version_witness :
  trace_write_header {| written := v3; room := 100 |} 4 =
  (1, Some "invalid version"%string, {| written := v3; room := 100 |}).
Proof.
  apply (trace_write_header_invalid_version {| written := v3; room := 100 |} 4);
    lia.
Defined.

Lemma trace_write_header_3 (f : wFILE) :
  (10 <= room f)%nat ->
  trace_write_header f 3 =
  (0, None, {| written := written f ++ v3; room := room f - 10 |}).
Proof.
  intros L. unfold trace_write_header. cbn [Z.eqb Pos.eqb].
  rewrite fwrite_ok by (try discriminate; assumption). reflexivity.
Qed.

End HeaderFacts.

(** ** Kernel frames *)

Module KernelFrameFacts.
Import Stdio TraceIO WireFormat StdioFacts.

(** The fields of a kernel header are where [trace_next] looks for them. *)
Lemma kernel_header_fields (nl b : Z) :
  0 <= nl < 2 ^ 8 -> 0 <= b < 2 ^ 16 ->
  let h := kernel_header nl b in
  Z.land (Z.shiftr h 56) 255 = 0 /\
  Z.land (Z.shiftr h 48) 255 = nl /\
  Z.land (Z.shiftr h 32) 65535 = b.
Proof.
  intros Hn Hb. cbn zeta. unfold kernel_header.
  rewrite <- (Z.mod_small nl (2 ^ 8)) by lia.
  rewrite <- (Z.mod_small b (2 ^ 16)) by lia.
  change 255 with (Z.ones 8). change 65535 with (Z.ones 16).
  split; [|split]; bits.
Qed.

Lemma kernel_header_range (nl b : Z) :
  0 <= nl < 2 ^ 8 -> 0 <= b < 2 ^ 16 -> 0 <= kernel_header nl b < 2 ^ 64.
Proof.
  intros Hn Hb.
  assert (E : kernel_header nl b = kernel_header nl b mod 2 ^ 64).
  { unfold kernel_header.
    rewrite <- (Z.mod_small nl (2 ^ 8)) by lia.
    rewrite <- (Z.mod_small b (2 ^ 16)) by lia.
    Z.bitblast. }
  rewrite E. apply Z.mod_pos_bound. lia.
Qed.

Lemma shiftl_range (v k w : Z) :
  0 <= k -> 0 <= w -> 0 <= v < 2 ^ w -> 0 <= Z.shiftl v k < 2 ^ (w + k).
Proof.
  intros Hk Hw Hv. rewrite Z.shiftl_mul_pow2 by assumption.
  rewrite Z.pow_add_r by assumption.
  assert (0 < 2 ^ k) by (apply Z.pow_pos_nonneg; lia). nia.
Qed.

(** The header word computed by [trace_write_kernel]. *)
Lemma written_header (nl b : Z) :
  0 <= nl < 2 ^ 8 -> 0 <= b < 2 ^ 16 ->
  Int.u64 (Z.lor (Int.u64 (Z.shiftl nl 48)) (Int.u64 (Z.shiftl b 32))) =
  kernel_header nl b.
Proof.
  intros Hn Hb.
  pose proof (shiftl_range nl 48 8 ltac:(lia) ltac:(lia) Hn) as R1.
  pose proof (shiftl_range b 32 16 ltac:(lia) ltac:(lia) Hb) as R2.
  cbn [Z.add Pos.add Pos.succ] in R1, R2.
  rewrite (IntFacts.u64_small (Z.shiftl nl 48)) by lia.
  rewrite (IntFacts.u64_small (Z.shiftl b 32)) by lia.
  apply IntFacts.u64_small. now apply kernel_header_range.
Qed.

(** [strlen(name) & 0xFF] as a number. *)
Lemma masked_length (n : nat) :
  Int.u8 (Z.land (Z.of_nat n) 255) = Z.of_nat (n mod 256).
Proof.
  change 255 with (Z.ones 8). rewrite Z.land_ones by lia.
  unfold Int.u8, Int.wrap. rewrite Z.mod_mod by lia.
  change (2 ^ 8) with (Z.of_nat 256). now rewrite <- Nat2Z.inj_mod.
Qed.

(** What [trace_write_kernel] emits for any name: one frame, whose length
    field is the length of the name modulo 256 and which carries only that
    many leading bytes of the name. *)
Lemma trace_write_kernel_emits (f : wFILE) (name : list byte) (b : Z) :
  strlen name = List.length name -> 0 <= b < 2 ^ 16 ->
  let nl := (List.length name mod 256)%nat in
  (8 + nl <= room f)%nat ->
  trace_write_kernel f name b =
  (if (nl =? 0)%nat then 1 else 0,
   if (nl =? 0)%nat then Some "write error"%string else None,
   {| written := written f ++ kernel_frame (firstn nl name) b;
      room := room f - (8 + nl) |}).
Proof.
  intros Hnul Hb nl Hroom. unfold trace_write_kernel.
  rewrite Hnul.
  rewrite masked_length. fold nl.
  assert (Hnl : (nl < 256)%nat) by (apply Nat.mod_upper_bound; discriminate).
  assert (Hle : (nl <= List.length name)%nat) by (apply Nat.Div0.mod_le).
  rewrite written_header by lia.
  rewrite Nat2Z.id.
  rewrite fwrite_ok by (cbn [room]; try discriminate; lia).
  rewrite firstn_all2 by (rewrite length_le_split; lia).
  unfold kernel_frame. rewrite length_firstn, Nat.min_l by assumption.
  destruct (Nat.eqb_spec nl 0) as [E|E].
  - rewrite E. rewrite fwrite_zero. cbn [written room firstn].
    rewrite app_nil_r. rewrite Nat.add_0_r. reflexivity.
  - rewrite fwrite_ok by (cbn [room]; lia). cbn [written room].
    rewrite <- app_assoc.
    replace (room f - 8 - nl)%nat with (room f - (8 + nl))%nat by lia.
    reflexivity.
Qed.

Section Reading.
Context {M : RecordMacros}.

(** [trace_next] on a kernel frame with a name of 1 to 255 bytes. *)
Lemma trace_next_kernel_frame (t : trace_t) (name rest : list byte) (b : Z) :
  (1 <= List.length name <= 255)%nat -> 0 <= b < 2 ^ 16 ->
  file t = kernel_frame name b ++ rest ->
  trace_next t =
  (0, None,
   {| file := rest; block_size := b; version := version t; new_kernel := 1;
      kernel_name := Some name; record := record t |}).
Proof.
  intros Hl Hb Hfile. unfold trace_next. rewrite Hfile. unfold kernel_frame.
  rewrite <- app_assoc.
  rewrite fread_app by (try discriminate; apply length_le_split).
  rewrite le_combine_split. change (Z.of_nat 8 * 8) with 64.
  assert (Hn : 0 <= Z.of_nat (List.length name) < 2 ^ 8) by lia.
  rewrite Z.mod_small by (now apply kernel_header_range).
  destruct (kernel_header_fields _ _ Hn Hb) as (F1 & F2 & F3).
  rewrite F1, F2, F3.
  change (Int.u8 0 =? 0) with true. cbv iota.
  rewrite IntFacts.u8_small by assumption. rewrite Nat2Z.id.
  rewrite fread_app by lia.
  rewrite IntFacts.u16_small by assumption.
  reflexivity.
Qed.

(** C4 (code defect).  A kernel name of length 0 is within the bound of 255
    bytes, yet its frame does not read back: [trace_write_kernel] emits the
    8-byte header (8 + 0 bytes, name length 0, block size 32) and then returns
    1 with "write error", because the [fwrite] of zero bytes returns 0; and
    [trace_next] on these 8 bytes returns 1 with "unable to read kernel name
    length", because the [fread] of zero bytes returns 0, so no kernel frame
    with name "" and block size 32 is delivered. *)
Theorem empty_kernel_name_does_not_read_back (t : trace_t) :
  trace_write_kernel {| written := []; room := 100 |} [] 32 =
  (1, Some "write error"%string,
   {| written := kernel_frame [] 32; room := 92 |}) /\
  List.length (kernel_frame [] 32) = (8 + 0)%nat /\
  trace_next (reader_at t (kernel_frame [] 32)) =
  (1, Some "unable to read kernel name length"%string,
   {| file := []; block_size := block_size t; version := version t;
      new_kernel := new_kernel t; kernel_name := Some [];
      record := record t |}).
Proof.
  split; [|split].
  - vm_compute. reflexivity.
  - reflexivity.
  - vm_compute. reflexivity.
Qed.

End Reading.

(** For names of 1 to 255 bytes the frame is as the specification says and
    reads back. *)
Lemma kernel_frame_round_trip {M : RecordMacros}
  (f : wFILE) (t : trace_t) (name rest : list byte) (b : Z) :
  strlen name = List.length name ->
  (1 <= List.length name <= 255)%nat -> 0 <= b < 2 ^ 16 ->
  (8 + List.length name <= room f)%nat ->
  trace_write_kernel f name b =
  (0, None, {| written := written f ++ kernel_frame name b;
               room := room f - (8 + List.length name) |}) /\
  List.length (kernel_frame name b) = (8 + List.length name)%nat /\
  trace_next (reader_at t (kernel_frame name b ++ rest)) =
  (0, None,
   {| file := rest; block_size := b; version := version t; new_kernel := 1;
      kernel_name := Some name; record := record t |}).
Proof.
  intros Hnul Hl Hb Hroom.
  assert (E : (List.length name mod 256 = List.length name)%nat)
    by (apply Nat.mod_small; lia).
  split; [|split].
  - rewrite trace_write_kernel_emits by (rewrite ?E; assumption).
    rewrite E. rewrite firstn_all.
    destruct (Nat.eqb_spec (List.length name) 0); [lia|reflexivity].
  - unfold kernel_frame. rewrite length_app, length_le_split. reflexivity.
  - now apply (trace_next_kernel_frame (reader_at t _)).
Qed.

(** C10.  With an empty name [trace_write_kernel] always returns 1 with the
    error "write error", whatever the block size (a [uint16_t]); and when the
    stream accepts the 8 bytes of the frame header, they are in the file by
    the time the error is reported: the file has grown by exactly the header
    of a kernel frame with name length 0 and this block size, that is by the
    eight bytes of [block_size << 32], lowest byte first. *)
Theorem trace_write_kernel_empty_name (f : wFILE) (b : Z) (Hb : 0 <= b < 2 ^ 16) :
  exists f',
    trace_write_kernel f [] b = (1, Some "write error"%string, f') /\
    ((8 <= room f)%nat ->
     written f' = written f ++ kernel_frame [] b /\
     kernel_frame [] b = le_split 8 (Z.shiftl b 32) /\
     List.length (kernel_frame [] b) = 8%nat /\
     Z.land (Z.shiftr (le_combine (kernel_frame [] b)) 48) 255 = 0 /\
     Z.land (Z.shiftr (le_combine (kernel_frame [] b)) 32) 65535 = b /\
     room f' = (room f - 8)%nat).
Proof.
  assert (Hk : kernel_frame [] b = le_split 8 (Z.shiftl b 32)).
  { unfold kernel_frame, kernel_header. cbn [List.length Z.of_nat].
    rewrite Z.shiftl_0_l, Z.lor_0_l. apply app_nil_r. }
  assert (Hh : Int.u64 (Z.lor (Int.u64 (Z.shiftl 0 48)) (Int.u64 (Z.shiftl b 32)))
               = Z.shiftl b 32).
  { rewrite (written_header 0 b) by lia. unfold kernel_header.
    now rewrite Z.shiftl_0_l, Z.lor_0_l. }
  unfold trace_write_kernel. cbn [strlen Z.of_nat].
  change (Int.u8 (Z.land 0 255)) with 0. cbn [Z.to_nat]. rewrite Hh.
  destruct (Nat.le_gt_cases 8 (room f)) as [L|L].
  - rewrite fwrite_ok by (try discriminate; assumption).
    rewrite fwrite_zero. eexists. split; [reflexivity|]. intros _.
    cbn [written room].
    rewrite firstn_all2 by (rewrite length_le_split; lia).
    rewrite Hk. split; [reflexivity|]. split; [reflexivity|].
    split; [apply length_le_split|].
    rewrite le_combine_split. change (Z.of_nat 8 * 8) with 64.
    assert (E : Z.shiftl b 32 = kernel_header 0 b)
      by (unfold kernel_header; now rewrite Z.shiftl_0_l, Z.lor_0_l).
    rewrite E. rewrite Z.mod_small by (apply kernel_header_range; lia).
    destruct (kernel_header_fields 0 b ltac:(lia) Hb) as (_ & F2 & F3).
    split; [exact F2|]. split; [exact F3|reflexivity].
  - rewrite fwrite_full by (try discriminate; assumption).
    eexists. split; [reflexivity|]. intros L'. lia.
Qed.

Lemma trace_write_kernel_empty_name_witness :
  exists f',
    trace_write_kernel {| written := [Byte.x2a]; room := 100 |} [] 32
    = (1, Some "write error"%string, f') /\
    ((8 <= 100)%nat ->
     written f' = [Byte.x2a] ++ kernel_frame [] 32 /\
     kernel_frame [] 32 = le_split 8 (Z.shiftl 32 32) /\
     List.length (kernel_frame [] 32) = 8%nat /\
     Z.land (Z.shiftr (le_combine (kernel_frame [] 32)) 48) 255 = 0 /\
     Z.land (Z.shiftr (le_combine (kernel_frame [] 32)) 32) 65535 = 32 /\
     room f' = (100 - 8)%nat).
Proof.
  apply (trace_write_kernel_empty_name {| written := [Byte.x2a]; room := 100 |} 32).
  lia.
Defined.

(** C7 (as amended).  A kernel name longer than 255 bytes (a C string: no NUL
    before its end, so that [strlen] is its length) is neither refused
    nor split over several frames: [trace_write_kernel] masks the length to
    8 bits and emits one frame, whose length field is the length modulo 256
    and which holds only that many leading bytes of the name; it reports
    success whenever that masked length is not zero. *)
Theorem trace_write_kernel_masks_name_length
  (f : wFILE) (name : list byte) (b : Z)
  (Hnul : strlen name = List.length name) (Hb : 0 <= b < 2 ^ 16)
  (Hroom : (8 + List.length name mod 256 <= room f)%nat) :
  let nl := (List.length name mod 256)%nat in
  exists ret err f',
    trace_write_kernel f name b = (ret, err, f') /\
    written f' = written f ++ kernel_frame (firstn nl name) b /\
    List.length (kernel_frame (firstn nl name) b) = (8 + nl)%nat /\
    (nl <> 0%nat -> ret = 0 /\ err = None).
Proof.
  intros nl. rewrite trace_write_kernel_emits by assumption. fold nl.
  do 3 eexists. split; [reflexivity|]. cbn [written].
  split; [reflexivity|]. split.
  - unfold kernel_frame. rewrite length_app, length_le_split, length_firstn.
    pose proof (Nat.Div0.mod_le (List.length name) 256). fold nl in H. lia.
  - intros Hz. destruct (Nat.eqb_spec nl 0); [contradiction|now split].
Qed.

End KernelFrameFacts.

(** ** The layout satisfies what the codec needs *)

Module SpecLayoutFacts.
Import TraceIO SpecLayout.

Lemma in_bits_spec (w v : Z) : in_bits w v = true <-> 0 <= v < 2 ^ w.
Proof. unfold in_bits. rewrite andb_true_iff, Z.leb_le, Z.ltb_lt. reflexivity. Qed.

Lemma fits_spec a t s w x y z c sz :
  fits a t s w x y z c sz = true <->
  0 <= a < 2 ^ 8 /\ 0 <= t < 2 ^ 8 /\ 0 <= s < 2 ^ 8 /\ 0 <= w < 2 ^ 24 /\
  0 <= x < 2 ^ 32 /\ 0 <= y < 2 ^ 16 /\ 0 <= z < 2 ^ 16 /\
  0 <= c < 2 ^ 64 /\ 0 <= sz < 2 ^ 16.
Proof.
  unfold fits. rewrite !andb_true_iff, !in_bits_spec. tauto.
Qed.

(** A value below [2 ^ w] is its own low [w] bits. *)
Ltac low_bits H :=
  match type of H with
  | 0 <= ?v < 2 ^ ?w => rewrite <- (Z.mod_small v (2 ^ w)) by exact H
  end.

Lemma desc_fields a t s w sz :
  0 <= a < 2 ^ 8 -> 0 <= t < 2 ^ 8 -> 0 <= s < 2 ^ 8 -> 0 <= w < 2 ^ 24 ->
  0 <= sz < 2 ^ 16 ->
  forall x y z c,
  let h := set_init a t s w x y z c sz in
  get_alen h = a /\ get_type h = t /\ get_smid h = s /\ get_size h = sz /\
  get_warp h = w.
Proof.
  intros Ha Ht Hs Hw Hsz x y z c. cbn zeta.
  unfold get_alen, get_type, get_smid, get_size, get_warp, set_init.
  cbn [Common.desc].
  low_bits Ha. low_bits Ht. low_bits Hs. low_bits Hw. low_bits Hsz.
  change 255 with (Z.ones 8). change 65535 with (Z.ones 16).
  change 16777215 with (Z.ones 24).
  repeat split; bits.
Qed.

Lemma cta_fields x y z :
  0 <= x < 2 ^ 32 -> 0 <= y < 2 ^ 16 -> 0 <= z < 2 ^ 16 ->
  forall a t s w c sz,
  let h := set_init a t s w x y z c sz in
  get_ctax h = x /\ get_ctay h = y /\ get_ctaz h = z.
Proof.
  intros Hx Hy Hz a t s w c sz. cbn zeta.
  unfold get_ctax, get_ctay, get_ctaz, set_init. cbn [Common.cta].
  low_bits Hx. low_bits Hy. low_bits Hz.
  change 65535 with (Z.ones 16).
  repeat split; bits.
Qed.

Lemma set_init_range a t s w x y z c sz :
  let h := set_init a t s w x y z c sz in
  0 <= Common.desc h < 2 ^ 64 /\ 0 <= Common.addr h < 2 ^ 64 /\
  0 <= Common.cta h < 2 ^ 64.
Proof.
  cbn zeta. unfold set_init. cbn [Common.desc Common.addr Common.cta].
  change 255 with (Z.ones 8). change 65535 with (Z.ones 16).
  change 16777215 with (Z.ones 24).
  repeat split.
  all: try (apply Z.mod_pos_bound; lia).
  all: match goal with
       | |- 0 <= ?v => replace v with (v mod 2 ^ 64) by (symmetry; bits)
       | |- ?v < _ => replace v with (v mod 2 ^ 64) by (symmetry; bits)
       end; apply Z.mod_pos_bound; lia.
Qed.

Lemma macros_ok : RecordMacrosOk macros.
Proof.
  constructor; cbn [RECORD_FITS RECORD_SET_INIT RECORD_GET_ALEN RECORD_GET_TYPE
    RECORD_GET_SMID RECORD_GET_WARP RECORD_GET_CTAX RECORD_GET_CTAY RECORD_GET_CTAZ
    RECORD_GET_CLOCK RECORD_GET_SIZE macros].
  - intros a t s w x y z c sz H. apply fits_spec in H. lia.
  - intros. apply set_init_range.
  - intros a t s w x y z c sz H. apply fits_spec in H.
    destruct H as (Ha & Ht & Hs & Hw & Hx & Hy & Hz & Hc & Hsz).
    now destruct (desc_fields a t s w sz Ha Ht Hs Hw Hsz x y z c) as (E & _).
  - intros a t s w x y z c sz H. apply fits_spec in H.
    destruct H as (Ha & Ht & Hs & Hw & Hx & Hy & Hz & Hc & Hsz).
    destruct (desc_fields a t s w sz Ha Ht Hs Hw Hsz x y z c)
      as (E1 & E2 & E3 & E4 & E5).
    destruct (cta_fields x y z Hx Hy Hz a t s w c sz) as (E6 & E7 & E8).
    cbn zeta in *. repeat split; try assumption.
    unfold get_clock, set_init. cbn [Common.addr].
    rewrite Z.land_ones by lia. now apply Z.mod_small.
Qed.

End SpecLayoutFacts.

(** ** The record codec *)

Module CodecFacts.
Import Stdio TraceIO WireFormat StdioFacts.

(** *** The meta word of an address unit *)

Lemma shiftl_8 (o : Z) : Z.shiftl o 8 = o * 256.
Proof. now rewrite Z.shiftl_mul_pow2 by lia. Qed.

(** The meta word is a function of the low 24 bits of the offset only. *)
Lemma pack_meta_low_bits (o c : Z) : pack_meta (o + 2 ^ 24) c = pack_meta o c.
Proof.
  unfold pack_meta. f_equal. rewrite !shiftl_8.
  unfold Int.s32, Int.swrap. change (32 - 1) with 31.
  replace ((o + 2 ^ 24) * 256 + 2 ^ 31) with (o * 256 + 2 ^ 31 + 1 * 2 ^ 32) by lia.
  now rewrite Z.mod_add by lia.
Qed.

Lemma pack_meta_value (o c : Z) :
  - 2 ^ 23 <= o < 2 ^ 23 -> pack_meta o c = o * 256 + c mod 256.
Proof.
  intros Ho. unfold pack_meta.
  rewrite IntFacts.s32_small by (rewrite shiftl_8; lia).
  change 255 with (Z.ones 8). rewrite Z.land_ones by lia.
  rewrite Z.or_to_plus.
  - now rewrite shiftl_8.
  - bits.
Qed.

(** Offset and count read back from the stored meta word. *)
Lemma meta_round_trip (o c : Z) :
  - 2 ^ 23 <= o < 2 ^ 23 -> - 2 ^ 7 <= c < 2 ^ 7 ->
  let m := Int.u64 (pack_meta o c) in
  Int.s32 (Z.shiftr m 8) = o /\ Int.s8 (Z.land m 255) = c.
Proof.
  intros Ho Hc. cbn zeta. rewrite pack_meta_value by assumption.
  rewrite Z.shiftr_div_pow2 by lia.
  change 255 with (Z.ones 8). rewrite Z.land_ones by lia.
  unfold Int.u64, Int.s32, Int.s8, Int.wrap, Int.swrap.
  change (32 - 1) with 31. change (8 - 1) with 7.
  change (2 ^ 8) with 256. change (2 ^ 7) with 128.
  change (2 ^ 64) with 18446744073709551616.
  change (2 ^ 32) with 4294967296. change (2 ^ 31) with 2147483648.
  change (2 ^ 23) with 8388608 in Ho. change (2 ^ 7) with 128 in Hc.
  split; Z.div_mod_to_equations; lia.
Qed.

(** *** Buffers as lists of words *)

Lemma map_nth_seq {A} (l : list A) (d : A) :
  map (fun i => nth i l d) (seq 0 (List.length l)) = l.
Proof.
  induction l as [|x l IH]; [reflexivity|].
  cbn [List.length seq map nth]. f_equal.
  rewrite <- seq_shift, map_map. exact IH.
Qed.

Lemma flat_map_nth_seq {A B} (F : A -> list B) (l : list A) (d : A) :
  flat_map (fun i => F (nth i l d)) (seq 0 (List.length l)) = flat_map F l.
Proof.
  rewrite flat_map_concat_map.
  rewrite <- (map_map (fun i => nth i l d) F).
  now rewrite map_nth_seq, <- flat_map_concat_map.
Qed.

Lemma nth_pairs {A} (f g : A -> Z) (l : list A) (d : A) : forall i,
  (i < List.length l)%nat ->
  nth (2 * i) (flat_map (fun x => [f x; g x]) l) 0 = f (nth i l d) /\
  nth (1 + 2 * i) (flat_map (fun x => [f x; g x]) l) 0 = g (nth i l d).
Proof.
  induction l as [|x l IH]; intros i Hi; [cbn in Hi; lia|].
  destruct i as [|i].
  - now split.
  - cbn [List.length] in Hi.
    replace (2 * S i)%nat with (S (S (2 * i))) by lia.
    replace (1 + S (S (2 * i)))%nat with (S (S (1 + 2 * i))) by lia.
    cbn [flat_map app nth]. apply IH. lia.
Qed.

Lemma firstn_word (w : Z) (rest : list byte) :
  firstn 8 (le_split 8 w ++ rest) = le_split 8 w.
Proof.
  pose proof (firstn_length_app (le_split 8 w) rest) as E.
  now rewrite length_le_split in E.
Qed.

Lemma skipn_word (w : Z) (rest : list byte) :
  skipn 8 (le_split 8 w ++ rest) = rest.
Proof.
  pose proof (skipn_length_app (le_split 8 w) rest) as E.
  now rewrite length_le_split in E.
Qed.

Lemma words_of_bytes_of_words (ws : list Z) : forall rest,
  words_of_bytes (List.length ws) (bytes_of_words ws ++ rest) = map Int.u64 ws.
Proof.
  induction ws as [|w ws IH]; intros rest; [reflexivity|].
  unfold bytes_of_words. cbn [flat_map List.length words_of_bytes map].
  rewrite <- app_assoc.
  rewrite firstn_word, skipn_word.
  rewrite le_combine_split. f_equal. apply IH.
Qed.

Lemma length_bytes_of_words (ws : list Z) :
  List.length (bytes_of_words ws) = (8 * List.length ws)%nat.
Proof.
  induction ws as [|w ws IH]; [reflexivity|].
  unfold bytes_of_words in *. cbn [flat_map List.length].
  rewrite length_app, length_le_split, IH. lia.
Qed.

Lemma map_u64_id (ws : list Z) :
  Forall (fun w => 0 <= w < 2 ^ 64) ws -> map Int.u64 ws = ws.
Proof.
  induction 1 as [|w ws Hw _ IH]; [reflexivity|].
  cbn [map]. now rewrite IntFacts.u64_small, IH.
Qed.

Lemma u64_range (z : Z) : 0 <= Int.u64 z < 2 ^ 64.
Proof. apply IntFacts.wrap_range. lia. Qed.

Lemma length_flat_map_pairs {A B} (F : A -> list B) (l : list A) :
  (forall x, List.length (F x) = 2%nat) ->
  List.length (flat_map F l) = (2 * List.length l)%nat.
Proof.
  intros HF. induction l as [|x l IH]; [reflexivity|].
  cbn [flat_map List.length]. rewrite length_app, HF, IH. lia.
Qed.

(** *** Packing and unpacking, for every layout of the header macros *)

Section WithMacros.
Context {M : RecordMacros}.

Lemma trace_pack_units (r : trace_record_t) :
  List.length (addr_unit r) = Z.to_nat (addr_len r) ->
  __trace_pack r =
  (let h := RECORD_SET_INIT (addr_len r) (type r) (smid r) (warp r) (ctaid_x r)
              (ctaid_y r) (ctaid_z r) (clock r) (size r) in
   [Common.desc h; Common.addr h; Common.cta h])
  ++ flat_map packed_unit (addr_unit r).
Proof.
  intros Hl. unfold __trace_pack. cbn zeta. f_equal.
  rewrite <- Hl. apply (flat_map_nth_seq packed_unit).
Qed.

Lemma length_trace_pack (r : trace_record_t) :
  List.length (__trace_pack r) = (3 + 2 * Z.to_nat (addr_len r))%nat.
Proof.
  unfold __trace_pack. cbn zeta. rewrite length_app.
  rewrite length_flat_map_pairs by reflexivity.
  rewrite length_seq. reflexivity.
Qed.

(** The offset of a record does not reach the buffer beyond its low 24 bits:
    two records that differ only there have the same packed form. *)
Lemma trace_pack_offset_low_bits (x y z c w sz d ty al sm : Z)
  (us vs : list trace_record_addr_t) (u : trace_record_addr_t) :
  List.length (us ++ u :: vs) = Z.to_nat al ->
  let r o := {| ctaid_x := x; ctaid_y := y; ctaid_z := z; clock := c;
                warp := w; size := sz; debug := d; type := ty;
                addr_len := al; smid := sm;
                addr_unit := us ++ {| addr := addr u; offset := o;
                                      count := count u |} :: vs |} in
  __trace_pack (r (offset u + 2 ^ 24)) = __trace_pack (r (offset u)).
Proof.
  intros Hl r.
  rewrite !trace_pack_units
    by (unfold r; cbn [addr_unit addr_len]; rewrite <- Hl, !length_app; reflexivity).
  unfold r. cbn [addr_len type smid warp ctaid_x ctaid_y ctaid_z clock size addr_unit].
  f_equal. rewrite !flat_map_app. f_equal. cbn [flat_map]. f_equal.
  unfold packed_unit. cbn [addr offset count].
  now rewrite pack_meta_low_bits.
Qed.

Context {Mok : RecordMacrosOk M}.

Lemma header_of_trace_pack (r : trace_record_t) :
  header_of (__trace_pack r) =
  RECORD_SET_INIT (addr_len r) (type r) (smid r) (warp r) (ctaid_x r)
    (ctaid_y r) (ctaid_z r) (clock r) (size r).
Proof.
  unfold header_of, __trace_pack. cbn zeta. cbn [app nth].
  now destruct (RECORD_SET_INIT _ _ _ _ _ _ _ _ _).
Qed.

Lemma unpack_unit (u : trace_record_addr_t) :
  unit_fits u ->
  {| addr := Int.u64 (Int.u64 (addr u));
     offset := Int.s32 (Z.shiftr (Int.u64 (pack_meta (offset u) (count u))) 8);
     count := Int.s8 (Z.land (Int.u64 (pack_meta (offset u) (count u))) 255) |} = u.
Proof.
  intros (Ha & Ho & Hc).
  destruct (meta_round_trip _ _ Ho Hc) as [E1 E2]. rewrite E1, E2.
  rewrite !(IntFacts.u64_small (addr u)) by assumption. now destruct u.
Qed.

(** Unpacking a packed record restores every field but [debug], which keeps
    the value it has in the destination. *)
Lemma trace_unpack_pack_fits (r dst : trace_record_t) :
  record_fits r -> __trace_unpack (__trace_pack r) dst = with_debug r (debug dst).
Proof.
  intros (H1 & Hfit & Hlen & Hunits).
  destruct (fits_types _ _ _ _ _ _ _ _ _ Hfit)
    as (Ra & Rt & Rs & Rw & Rx & Ry & Rz & Rc & Rsz).
  pose proof (get_set_init _ _ _ _ _ _ _ _ _ Hfit) as G. cbn zeta in G.
  destruct G as (Ga & Gt & Gs & Gw & Gx & Gy & Gz & Gc & Gsz).
  unfold __trace_unpack. cbn zeta. rewrite header_of_trace_pack.
  rewrite Ga, Gt, Gs, Gw, Gx, Gy, Gz, Gc, Gsz.
  rewrite !IntFacts.u8_small, !IntFacts.u16_small, !IntFacts.u32_small,
    !IntFacts.u64_small by assumption.
  unfold with_debug. f_equal.
  rewrite <- Hlen. rewrite <- (map_nth_seq (addr_unit r) default_unit) at 2.
  apply map_ext_in. intros i Hi. apply in_seq in Hi.
  unfold RECORD_GET_OFFSET, RECORD_GET_COUNT, RECORD_ADDR, RECORD_ADDR_META.
  rewrite trace_pack_units by assumption. cbn zeta.
  replace (3 + 2 * i)%nat with (S (S (S (2 * i)))) by lia.
  replace (4 + 2 * i)%nat with (S (S (S (1 + 2 * i)))) by lia.
  cbn [app nth].
  destruct (nth_pairs (fun u => Int.u64 (addr u))
              (fun u => Int.u64 (pack_meta (offset u) (count u)))
              (addr_unit r) default_unit i ltac:(lia)) as [Ea Em].
  unfold packed_unit. rewrite Ea, Em.
  apply unpack_unit.
  rewrite Forall_forall in Hunits. apply Hunits. apply nth_In. lia.
Qed.

(** C1 (as amended).  For every layout of the header macros that reads back
    what it stores, and every record with at least one address unit whose
    header fields fit the layout and whose address units hold a 64-bit
    address, an offset of 24 bits and a count of 8 bits (both signed),
    unpacking the packed record restores every field except [debug], which
    is not part of the wire form and keeps the value it has in the
    destination; so the record itself is restored exactly when the
    destination already holds its [debug] value. *)
Theorem trace_unpack_pack (r dst : trace_record_t) (Hfit : record_fits r) :
  __trace_unpack (__trace_pack r) dst = with_debug r (debug dst) /\
  (debug dst = debug r -> __trace_unpack (__trace_pack r) dst = r).
Proof.
  split.
  - now apply trace_unpack_pack_fits.
  - intros E. rewrite trace_unpack_pack_fits by assumption.
    rewrite E. now destruct r.
Qed.

(** *** Record frames in a file *)

Lemma trace_pack_range (r : trace_record_t) :
  Forall (fun w => 0 <= w < 2 ^ 64) (__trace_pack r).
Proof.
  unfold __trace_pack. cbn zeta. apply Forall_app. split.
  - destruct (set_init_words (addr_len r) (type r) (smid r) (warp r) (ctaid_x r)
                (ctaid_y r) (ctaid_z r) (clock r) (size r)) as (R0 & R1 & R2).
    apply Forall_cons; [exact R0|].
    apply Forall_cons; [exact R1|].
    apply Forall_cons; [exact R2|apply Forall_nil].
  - apply Forall_forall. intros w Hw. apply in_flat_map in Hw.
    destruct Hw as (i & _ & [<-|[<-|[]]]); apply u64_range.
Qed.

Lemma record_frame_length (r : trace_record_t) :
  0 <= addr_len r ->
  List.length (record_frame r) = Z.to_nat (RECORD_RAW_SIZE (addr_len r)).
Proof.
  intros H. unfold record_frame, RECORD_RAW_SIZE.
  rewrite length_bytes_of_words, length_trace_pack. lia.
Qed.

Lemma trace_write_record_ok (f : wFILE) (r : trace_record_t) (e : error) :
  0 <= addr_len r -> (List.length (record_frame r) <= room f)%nat ->
  trace_write_record f r e =
  (0, e, {| written := written f ++ record_frame r;
            room := room f - List.length (record_frame r) |}).
Proof.
  intros H Hroom. unfold trace_write_record. cbn zeta.
  pose proof (record_frame_length r H) as L. rewrite <- L.
  rewrite fwrite_ok.
  - fold (record_frame r). now rewrite firstn_all.
  - rewrite L. unfold RECORD_RAW_SIZE. lia.
  - assumption.
Qed.

(** [trace_next] on a record frame. *)
Lemma trace_next_record_frame (t : trace_t) (r : trace_record_t) (rest : list byte) :
  record_fits r -> file t = record_frame r ++ rest ->
  trace_next t =
  (0, None,
   {| file := rest; block_size := block_size t; version := version t;
      new_kernel := 0; kernel_name := kernel_name t;
      record := with_debug r (debug (record t)) |}).
Proof.
  intros Hr Hfile. pose proof Hr as (H1 & Hfit & Hlen & Hunits).
  destruct (fits_types _ _ _ _ _ _ _ _ _ Hfit) as (Ra & _).
  pose proof (trace_pack_range r) as Hrange.
  pose proof (length_trace_pack r) as Hpl.
  pose proof (header_of_trace_pack r) as Hh.
  pose proof (trace_unpack_pack_fits r (record t) Hr) as Hup.
  pose proof (set_init_tag _ _ _ _ _ _ _ _ _ Hfit) as Htag.
  rewrite <- Hh in Htag.
  unfold trace_next. rewrite Hfile. unfold record_frame.
  destruct (__trace_pack r) as [|w0 tail] eqn:Ep; [cbn in Hpl; lia|].
  cbn [List.length] in Hpl. inversion Hrange as [|? ? Rw0 Rtail]; subst.
  unfold header_of in Htag. cbn [nth Common.desc] in Htag.
  unfold bytes_of_words. cbn [flat_map]. fold (bytes_of_words tail).
  rewrite <- app_assoc.
  rewrite fread_app by (try discriminate; apply length_le_split).
  rewrite le_combine_split. change (Z.of_nat 8 * 8) with 64.
  rewrite Z.mod_small by assumption. rewrite Htag.
  rewrite IntFacts.u8_small by assumption.
  destruct (Z.eqb_spec (addr_len r) 0) as [E|_]; [lia|].
  assert (Hbody : List.length (bytes_of_words tail)
                  = Z.to_nat (RECORD_RAW_SIZE (addr_len r) - 8)).
  { rewrite length_bytes_of_words. unfold RECORD_RAW_SIZE. lia. }
  rewrite fread_app; [|unfold RECORD_RAW_SIZE; lia|assumption].
  assert (Hn : (Z.to_nat (RECORD_RAW_SIZE (addr_len r) - 8) / 8 = List.length tail)%nat).
  { rewrite <- Hbody, length_bytes_of_words, Nat.mul_comm.
    apply Nat.div_mul. discriminate. }
  rewrite Hn. rewrite <- (app_nil_r (bytes_of_words tail)).
  rewrite words_of_bytes_of_words, map_u64_id by assumption.
  rewrite Hup. reflexivity.
Qed.

(** [trace_next] at the end of the file: return value 1 and no error. *)
Lemma trace_next_eof (t : trace_t) :
  file t = [] -> trace_next t = (1, None, reader_at t []).
Proof. intros E. unfold trace_next. rewrite E. reflexivity. Qed.

End WithMacros.

End CodecFacts.

(** ** Whole files *)

Module StreamFacts.
Import Stdio TraceIO WireFormat Samples StdioFacts.

Lemma trace_open_v3 (m : trace_t) (rest : list byte) (e : error) :
  trace_open m (v3 ++ rest) e =
  (Some {| file := rest; block_size := block_size m; version := 3;
           new_kernel := 0; kernel_name := None; record := record m |}, e).
Proof.
  unfold trace_open. rewrite fread_app by (try discriminate; reflexivity).
  reflexivity.
Qed.

Lemma record_3_fits : record_fits (M := SpecLayout.macros) record_3.
Proof.
  unfold record_fits. cbn. repeat split; try lia.
  repeat apply Forall_cons; try apply Forall_nil; unfold unit_fits; cbn; lia.
Qed.

Section WithMacros.
Context {M : RecordMacros} {Mok : RecordMacrosOk M}.

(** C3 (as amended).  On a new file with room for the 91 bytes, writing the
    header of version 3, the kernel frame ("k", 32) and one record [r] with
    three address units that fits the wire form succeeds; and reopening what
    was written yields version 3, then a kernel frame with name "k" and block
    size 32, then one record that equals [r] in every field except [debug]
    (which is not stored in the file and keeps the value of the reader's
    buffer), then the end of the file: return value 1 with no error. *)
Theorem write_then_read_back
  (f0 : wFILE) (m : trace_t) (e : error) (r : trace_record_t)
  (Hnew : written f0 = []) (Hroom : (91 <= room f0)%nat)
  (H3 : addr_len r = 3) (Hfit : record_fits r) :
  exists f1 f2 f3 t0 t1 t2 t3,
    trace_write_header f0 3 = (0, None, f1) /\
    trace_write_kernel f1 name_k 32 = (0, None, f2) /\
    trace_write_record f2 r None = (0, None, f3) /\
    trace_open m (written f3) e = (Some t0, e) /\ version t0 = 3 /\
    trace_next t0 = (0, None, t1) /\
    new_kernel t1 = 1 /\ kernel_name t1 = Some name_k /\ block_size t1 = 32 /\
    trace_next t1 = (0, None, t2) /\
    new_kernel t2 = 0 /\ record t2 = with_debug r (debug (record m)) /\
    trace_next t2 = (1, None, t3) /\ file t3 = [].
Proof.
  pose proof (CodecFacts.record_frame_length r ltac:(lia)) as Lr.
  rewrite H3 in Lr. change (Z.to_nat (RECORD_RAW_SIZE 3)) with 72%nat in Lr.
  destruct (KernelFrameFacts.kernel_frame_round_trip
              {| written := written f0 ++ v3; room := room f0 - 10 |}
              m name_k [] 32 eq_refl ltac:(cbn; lia) ltac:(lia)
              ltac:(cbn [room List.length name_k]; lia)) as (Wk & Lk & _).
  cbn [written room] in Wk.
  do 7 eexists.
  split; [apply HeaderFacts.trace_write_header_3; lia|].
  split; [exact Wk|].
  split; [apply CodecFacts.trace_write_record_ok; [lia|cbn [room]; rewrite Lr; cbn; lia]|].
  cbn [written]. rewrite Hnew. cbn [app]. rewrite <- !app_assoc.
  split; [apply trace_open_v3|].
  split; [reflexivity|].
  split; [apply (KernelFrameFacts.trace_next_kernel_frame
                   _ name_k (record_frame r) 32);
          [cbn; lia|lia|reflexivity]|].
  split; [reflexivity|]. split; [reflexivity|]. split; [reflexivity|].
  split; [apply (CodecFacts.trace_next_record_frame _ r []);
          [assumption|cbn [file]; now rewrite app_nil_r]|].
  split; [reflexivity|]. split; [reflexivity|].
  split; [now apply CodecFacts.trace_next_eof|reflexivity].
Qed.

(** C6 (code defect).  The file made of the version-3 header and the kernel
    frame ("k", 32) is what the writer produces; without its last three bytes
    it still opens, six bytes of the kernel frame are left, and [trace_next]
    answers with return value 1 and no error, which is its answer at the end
    of an intact file: the damaged frame is reported as a clean end. *)
Theorem truncated_kernel_frame_reads_as_end_of_file (m : trace_t) (e : error) :
  let valid := v3 ++ kernel_frame name_k 32 in
  (exists f1 f2,
     trace_write_header {| written := []; room := 100 |} 3 = (0, None, f1) /\
     trace_write_kernel f1 name_k 32 = (0, None, f2) /\
     written f2 = valid) /\
  exists t0,
    trace_open m (truncate3 valid) e = (Some t0, e) /\
    version t0 = 3 /\ List.length (file t0) = 6%nat /\
    trace_next t0 = (1, None, reader_at t0 []) /\
    trace_next (reader_at t0 []) = (1, None, reader_at t0 []).
Proof.
  cbn zeta. split.
  - do 2 eexists. split; [|split]; vm_compute; reflexivity.
  - eexists. split; [|split; [|split; [|split]]].
    + vm_compute. reflexivity.
    + reflexivity.
    + reflexivity.
    + vm_compute. reflexivity.
    + vm_compute. reflexivity.
Qed.

(** The other truncations are detected: a record frame and a kernel frame
    with a name of at least three bytes keep their first eight bytes, and the
    read of what follows fails with an error. *)
Lemma truncate3_app (a b : list byte) :
  (3 <= List.length b)%nat -> truncate3 (a ++ b) = a ++ truncate3 b.
Proof.
  intros H. unfold truncate3. rewrite length_app, firstn_app.
  rewrite firstn_all2 by lia. f_equal. f_equal. lia.
Qed.

Lemma length_truncate3 (b : list byte) :
  List.length (truncate3 b) = (List.length b - 3)%nat.
Proof. unfold truncate3. rewrite length_firstn. lia. Qed.

Lemma truncated_record_frame_is_an_error (t : trace_t) (r : trace_record_t) :
  record_fits r -> file t = truncate3 (record_frame r) ->
  exists t', trace_next t = (1, Some "unable to read record"%string, t').
Proof.
  intros Hr Hfile. pose proof Hr as (H1 & Hfit & Hlen & Hunits).
  destruct (fits_types _ _ _ _ _ _ _ _ _ Hfit) as (Ra & _).
  pose proof (CodecFacts.trace_pack_range r) as Hrange.
  pose proof (CodecFacts.length_trace_pack r) as Hpl.
  pose proof (set_init_tag _ _ _ _ _ _ _ _ _ Hfit) as Htag.
  rewrite <- (CodecFacts.header_of_trace_pack r) in Htag.
  unfold trace_next. rewrite Hfile. unfold record_frame.
  destruct (__trace_pack r) as [|w0 tail] eqn:Ep; [cbn in Hpl; lia|].
  cbn [List.length] in Hpl. inversion Hrange as [|? ? Rw0 Rtail]; subst.
  unfold header_of in Htag. cbn [nth Common.desc] in Htag.
  unfold bytes_of_words. cbn [flat_map]. fold (bytes_of_words tail).
  assert (Lb : List.length (bytes_of_words tail) = (8 * List.length tail)%nat)
    by apply CodecFacts.length_bytes_of_words.
  rewrite truncate3_app by lia.
  rewrite fread_app by (try discriminate; apply length_le_split).
  rewrite le_combine_split. change (Z.of_nat 8 * 8) with 64.
  rewrite Z.mod_small by assumption. rewrite Htag.
  rewrite IntFacts.u8_small by assumption.
  destruct (Z.eqb_spec (addr_len r) 0) as [E|_]; [lia|].
  rewrite fread_short.
  - eexists. reflexivity.
  - rewrite length_truncate3, Lb. unfold RECORD_RAW_SIZE. lia.
Qed.

Lemma truncated_kernel_name_is_an_error (t : trace_t) (name : list byte) (b : Z) :
  (3 <= List.length name <= 255)%nat -> 0 <= b < 2 ^ 16 ->
  file t = truncate3 (kernel_frame name b) ->
  exists t',
    trace_next t = (1, Some "unable to read kernel name length"%string, t').
Proof.
  intros Hl Hb Hfile. unfold trace_next. rewrite Hfile. unfold kernel_frame.
  rewrite truncate3_app by lia.
  rewrite fread_app by (try discriminate; apply length_le_split).
  rewrite le_combine_split. change (Z.of_nat 8 * 8) with 64.
  assert (Hn : 0 <= Z.of_nat (List.length name) < 2 ^ 8) by lia.
  rewrite Z.mod_small by (now apply KernelFrameFacts.kernel_header_range).
  destruct (KernelFrameFacts.kernel_header_fields _ _ Hn Hb) as (F1 & F2 & F3).
  rewrite F1, F2, F3.
  change (Int.u8 0 =? 0) with true. cbv iota.
  rewrite IntFacts.u8_small by assumption. rewrite Nat2Z.id.
  rewrite fread_short by (rewrite length_truncate3; lia).
  eexists. reflexivity.
Qed.

End WithMacros.

(** *** The claims as first stated, at concrete records

    The closed statements below are about the layout [SpecLayout.macros]. *)

#[local] Existing Instance SpecLayout.macros.

(** C1 (as first stated) fails.  The record [record_3_offset (2 ^ 24)] has
    every field within its declared width, its second unit holding the
    [int32_t] offset 2^24; it does not come back from
    [__trace_unpack (__trace_pack _)], even into a destination that already
    equals it, because the offset is shifted within 32 bits and comes back
    as 0.  The record [record_3_debug] is within the declared widths too and
    does not come back either, because [debug] is neither packed nor
    unpacked. *)
Lemma trace_unpack_pack_not_inverse :
  (record_declared (record_3_offset (2 ^ 24)) /\
   __trace_unpack (M := SpecLayout.macros)
     (__trace_pack (record_3_offset (2 ^ 24))) (record_3_offset (2 ^ 24))
   <> record_3_offset (2 ^ 24)) /\
  (record_declared record_3_debug /\
   __trace_unpack (M := SpecLayout.macros)
     (__trace_pack record_3_debug) blank_record
   <> record_3_debug).
Proof.
  split; split.
  - unfold record_declared. cbn. repeat split; try lia.
    repeat apply Forall_cons; try apply Forall_nil; unfold unit_declared; cbn; lia.
  - intros E. apply (f_equal (fun r => map offset (addr_unit r))) in E.
    vm_compute in E. discriminate.
  - unfold record_declared. cbn. repeat split; try lia.
    repeat apply Forall_cons; try apply Forall_nil; unfold unit_declared; cbn; lia.
  - intros E. apply (f_equal debug) in E. vm_compute in E. discriminate.
Qed.

(** Whatever the header macros are, the packed form of a record with the
    offset 2^24 is that of the record with the offset 0: no unpacking can
    tell them apart. *)
Lemma trace_pack_not_injective (M : RecordMacros) :
  record_3_offset (2 ^ 24) <> record_3_offset 0 /\
  __trace_pack (record_3_offset (2 ^ 24)) = __trace_pack (record_3_offset 0).
Proof.
  split; [discriminate|].
  exact (CodecFacts.trace_pack_offset_low_bits 7 2 1 123456789 5 4 0 1 3 9
           [unit_a] [unit_c] {| addr := 4100; offset := 0; count := 2 |} eq_refl).
Qed.

Lemma trace_unpack_pack_witness :
  __trace_unpack (M := SpecLayout.macros) (__trace_pack record_3) blank_record
  = with_debug record_3 (debug blank_record) /\
  (debug blank_record = debug record_3 ->
   __trace_unpack (M := SpecLayout.macros) (__trace_pack record_3) blank_record
   = record_3).
Proof.
  apply (CodecFacts.trace_unpack_pack (M := SpecLayout.macros)
           (Mok := SpecLayoutFacts.macros_ok) record_3 blank_record).
  unfold record_fits. cbn. repeat split; try lia.
  repeat apply Forall_cons; try apply Forall_nil; unfold unit_fits; cbn; lia.
Defined.

(** C3 (as first stated) fails.  The record [record_3_debug] has three
    address units and instruction id 7 in [debug]; written after the header
    and the kernel frame and read back through a fresh reader, the file yields
    the kernel frame, then a record whose [debug] is 0 and which therefore is
    not the record written, then the end of the file. *)
Lemma read_back_record_differs :
  exists n1 n2 n3,
    read_three (M := SpecLayout.macros) blank_trace
      (written (write_trace (M := SpecLayout.macros) record_3_debug))
    = Some (n1, n2, n3) /\
    fst (fst n1) = 0 /\ new_kernel (snd n1) = 1 /\
    kernel_name (snd n1) = Some name_k /\ block_size (snd n1) = 32 /\
    fst (fst n2) = 0 /\ new_kernel (snd n2) = 0 /\
    debug (record (snd n2)) = 0 /\ debug record_3_debug = 7 /\
    record (snd n2) <> record_3_debug /\
    fst n3 = (1, None).
Proof.
  do 3 eexists. split; [vm_compute; reflexivity|].
  cbn [fst snd new_kernel kernel_name block_size record debug].
  repeat (split; [reflexivity|]).
  split; [|reflexivity].
  intros E. apply (f_equal debug) in E. vm_compute in E. discriminate.
Qed.

Lemma write_then_read_back_witness :
  exists f1 f2 f3 t0 t1 t2 t3,
    trace_write_header {| written := []; room := 4096 |} 3 = (0, None, f1) /\
    trace_write_kernel f1 name_k 32 = (0, None, f2) /\
    trace_write_record (M := SpecLayout.macros) f2 record_3 None = (0, None, f3) /\
    trace_open blank_trace (written f3) None = (Some t0, None) /\ version t0 = 3 /\
    trace_next (M := SpecLayout.macros) t0 = (0, None, t1) /\
    new_kernel t1 = 1 /\ kernel_name t1 = Some name_k /\ block_size t1 = 32 /\
    trace_next (M := SpecLayout.macros) t1 = (0, None, t2) /\
    new_kernel t2 = 0 /\
    record t2 = with_debug record_3 (debug (record blank_trace)) /\
    trace_next (M := SpecLayout.macros) t2 = (1, None, t3) /\ file t3 = [].
Proof.
  apply (write_then_read_back (M := SpecLayout.macros)
           (Mok := SpecLayoutFacts.macros_ok)
           {| written := []; room := 4096 |} blank_trace None record_3).
  - reflexivity.
  - cbn. lia.
  - reflexivity.
  - unfold record_fits. cbn. repeat split; try lia.
    repeat apply Forall_cons; try apply Forall_nil; unfold unit_fits; cbn; lia.
Defined.

(** C7 (as first stated) fails.  A kernel name of 257 letters exceeds the
    8-bit length field; [trace_write_kernel] reports success and the file
    holds a single frame, byte for byte the frame of the one-letter name "a":
    the length was masked to 1 and the name cut to its first byte. *)
Lemma long_kernel_name_is_cut_silently :
  List.length name_257 = 257%nat /\
  trace_write_kernel {| written := []; room := 1000 |} name_257 32 =
  (0, None, {| written := kernel_frame [Byte.x61] 32; room := 991 |}).
Proof. split; vm_compute; reflexivity. Qed.

Lemma trace_write_kernel_masks_name_length_witness :
  exists ret err f',
    trace_write_kernel {| written := []; room := 1000 |} name_257 32
    = (ret, err, f') /\
    written f' = [] ++ kernel_frame (firstn (257 mod 256) name_257) 32 /\
    List.length (kernel_frame (firstn (257 mod 256) name_257) 32)
    = (8 + 257 mod 256)%nat /\
    ((257 mod 256)%nat <> 0%nat -> ret = 0 /\ err = None).
Proof.
  apply (KernelFrameFacts.trace_write_kernel_masks_name_length
           {| written := []; room := 1000 |} name_257 32).
  - vm_compute. reflexivity.
  - lia.
  - vm_compute. lia.
Defined.

End StreamFacts.

(** ** More on the reader and the writer *)

Module ReaderWriterFacts.
Import Stdio TraceIO WireFormat RecordEdit StdioFacts.

(** The three outcomes of [fread(buf, size, 1, f)]. *)
Lemma fread_cases (n : nat) (f : rFILE) :
  (n <> 0%nat /\ (n <= List.length f)%nat /\
   fread n f = (1%nat, firstn n f, skipn n f)) \/
  (n = 0%nat /\ fread n f = (0%nat, [], f)) \/
  ((List.length f < n)%nat /\ fread n f = (0%nat, f, [])).
Proof.
  unfold fread. destruct (Nat.eqb_spec n 0) as [E|E].
  - right; left. now split.
  - destruct (Nat.leb_spec n (List.length f)) as [L|L].
    + left. now repeat split.
    + right; right. now split.
Qed.

(** A call of [trace_next] stays inside its buffers when the frame at the
    head of the stream announces at most 32 address units. *)
Lemma trace_next_in_bounds_units (t : trace_t) :
  (forall first f1, fread 8 (file t) = (1%nat, first, f1) ->
     Int.u8 (Z.land (Z.shiftr (le_combine first) 56) 255) <= 32) ->
  trace_next_in_bounds t = true.
Proof.
  intros H. unfold trace_next_in_bounds.
  destruct (fread 8 (file t)) as [[n first] f1].
  destruct n as [|[|n]]; try reflexivity.
  specialize (H _ _ eq_refl). cbn zeta.
  set (ch := Int.u8 _) in *.
  assert (R : 0 <= ch < 2 ^ 8) by (apply IntFacts.wrap_range; lia).
  destruct (ch =? 0); [reflexivity|].
  change reader_buf_size with 552. change record_block_units with 32.
  destruct (fread_cases (Z.to_nat (RECORD_RAW_SIZE ch - 8)) f1)
    as [(_ & L & E2)|[(_ & E2)|(L & E2)]]; rewrite E2.
  - rewrite length_firstn, Nat.min_l by assumption.
    apply andb_true_iff. split; apply Z.leb_le; unfold RECORD_RAW_SIZE; lia.
  - reflexivity.
  - apply Z.leb_le. unfold RECORD_RAW_SIZE in L. lia.
Qed.

Lemma trace_write_header_2 (f : wFILE) :
  (10 <= room f)%nat ->
  trace_write_header f 2 =
  (0, None, {| written := written f ++ v2; room := room f - 10 |}).
Proof.
  intros L. unfold trace_write_header. cbn [Z.eqb Pos.eqb].
  rewrite fwrite_ok by (try discriminate; assumption). reflexivity.
Qed.

Lemma trace_open_v2 (m : trace_t) (rest : list byte) (e : error) :
  trace_open m (v2 ++ rest) e =
  (Some {| file := rest; block_size := block_size m; version := 2;
           new_kernel := 0; kernel_name := None; record := record m |}, e).
Proof.
  unfold trace_open. rewrite fread_app by (try discriminate; reflexivity).
  reflexivity.
Qed.

(** X1.  For version 2 or 3 and a new file with room for ten bytes,
    [trace_write_header] returns 0, clears the error and writes ten bytes;
    [trace_open] on these bytes, whatever follows them, returns a stream of
    that same version positioned right after the ten bytes, with no kernel
    name and [new_kernel] = 0, and leaves [trace_last_error] as it was. *)
Theorem header_write_then_open
  (f : wFILE) (v : Z) (m : trace_t) (e : error) (rest : list byte)
  (Hv : v = 2 \/ v = 3) (Hnew : written f = []) (Hroom : (10 <= room f)%nat) :
  exists f',
    trace_write_header f v = (0, None, f') /\
    List.length (written f') = 10%nat /\
    trace_open m (written f' ++ rest) e =
    (Some {| file := rest; block_size := block_size m; version := v;
             new_kernel := 0; kernel_name := None; record := record m |}, e).
Proof.
  destruct Hv as [-> | ->].
  - rewrite trace_write_header_2 by assumption. eexists. split; [reflexivity|].
    cbn [written]. rewrite Hnew. cbn [app]. split; [reflexivity|].
    apply trace_open_v2.
  - rewrite HeaderFacts.trace_write_header_3 by assumption.
    eexists. split; [reflexivity|].
    cbn [written]. rewrite Hnew. cbn [app]. split; [reflexivity|].
    apply StreamFacts.trace_open_v3.
Qed.

Lemma header_write_then_open_witness :
  exists f',
    trace_write_header {| written := []; room := 10 |} 2 = (0, None, f') /\
    List.length (written f') = 10%nat /\
    trace_open Samples.blank_trace (written f' ++ [Byte.x00])
      (Some "stale"%string) =
    (Some {| file := [Byte.x00]; block_size := 0; version := 2;
             new_kernel := 0; kernel_name := None;
             record := Samples.blank_record |}, Some "stale"%string).
Proof.
  apply (header_write_then_open {| written := []; room := 10 |} 2
           Samples.blank_trace (Some "stale"%string) [Byte.x00]).
  - left. reflexivity.
  - reflexivity.
  - cbn. lia.
Defined.

Section WithMacros.
Context {M : RecordMacros}.

(** X2.  [trace_write_record] does not touch [trace_last_error] when it
    succeeds.  For a record of at most 32 address units (the capacity of the
    local buffer) that holds these units: the frame fits the buffer; when the
    stream accepts it the call returns 0, appends exactly the frame, of
    [RECORD_RAW_SIZE(addr_len)] bytes, and leaves the error of an earlier call
    in place; and however the write ends, the call returns 0 with the error
    as it was, or 1 with "write error". *)
Theorem trace_write_record_keeps_last_error
  (f : wFILE) (r : trace_record_t) (e : error)
  (Hlen : 0 <= addr_len r <= 32)
  (Hunits : List.length (addr_unit r) = Z.to_nat (addr_len r)) :
  let n := Z.to_nat (RECORD_RAW_SIZE (addr_len r)) in
  RECORD_RAW_SIZE (addr_len r) <= writer_buf_size /\
  ((n <= room f)%nat ->
   trace_write_record f r e
   = (0, e, {| written := written f ++ record_frame r; room := room f - n |}) /\
   List.length (record_frame r) = n) /\
  (exists ret e' f',
     trace_write_record f r e = (ret, e', f') /\
     ((ret = 0 /\ e' = e) \/ (ret = 1 /\ e' = Some "write error"%string))).
Proof.
  intros n.
  pose proof (CodecFacts.record_frame_length r ltac:(lia)) as L. fold n in L.
  split; [|split].
  - unfold writer_buf_size, TRACE_RECORD_SIZE, RECORD_RAW_SIZE. lia.
  - intros Hr. split; [|exact L].
    rewrite CodecFacts.trace_write_record_ok by (try assumption; lia).
    now rewrite L.
  - unfold trace_write_record. cbn zeta.
    destruct (fwrite _ _ f) as [[|k] f1]; do 3 eexists;
      (split; [reflexivity|]); [right|left]; split; reflexivity.
Qed.

(** X3.  On a stream where the call stays inside its buffers (the frame at
    the head is a kernel frame, or a record frame that announces at most 32
    address units, or a record frame that the end of the stream cuts off
    within the 552 bytes of the buffer), [trace_next] gives its end-of-file
    answer, return value 1 with [trace_last_error] = NULL, exactly when fewer
    than eight bytes are left in the stream. *)
Theorem trace_next_end_of_file_iff
  (t : trace_t) (Hin : trace_next_in_bounds t = true) :
  (fst (fst (trace_next t)) = 1 /\ snd (fst (trace_next t)) = None)
  <-> (List.length (file t) < 8)%nat.
Proof.
  unfold trace_next.
  destruct (fread_cases 8 (file t)) as [(_ & L & E)|[(Z8 & _)|(L & E)]];
    [|discriminate Z8|]; rewrite E.
  - split; [|lia]. intros H. exfalso. revert H.
    destruct (_ =? 0).
    + destruct (fread_cases (Z.to_nat (Int.u8 (Z.land (Z.shiftr
                  (le_combine (firstn 8 (file t))) 48) 255))) (skipn 8 (file t)))
        as [(_ & _ & E2)|[(_ & E2)|(_ & E2)]]; rewrite E2; cbn [fst snd];
        intros [H1 H2]; congruence.
    + destruct (fread_cases (Z.to_nat (RECORD_RAW_SIZE (Int.u8 (Z.land (Z.shiftr
                  (le_combine (firstn 8 (file t))) 56) 255)) - 8))
                  (skipn 8 (file t)))
        as [(_ & _ & E2)|[(_ & E2)|(_ & E2)]]; rewrite E2; cbn [fst snd];
        intros [H1 H2]; congruence.
  - split; [intros _; assumption|]. intros _. now split.
Qed.


End WithMacros.

Lemma trace_write_record_keeps_last_error_witness :
  let n := Z.to_nat (RECORD_RAW_SIZE 3) in
  RECORD_RAW_SIZE 3 <= writer_buf_size /\
  ((n <= 100)%nat ->
   trace_write_record (M := SpecLayout.macros) {| written := []; room := 100 |}
     Samples.record_3 (Some "stale"%string)
   = (0, Some "stale"%string,
      {| written := [] ++ record_frame (M := SpecLayout.macros) Samples.record_3;
         room := 100 - n |}) /\
   List.length (record_frame (M := SpecLayout.macros) Samples.record_3) = n) /\
  (exists ret e' f',
     trace_write_record (M := SpecLayout.macros) {| written := []; room := 100 |}
       Samples.record_3 (Some "stale"%string) = (ret, e', f') /\
     ((ret = 0 /\ e' = Some "stale"%string) \/
      (ret = 1 /\ e' = Some "write error"%string))).
Proof.
  apply (trace_write_record_keeps_last_error (M := SpecLayout.macros)
           {| written := []; room := 100 |} Samples.record_3 (Some "stale"%string)).
  - cbn. lia.
  - reflexivity.
Defined.

Lemma trace_next_end_of_file_iff_witness :
  let t := reader_at Samples.blank_trace
             (firstn 6 (record_frame (M := SpecLayout.macros) Samples.record_3)) in
  trace_next_in_bounds t = true /\
  ((fst (fst (trace_next (M := SpecLayout.macros) t)) = 1 /\
    snd (fst (trace_next (M := SpecLayout.macros) t)) = None)
   <-> (List.length (file t) < 8)%nat).
Proof.
  split; [reflexivity|].
  apply (trace_next_end_of_file_iff (M := SpecLayout.macros)
           (reader_at Samples.blank_trace
              (firstn 6 (record_frame (M := SpecLayout.macros) Samples.record_3)))).
  reflexivity.
Defined.


End ReaderWriterFacts.

(** ** Frames anywhere in a stream *)

Module FrameFacts.
Import Stdio TraceIO WireFormat RecordEdit StdioFacts.

Lemma firstn_past (a b : list byte) (k : nat) :
  (List.length a <= k)%nat ->
  firstn k (a ++ b) = a ++ firstn (k - List.length a) b.
Proof. intros H. rewrite firstn_app. now rewrite firstn_all2 by assumption. Qed.

(** The meta word repeats with period 2^24 in the offset. *)
Lemma pack_meta_period (o c k : Z) : pack_meta (o + k * 2 ^ 24) c = pack_meta o c.
Proof.
  unfold pack_meta. f_equal. rewrite !CodecFacts.shiftl_8.
  unfold Int.s32, Int.swrap. change (32 - 1) with 31.
  replace ((o + k * 2 ^ 24) * 256 + 2 ^ 31) with (o * 256 + 2 ^ 31 + k * 2 ^ 32) by lia.
  now rewrite Z.mod_add by lia.
Qed.

Section WithMacros.
Context {M : RecordMacros}.

(** X5.  A kernel name of 1 to 255 bytes (a C string) with a 16-bit block
    size is written by [trace_write_kernel] as one frame of 8 + length bytes
    with return value 0; and [trace_next], at such a frame anywhere in a
    stream, returns 0, delivers this name and block size with [new_kernel] = 1,
    leaves the record buffer and the version alone and stops right behind the
    frame. *)
Theorem kernel_frame_write_read
  (f : wFILE) (t : trace_t) (name rest : list byte) (b : Z)
  (Hstr : strlen name = List.length name)
  (Hlen : (1 <= List.length name <= 255)%nat) (Hb : 0 <= b < 2 ^ 16)
  (Hroom : (8 + List.length name <= room f)%nat)
  (Hfile : file t = kernel_frame name b ++ rest) :
  trace_write_kernel f name b =
  (0, None, {| written := written f ++ kernel_frame name b;
               room := room f - (8 + List.length name) |}) /\
  List.length (kernel_frame name b) = (8 + List.length name)%nat /\
  trace_next t =
  (0, None,
   {| file := rest; block_size := b; version := version t; new_kernel := 1;
      kernel_name := Some name; record := record t |}).
Proof.
  destruct (KernelFrameFacts.kernel_frame_round_trip f t name rest b
              Hstr Hlen Hb Hroom) as (W & L & _).
  split; [exact W|]. split; [exact L|].
  now apply KernelFrameFacts.trace_next_kernel_frame.
Qed.


Context {Mok : RecordMacrosOk M}.

(** The frame of a record starts with the word that holds the number of its
    address units where [trace_next] looks for it. *)
Lemma record_frame_head (r : trace_record_t) :
  record_fits r ->
  exists w0 tail,
    record_frame r = le_split 8 w0 ++ bytes_of_words tail /\
    Int.u8 (Z.land (Z.shiftr (le_combine (le_split 8 w0)) 56) 255) = addr_len r.
Proof.
  intros Hfit. pose proof Hfit as (H1 & Hf & Hlen & Hunits).
  destruct (fits_types _ _ _ _ _ _ _ _ _ Hf) as (Ra & _).
  pose proof (CodecFacts.trace_pack_range r) as Hrange.
  pose proof (CodecFacts.length_trace_pack r) as Hpl.
  pose proof (set_init_tag _ _ _ _ _ _ _ _ _ Hf) as Htag.
  rewrite <- (CodecFacts.header_of_trace_pack r) in Htag.
  unfold record_frame.
  destruct (__trace_pack r) as [|w0 tail] eqn:Ep; [cbn in Hpl; lia|].
  inversion Hrange as [|? ? Rw0 Rtail]; subst.
  unfold header_of in Htag. cbn [nth Common.desc] in Htag.
  exists w0, tail. split; [reflexivity|].
  rewrite le_combine_split. change (Z.of_nat 8 * 8) with 64.
  rewrite Z.mod_small by assumption. rewrite Htag.
  now apply IntFacts.u8_small.
Qed.

(** X6.  A record that fits the wire form, with 1 to 32 address units (the
    capacity of the buffers of the writer and the reader), is written by
    [trace_write_record] as one frame of 24 + 16 * [addr_len] bytes; and
    [trace_next], at such a frame anywhere in a stream, stays inside its
    buffers, returns 0 with [new_kernel] = 0, delivers the record in every
    field but [debug], keeps kernel name, block size and version, and stops
    right behind the frame. *)
Theorem record_frame_write_read
  (f : wFILE) (t : trace_t) (r : trace_record_t) (rest : list byte) (e : error)
  (Hfit : record_fits r) (Hcap : addr_len r <= 32)
  (Hroom : (List.length (record_frame r) <= room f)%nat)
  (Hfile : file t = record_frame r ++ rest) :
  trace_write_record f r e =
  (0, e, {| written := written f ++ record_frame r;
            room := room f - List.length (record_frame r) |}) /\
  Z.of_nat (List.length (record_frame r)) = 24 + 16 * addr_len r /\
  Z.of_nat (List.length (record_frame r)) <= writer_buf_size /\
  trace_next_in_bounds t = true /\
  trace_next t =
  (0, None,
   {| file := rest; block_size := block_size t; version := version t;
      new_kernel := 0; kernel_name := kernel_name t;
      record := with_debug r (debug (record t)) |}).
Proof.
  pose proof Hfit as (H1 & _).
  assert (L : Z.of_nat (List.length (record_frame r)) = 24 + 16 * addr_len r)
    by (rewrite CodecFacts.record_frame_length by lia; unfold RECORD_RAW_SIZE; lia).
  split; [apply CodecFacts.trace_write_record_ok; [lia|assumption]|].
  split; [exact L|].
  split; [rewrite L; unfold writer_buf_size, TRACE_RECORD_SIZE; lia|].
  split; [|now apply CodecFacts.trace_next_record_frame].
  apply ReaderWriterFacts.trace_next_in_bounds_units. intros first f1.
  destruct (record_frame_head r Hfit) as (w0 & tail & Ef & Et).
  rewrite Hfile, Ef, <- app_assoc.
  rewrite fread_app by (try discriminate; apply length_le_split).
  intros E. injection E as <- _. rewrite Et. exact Hcap.
Qed.

(** X7.  A record without address units cannot be read back: its frame has a
    zero in the byte where [trace_next] looks for the frame kind, so the
    reader treats it as a kernel frame; the record buffer of the reader stays
    as it was, and whenever the call returns 0 it reports a new kernel. *)
Theorem record_without_units_reads_as_kernel
  (t : trace_t) (r : trace_record_t) (rest : list byte)
  (Hzero : addr_len r = 0)
  (Hfit : RECORD_FITS 0 (type r) (smid r) (warp r) (ctaid_x r) (ctaid_y r)
            (ctaid_z r) (clock r) (size r) = true)
  (Hfile : file t = record_frame r ++ rest) :
  record (snd (trace_next t)) = record t /\
  (fst (fst (trace_next t)) = 0 -> new_kernel (snd (trace_next t)) = 1).
Proof.
  pose proof (set_init_tag _ _ _ _ _ _ _ _ _ Hfit) as Htag.
  destruct (set_init_words 0 (type r) (smid r) (warp r) (ctaid_x r) (ctaid_y r)
              (ctaid_z r) (clock r) (size r)) as (R0 & _).
  unfold trace_next. rewrite Hfile. unfold record_frame, __trace_pack.
  rewrite Hzero. cbn zeta. cbn [Z.to_nat seq flat_map app].
  unfold bytes_of_words. cbn [flat_map]. rewrite <- !app_assoc.
  rewrite fread_app by (try discriminate; apply length_le_split).
  rewrite le_combine_split. change (Z.of_nat 8 * 8) with 64.
  rewrite Z.mod_small by assumption. rewrite Htag.
  change (Int.u8 0 =? 0) with true. cbv iota.
  match goal with
  | |- context [fread ?n ?f1] =>
      destruct (ReaderWriterFacts.fread_cases n f1)
        as [(_ & _ & E2)|[(_ & E2)|(_ & E2)]]; rewrite E2
  end; cbn [fst snd record new_kernel]; split; try reflexivity; discriminate.
Qed.

(** X8.  The frame of a record of 1 to 32 address units (the capacity of
    the buffers of the reader) that ends early, anywhere after its first
    eight bytes, makes [trace_next], which stays inside its buffers, return 1
    with "unable to read record"; [new_kernel] is set to 0 and the record
    buffer of the reader is left as it was. *)
Theorem record_frame_cut_is_an_error
  (t : trace_t) (r : trace_record_t) (k : nat)
  (Hfit : record_fits r) (Hcap : addr_len r <= 32)
  (Hk : (8 <= k < List.length (record_frame r))%nat)
  (Hfile : file t = firstn k (record_frame r)) :
  trace_next_in_bounds t = true /\
  trace_next t =
  (1, Some "unable to read record"%string,
   {| file := []; block_size := block_size t; version := version t;
      new_kernel := 0; kernel_name := kernel_name t; record := record t |}).
Proof.
  split.
  { apply ReaderWriterFacts.trace_next_in_bounds_units. intros first f1.
    destruct (record_frame_head r Hfit) as (w0 & tail & Ef & Et).
    rewrite Hfile. rewrite Ef in Hk |- *.
    rewrite firstn_past by (rewrite length_le_split; lia).
    rewrite fread_app by (try discriminate; apply length_le_split).
    intros E. injection E as <- _. rewrite Et. exact Hcap. }
  pose proof Hfit as (H1 & Hf & Hlen & Hunits).
  destruct (fits_types _ _ _ _ _ _ _ _ _ Hf) as (Ra & _).
  pose proof (CodecFacts.trace_pack_range r) as Hrange.
  pose proof (CodecFacts.length_trace_pack r) as Hpl.
  pose proof (set_init_tag _ _ _ _ _ _ _ _ _ Hf) as Htag.
  rewrite <- (CodecFacts.header_of_trace_pack r) in Htag.
  unfold trace_next. rewrite Hfile. revert Hk. unfold record_frame.
  destruct (__trace_pack r) as [|w0 tail] eqn:Ep; [cbn in Hpl; lia|].
  cbn [List.length] in Hpl. inversion Hrange as [|? ? Rw0 Rtail]; subst.
  unfold header_of in Htag. cbn [nth Common.desc] in Htag.
  unfold bytes_of_words. cbn [flat_map]. fold (bytes_of_words tail).
  rewrite length_app, length_le_split, CodecFacts.length_bytes_of_words.
  intros Hk.
  rewrite firstn_past by (rewrite length_le_split; lia).
  rewrite length_le_split.
  rewrite fread_app by (try discriminate; apply length_le_split).
  rewrite le_combine_split. change (Z.of_nat 8 * 8) with 64.
  rewrite Z.mod_small by assumption. rewrite Htag.
  rewrite IntFacts.u8_small by assumption.
  destruct (Z.eqb_spec (addr_len r) 0) as [E|_]; [lia|].
  rewrite fread_short; [reflexivity|].
  rewrite length_firstn, CodecFacts.length_bytes_of_words.
  unfold RECORD_RAW_SIZE. lia.
Qed.

(** X10.  The offset of an address unit reaches the packed record only
    through its low 24 bits: adding any multiple of 2^24 to the offset of
    one unit leaves the buffer that [__trace_pack] fills unchanged. *)
Theorem trace_pack_ignores_high_offset_bits
  (r : trace_record_t) (us vs : list trace_record_addr_t)
  (u : trace_record_addr_t) (k : Z)
  (Hunits : addr_unit r = us ++ u :: vs)
  (Hlen : List.length (addr_unit r) = Z.to_nat (addr_len r)) :
  __trace_pack
    (with_units r (us ++ with_offset u (offset u + k * 2 ^ 24) :: vs))
  = __trace_pack r.
Proof.
  rewrite (CodecFacts.trace_pack_units r) by assumption.
  rewrite CodecFacts.trace_pack_units
    by (cbn [with_units addr_unit addr_len]; rewrite <- Hlen, Hunits,
          !length_app; reflexivity).
  cbn [with_units addr_len type smid warp ctaid_x ctaid_y ctaid_z clock size
         addr_unit].
  f_equal. rewrite Hunits, !flat_map_app. f_equal. cbn [flat_map]. f_equal.
  unfold packed_unit, with_offset. cbn [addr offset count].
  now rewrite pack_meta_period.
Qed.

End WithMacros.

#[local] Existing Instance SpecLayout.macros.

Lemma kernel_frame_write_read_witness :
  trace_write_kernel {| written := []; room := 64 |} Samples.name_k 32 =
  (0, None, {| written := [] ++ kernel_frame Samples.name_k 32;
               room := 64 - (8 + List.length Samples.name_k) |}) /\
  List.length (kernel_frame Samples.name_k 32)
  = (8 + List.length Samples.name_k)%nat /\
  trace_next (reader_at Samples.blank_trace
                (kernel_frame Samples.name_k 32 ++ [Byte.x01])) =
  (0, None,
   {| file := [Byte.x01]; block_size := 32; version := 0; new_kernel := 1;
      kernel_name := Some Samples.name_k; record := Samples.blank_record |}).
Proof.
  apply (kernel_frame_write_read {| written := []; room := 64 |}
           (reader_at Samples.blank_trace
              (kernel_frame Samples.name_k 32 ++ [Byte.x01]))
           Samples.name_k [Byte.x01] 32).
  - reflexivity.
  - cbn. lia.
  - lia.
  - cbn. lia.
  - reflexivity.
Defined.


Lemma record_frame_write_read_witness :
  trace_write_record {| written := []; room := 72 |} Samples.record_3
    (Some "stale"%string) =
  (0, Some "stale"%string,
   {| written := [] ++ record_frame Samples.record_3;
      room := 72 - List.length (record_frame Samples.record_3) |}) /\
  Z.of_nat (List.length (record_frame Samples.record_3)) = 24 + 16 * 3 /\
  Z.of_nat (List.length (record_frame Samples.record_3)) <= writer_buf_size /\
  trace_next_in_bounds (reader_at Samples.blank_trace
                          (record_frame Samples.record_3 ++ [Byte.x01])) = true /\
  trace_next (reader_at Samples.blank_trace
                (record_frame Samples.record_3 ++ [Byte.x01])) =
  (0, None,
   {| file := [Byte.x01]; block_size := 0; version := 0; new_kernel := 0;
      kernel_name := None;
      record := with_debug Samples.record_3 0 |}).
Proof.
  apply (record_frame_write_read (Mok := SpecLayoutFacts.macros_ok)
           {| written := []; room := 72 |}
           (reader_at Samples.blank_trace
              (record_frame Samples.record_3 ++ [Byte.x01]))
           Samples.record_3 [Byte.x01] (Some "stale"%string)).
  - exact StreamFacts.record_3_fits.
  - cbn. lia.
  - vm_compute. lia.
  - reflexivity.
Defined.

Lemma record_without_units_reads_as_kernel_witness :
  let t := reader_at Samples.blank_trace (record_frame Samples.blank_record ++ []) in
  record (snd (trace_next t)) = record t /\
  (fst (fst (trace_next t)) = 0 -> new_kernel (snd (trace_next t)) = 1).
Proof.
  apply (record_without_units_reads_as_kernel (Mok := SpecLayoutFacts.macros_ok)
           (reader_at Samples.blank_trace (record_frame Samples.blank_record ++ []))
           Samples.blank_record []).
  - reflexivity.
  - reflexivity.
  - reflexivity.
Defined.

Lemma record_frame_cut_is_an_error_witness :
  trace_next_in_bounds (reader_at Samples.blank_trace
                          (firstn 71 (record_frame Samples.record_3))) = true /\
  trace_next (reader_at Samples.blank_trace
                (firstn 71 (record_frame Samples.record_3))) =
  (1, Some "unable to read record"%string,
   {| file := []; block_size := 0; version := 0; new_kernel := 0;
      kernel_name := None; record := Samples.blank_record |}).
Proof.
  apply (record_frame_cut_is_an_error (Mok := SpecLayoutFacts.macros_ok)
           (reader_at Samples.blank_trace
              (firstn 71 (record_frame Samples.record_3)))
           Samples.record_3 71).
  - exact StreamFacts.record_3_fits.
  - cbn. lia.
  - vm_compute. lia.
  - reflexivity.
Defined.

Lemma trace_pack_ignores_high_offset_bits_witness :
  __trace_pack
    (with_units Samples.record_3
       ([Samples.unit_a]
        ++ with_offset Samples.unit_b (offset Samples.unit_b + 1 * 2 ^ 24)
        :: [Samples.unit_c]))
  = __trace_pack Samples.record_3.
Proof.
  apply (trace_pack_ignores_high_offset_bits Samples.record_3
           [Samples.unit_a] [Samples.unit_c] Samples.unit_b 1).
  - reflexivity.
  - reflexivity.
Defined.

End FrameFacts.

(** ** More on the values computed at kernel entry *)

Module DeviceMoreFacts.
Import Common InstrumentDevice PointerKinds Symbols.

Lemma slot_bounds (smid : Z) : 0 <= slot smid < SLOTS_NUM.
Proof.
  unfold slot, CreateAnd. change (SLOTS_NUM - 1) with (Z.ones 2).
  rewrite Z.land_ones by lia. apply Z.mod_pos_bound. reflexivity.
Qed.

Lemma slot_i_value (s : Z) :
  0 <= s < SLOTS_NUM -> slot_i s = s * (SLOTS_SIZE * RECORD_SIZE).
Proof.
  unfold slot_i, CreateMul32, SLOTS_NUM, SLOTS_SIZE, RECORD_SIZE. intros H.
  rewrite (IntFacts.u32_small (s * 64)) by lia.
  rewrite IntFacts.u32_small by lia. lia.
Qed.

(** X11.  For every value of the processor id register the shard index is
    one of 0 .. [SLOTS_NUM] - 1; the record area handed to the producer starts
    shard * [SLOTS_SIZE] * [RECORD_SIZE] bytes into the record buffer and,
    taken with its [SLOTS_SIZE] * [RECORD_SIZE] bytes, lies inside the
    [SLOTS_NUM] * [SLOTS_SIZE] * [RECORD_SIZE] bytes of that buffer; the areas
    of two producers on different shards do not overlap. *)
Theorem shard_record_areas_are_disjoint (gv : traceinfo_t) (r1 r2 : sregs) :
  let area := SLOTS_SIZE * RECORD_SIZE in
  let i1 := setupTraceInfo gv r1 in
  let i2 := setupTraceInfo gv r2 in
  0 <= slot (smid r1) < SLOTS_NUM /\
  records i1 = ti_records gv + slot (smid r1) * area /\
  ti_records gv <= records i1 /\
  records i1 + area <= ti_records gv + SLOTS_NUM * area /\
  (slot (smid r1) <> slot (smid r2) ->
   records i1 + area <= records i2 \/ records i2 + area <= records i1).
Proof.
  cbn zeta. pose proof (slot_bounds (smid r1)) as B1.
  pose proof (slot_bounds (smid r2)) as B2.
  unfold setupTraceInfo. cbn [records]. unfold CreateInBoundsGEP.
  rewrite !slot_i_value by assumption.
  unfold SLOTS_NUM, SLOTS_SIZE, RECORD_SIZE in *.
  rewrite !IntFacts.s32_small by lia.
  repeat split; try lia.
Qed.

Lemma land_65535 (v : Z) : Z.land v 65535 = v mod 2 ^ 16.
Proof. change 65535 with (Z.ones 16). now rewrite Z.land_ones by lia. Qed.

(** The value of [ctaid_conv] as a sum of its three fields. *)
Lemma ctaid_conv_sum (c0 c1 c2 : Z) :
  PluginEntry.ctaid_conv c0 c1 c2 =
  (c0 mod 2 ^ 32) * 2 ^ 32 + (c1 mod 2 ^ 16) * 2 ^ 16 + c2 mod 2 ^ 16.
Proof.
  unfold PluginEntry.ctaid_conv. rewrite !land_65535.
  rewrite !Z.shiftl_mul_pow2 by lia.
  assert (E1 : Int.u32 c1 mod 2 ^ 16 = c1 mod 2 ^ 16).
  { unfold Int.u32, Int.wrap.
    change (2 ^ 32) with (2 ^ 16 * 2 ^ 16).
    rewrite Z.rem_mul_r by lia. rewrite Z.mul_comm, Z.mod_add by lia.
    now rewrite Z.mod_mod by lia. }
  assert (E2 : Int.u32 c2 mod 2 ^ 16 = c2 mod 2 ^ 16).
  { unfold Int.u32, Int.wrap.
    change (2 ^ 32) with (2 ^ 16 * 2 ^ 16).
    rewrite Z.rem_mul_r by lia. rewrite Z.mul_comm, Z.mod_add by lia.
    now rewrite Z.mod_mod by lia. }
  rewrite E1, E2.
  pose proof (DeviceFacts.u32_range c0) as R0.
  pose proof (Z.mod_pos_bound c1 (2 ^ 16) ltac:(lia)) as R1.
  pose proof (Z.mod_pos_bound c2 (2 ^ 16) ltac:(lia)) as R2.
  unfold Int.u32, Int.wrap in R0 |- *. clear E1 E2.
  generalize dependent (c0 mod 2 ^ 32). generalize dependent (c1 mod 2 ^ 16).
  generalize dependent (c2 mod 2 ^ 16). intros z Rz y Ry x Rx.
  rewrite (IntFacts.u64_small (x * 2 ^ 32)) by lia.
  rewrite (IntFacts.u64_small (y * 2 ^ 16)) by lia.
  rewrite (IntFacts.u64_small (x * 2 ^ 32 + y * 2 ^ 16)) by lia.
  apply IntFacts.u64_small. lia.
Qed.

(** X12.  The filter value that [ParseArgs] builds from a coordinate holds x
    (32 bits) in its high half, then y and z reduced to 16 bits each: the
    three fields read back from it, two coordinates give the same value only
    if they agree in x modulo 2^32 and in y and z modulo 2^16, and a y or z
    of 65536 or more is taken modulo 65536. *)
Theorem ctaid_conv_fields (c0 c1 c2 : Z) :
  let v := PluginEntry.ctaid_conv c0 c1 c2 in
  0 <= v < 2 ^ 64 /\
  Z.shiftr v 32 = c0 mod 2 ^ 32 /\
  Z.land (Z.shiftr v 16) 65535 = c1 mod 2 ^ 16 /\
  Z.land v 65535 = c2 mod 2 ^ 16 /\
  PluginEntry.ctaid_conv c0 (c1 + 65536) (c2 + 65536) = v.
Proof.
  cbn zeta. rewrite !ctaid_conv_sum. rewrite !land_65535.
  rewrite !Z.shiftr_div_pow2 by lia.
  pose proof (Z.mod_pos_bound c0 (2 ^ 32) ltac:(lia)) as R0.
  pose proof (Z.mod_pos_bound c1 (2 ^ 16) ltac:(lia)) as R1.
  pose proof (Z.mod_pos_bound c2 (2 ^ 16) ltac:(lia)) as R2.
  replace ((c1 + 65536) mod 2 ^ 16) with (c1 mod 2 ^ 16)
    by (change 65536 with (1 * 2 ^ 16); now rewrite Z.mod_add by lia).
  replace ((c2 + 65536) mod 2 ^ 16) with (c2 mod 2 ^ 16)
    by (change 65536 with (1 * 2 ^ 16); now rewrite Z.mod_add by lia).
  generalize dependent (c0 mod 2 ^ 32). generalize dependent (c1 mod 2 ^ 16).
  generalize dependent (c2 mod 2 ^ 16). intros z Rz y Ry x Rx.
  change (2 ^ 32) with 4294967296 in *. change (2 ^ 16) with 65536 in *.
  change (2 ^ 64) with 18446744073709551616.
  repeat split; try lia; Z.div_mod_to_equations; lia.
Qed.

(** X13.  For register values of 32 bits whose linear thread index
    tid.x + ntid.x * (tid.y + tid.z * ntid.y) is below 2^37, the warp id
    passed to the trace calls is that index divided by 32: neither the
    64-bit arithmetic nor the truncation to 32 bits loses anything. *)
Theorem warpid_is_linear_index_div_32 (gv : traceinfo_t) (r : sregs)
  (Hx : 0 <= tid_x r < 2 ^ 32) (Hy : 0 <= tid_y r < 2 ^ 32)
  (Hz : 0 <= tid_z r < 2 ^ 32)
  (Hnx : 0 <= ntid_x r < 2 ^ 32) (Hny : 0 <= ntid_y r < 2 ^ 32)
  (Hlin : tid_x r + ntid_x r * (tid_y r + tid_z r * ntid_y r) < 2 ^ 37) :
  warpid_v (setupTraceInfo gv r)
  = (tid_x r + ntid_x r * (tid_y r + tid_z r * ntid_y r)) / 32.
Proof.
  unfold setupTraceInfo. cbn [warpid_v].
  unfold warpid, CreateZExt, CreateTrunc, CreateUDiv, CreateAdd64, CreateMul64.
  rewrite (IntFacts.u32_small (tid_x r)), (IntFacts.u32_small (tid_y r)),
    (IntFacts.u32_small (tid_z r)), (IntFacts.u32_small (ntid_x r)),
    (IntFacts.u32_small (ntid_y r)) by assumption.
  assert (0 <= tid_z r * ntid_y r < 2 ^ 64) by nia.
  rewrite (IntFacts.u64_small (tid_z r * ntid_y r)) by assumption.
  assert (0 <= tid_z r * ntid_y r + tid_y r < 2 ^ 64) by nia.
  rewrite (IntFacts.u64_small (tid_z r * ntid_y r + tid_y r)) by assumption.
  assert (0 <= ntid_x r * (tid_z r * ntid_y r + tid_y r) < 2 ^ 37) by nia.
  rewrite (IntFacts.u64_small (ntid_x r * _)) by lia.
  rewrite (IntFacts.u64_small (tid_x r + _)) by lia.
  replace (tid_y r + tid_z r * ntid_y r) with (tid_z r * ntid_y r + tid_y r) by lia.
  apply IntFacts.u32_small.
  split; [apply Z.div_pos; lia|].
  apply Z.div_lt_upper_bound; lia.
Qed.

Lemma warpid_is_linear_index_div_32_witness :
  warpid_v (setupTraceInfo (mk_traceinfo_t 0 0 0 0) (mk_sregs 5 3 1 64 4 0 0 0 0))
  = (5 + 64 * (3 + 1 * 4)) / 32.
Proof.
  apply (warpid_is_linear_index_div_32 (mk_traceinfo_t 0 0 0 0)
           (mk_sregs 5 3 1 64 4 0 0 0 0));
    cbn; lia.
Defined.

(** X14.  [mergePointerKinds] is the minimum of the enumeration order: it is
    commutative, associative and idempotent, [PK_UNINITIALIZED] is neutral
    and [PK_OTHER] absorbs, so the kind of a merge is [PK_GLOBAL] only if no
    operand is [PK_OTHER] and some operand is [PK_GLOBAL]. *)
Theorem mergePointerKinds_is_a_minimum (a b c : PointerKind) :
  mergePointerKinds a b = mergePointerKinds b a /\
  mergePointerKinds a (mergePointerKinds b c)
  = mergePointerKinds (mergePointerKinds a b) c /\
  mergePointerKinds a a = a /\
  mergePointerKinds PK_UNINITIALIZED a = a /\
  mergePointerKinds PK_OTHER a = PK_OTHER /\
  enum_value (mergePointerKinds a b) = Z.min (enum_value a) (enum_value b) /\
  (mergePointerKinds a b = PK_GLOBAL <->
   a <> PK_OTHER /\ b <> PK_OTHER /\ (a = PK_GLOBAL \/ b = PK_GLOBAL)).
Proof.
  destruct a, b, c; cbn; repeat split; try reflexivity; try discriminate;
    try tauto; try (intros; intuition congruence).
Qed.

(** X15.  The trace symbol of a kernel is its name between "__" and
    "_trace": eight characters longer than the name, and different for
    different kernel names. *)
Theorem getSymbolNameForKernel_injective (k1 k2 : cstring) :
  List.length (getSymbolNameForKernel k1) = (List.length k1 + 8)%nat /\
  (getSymbolNameForKernel k1 = getSymbolNameForKernel k2 -> k1 = k2).
Proof.
  unfold getSymbolNameForKernel. split.
  - rewrite !length_app. cbn. lia.
  - intros E. apply app_inv_head in E. now apply app_inv_tail in E.
Qed.

End DeviceMoreFacts.

(** ** The plugin arguments *)

Module PluginArgsFacts.
Import Stdlib.Strings.Ascii.
Import Symbols PluginArgs PluginArgsSpec.

(** *** Strings *)

Lemma cstring_eqb_eq (a b : cstring) : cstring_eqb a b = true <-> a = b.
Proof.
  unfold cstring_eqb. rewrite String.eqb_eq. split.
  - intros E. apply (f_equal list_ascii_of_string) in E.
    now rewrite !list_ascii_of_string_of_list_ascii in E.
  - now intros ->.
Qed.

Lemma getlines_app_delim (d : ascii) (a rest : cstring) : forall cur,
  ~ In d a ->
  getlines d cur (a ++ d :: rest) = (cur ++ a) :: getlines d [] rest.
Proof.
  induction a as [|c a IH]; intros cur H.
  - cbn [app getlines]. rewrite Ascii.eqb_refl. now rewrite app_nil_r.
  - cbn [app getlines]. destruct (Ascii.eqb_spec c d) as [E|E].
    + exfalso. apply H. now left.
    + rewrite IH by (intros I; apply H; now right).
      now rewrite <- app_assoc.
Qed.

Lemma getlines_no_delim (d : ascii) (a : cstring) : forall cur,
  ~ In d a -> cur ++ a <> [] -> getlines d cur a = [cur ++ a].
Proof.
  induction a as [|c a IH]; intros cur H N.
  - cbn [getlines]. rewrite app_nil_r in *. now destruct cur.
  - cbn [getlines]. destruct (Ascii.eqb_spec c d) as [E|E].
    + exfalso. apply H. now left.
    + rewrite IH.
      * now rewrite <- app_assoc.
      * intros I. apply H. now right.
      * now destruct cur.
Qed.

(** The pieces of a stream that continues after a delimiter. *)
Lemma getlines_split (d : ascii) (a rest : cstring) : forall cur,
  getlines d cur (a ++ d :: rest) = getlines d cur (a ++ [d]) ++ getlines d [] rest.
Proof.
  induction a as [|c a IH]; intros cur.
  - cbn [app getlines]. rewrite Ascii.eqb_refl. reflexivity.
  - cbn [app getlines]. destruct (Ascii.eqb c d).
    + now rewrite IH.
    + apply IH.
Qed.

(** The options of [argslist] are the options of the single arguments. *)
Lemma getlines_argslist (args : list cstring) :
  getlines ","%char [] (argslist args) =
  flat_map (fun a => getlines ","%char [] (a ++ [","%char])) args.
Proof.
  induction args as [|a args IH]; [reflexivity|].
  unfold argslist in *. cbn [flat_map]. rewrite <- IH.
  rewrite <- app_assoc. cbn [app]. apply getlines_split.
Qed.

Lemma all_digits_not_in (s : cstring) (c : ascii) :
  all_digits s = true -> isdigit c = false -> ~ In c s.
Proof.
  unfold all_digits. rewrite forallb_forall. intros H N I.
  apply H in I. congruence.
Qed.

Lemma decimal_range_aux (s : cstring) : forall acc,
  all_digits s = true -> 0 <= acc ->
  0 <= fold_left (fun a c => 10 * a + (Z.of_nat (nat_of_ascii c) - 48)) s acc.
Proof.
  induction s as [|c s IH]; intros acc H A; [exact A|].
  cbn [fold_left]. cbn [all_digits forallb] in H.
  apply andb_true_iff in H. destruct H as [Hc Hs].
  apply IH; [exact Hs|].
  unfold isdigit in Hc. apply andb_true_iff in Hc. lia.
Qed.

Lemma decimal_nonneg (s : cstring) : all_digits s = true -> 0 <= decimal s.
Proof. intros H. apply decimal_range_aux; [assumption|lia]. Qed.

Lemma stoi_ok (s : cstring) :
  s <> [] -> decimal s <= INT_MAX -> stoi s = Ok (decimal s).
Proof.
  intros N L. unfold stoi. destruct s as [|c s]; [contradiction|].
  destruct (Z.leb_spec (decimal (c :: s)) INT_MAX); [reflexivity|lia].
Qed.

Lemma stoi_bound (s : cstring) (v : Z) : stoi s = Ok v -> v = decimal s /\ v <= INT_MAX.
Proof.
  unfold stoi. destruct s as [|c s]; [discriminate|].
  destruct (Z.leb_spec (decimal (c :: s)) INT_MAX); [|discriminate].
  intros E. injection E as <-. now split.
Qed.

(** *** What the loops keep *)

Lemma extends_refl (pa : InstrumentPassArg) : extends pa pa.
Proof.
  unfold extends. repeat split; exists []; rewrite app_nil_r; auto.
Qed.

Lemma extends_trans (a b c : InstrumentPassArg) :
  extends a b -> extends b c -> extends a c.
Proof.
  intros ((k1 & K1) & (s1 & S1 & FS1) & (c1 & C1 & FC1) & (w1 & W1 & FW1))
         ((k2 & K2) & (s2 & S2 & FS2) & (c2 & C2 & FC2) & (w2 & W2 & FW2)).
  unfold extends. repeat split.
  - exists (k1 ++ k2). now rewrite K2, K1, app_assoc.
  - exists (s1 ++ s2). split; [now rewrite S2, S1, app_assoc|].
    apply Forall_app. now split.
  - exists (c1 ++ c2). split; [now rewrite C2, C1, app_assoc|].
    apply Forall_app. now split.
  - exists (w1 ++ w2). split; [now rewrite W2, W1, app_assoc|].
    apply Forall_app. now split.
Qed.

Lemma u8_range (v : Z) : 0 <= Int.u8 v < 2 ^ 8.
Proof. apply IntFacts.wrap_range. lia. Qed.

Lemma extends_push_kernel pa k : extends pa (push_kernel pa k).
Proof.
  unfold extends, push_kernel. cbn. repeat split.
  - now exists [k].
  - exists []. rewrite app_nil_r. auto.
  - exists []. rewrite app_nil_r. auto.
  - exists []. rewrite app_nil_r. auto.
Qed.

Lemma extends_push_sm pa v : extends pa (push_sm pa (Int.u8 v)).
Proof.
  unfold extends, push_sm. cbn. repeat split.
  - exists []. now rewrite app_nil_r.
  - exists [Int.u8 v]. split; [reflexivity|].
    apply Forall_cons; [apply u8_range|apply Forall_nil].
  - exists []. rewrite app_nil_r. auto.
  - exists []. rewrite app_nil_r. auto.
Qed.

Lemma extends_push_warp pa v : extends pa (push_warp pa (Int.u32 v)).
Proof.
  unfold extends, push_warp. cbn. repeat split.
  - exists []. now rewrite app_nil_r.
  - exists []. rewrite app_nil_r. auto.
  - exists []. rewrite app_nil_r. auto.
  - exists [Int.u32 v]. split; [reflexivity|].
    apply Forall_cons; [apply DeviceFacts.u32_range|apply Forall_nil].
Qed.

Lemma extends_push_cta pa c0 c1 c2 :
  extends pa (push_cta pa (PluginEntry.ctaid_conv c0 c1 c2)).
Proof.
  unfold extends, push_cta. cbn. repeat split.
  - exists []. now rewrite app_nil_r.
  - exists []. rewrite app_nil_r. auto.
  - exists [PluginEntry.ctaid_conv c0 c1 c2]. split; [reflexivity|].
    apply Forall_cons; [|apply Forall_nil].
    unfold PluginEntry.ctaid_conv. apply IntFacts.wrap_range. lia.
  - exists []. rewrite app_nil_r. auto.
Qed.

Lemma kernel_items_keeps (items : list cstring) : forall pa,
  extends pa (kernel_items items pa) /\ same_flags pa (kernel_items items pa).
Proof.
  unfold kernel_items.
  induction items as [|k items IH]; intros pa.
  - split; [apply extends_refl|now split].
  - cbn [fold_left]. destruct (IH (push_kernel pa k)) as [E F]. split.
    + eapply extends_trans; [apply extends_push_kernel|exact E].
    + exact F.
Qed.

Lemma sm_items_keeps (items : list cstring) : forall pa pa',
  sm_items items pa = Ok pa' -> extends pa pa' /\ same_flags pa pa'.
Proof.
  induction items as [|i items IH]; intros pa pa' H.
  - injection H as <-. split; [apply extends_refl|now split].
  - cbn [sm_items] in H. destruct (all_digits i).
    + destruct (stoi i) as [v|e]; [|discriminate].
      apply IH in H. destruct H as [E F]. split.
      * eapply extends_trans; [apply extends_push_sm|exact E].
      * exact F.
    + now apply IH.
Qed.

Lemma warp_items_keeps (items : list cstring) : forall pa pa',
  warp_items items pa = Ok pa' -> extends pa pa' /\ same_flags pa pa'.
Proof.
  induction items as [|i items IH]; intros pa pa' H.
  - injection H as <-. split; [apply extends_refl|now split].
  - cbn [warp_items] in H. destruct (all_digits i).
    + destruct (stoi i) as [v|e]; [|discriminate].
      apply IH in H. destruct H as [E F]. split.
      * eapply extends_trans; [apply extends_push_warp|exact E].
      * exact F.
    + now apply IH.
Qed.

Lemma cta_items_keeps (items : list cstring) : forall pa pa',
  cta_items items pa = Ok pa' -> extends pa pa' /\ same_flags pa pa'.
Proof.
  induction items as [|i items IH]; intros pa pa' H.
  - injection H as <-. split; [apply extends_refl|now split].
  - cbn [cta_items] in H.
    destruct (cta_components _ _ _) as [ctaid|e]; [|discriminate].
    apply IH in H. destruct H as [E F]. split.
    + eapply extends_trans; [apply extends_push_cta|exact E].
    + exact F.
Qed.

Lemma set_flags_extends pa t m : extends pa (set_flags pa t m).
Proof.
  unfold extends, set_flags. cbn. repeat split; exists []; rewrite app_nil_r; auto.
Qed.

(** One option: what it may do to [pass_args]. *)
Lemma option_turn_keeps (optstr : cstring) (pa : InstrumentPassArg) :
  match option_turn optstr pa with
  | Continue pa' =>
      extends pa pa' /\
      (same_flags pa pa' \/
       (trace_thread pa' = true /\ trace_mem pa' = false) \/
       (trace_thread pa' = false /\ trace_mem pa' = true))
  | ReturnFalse pa' =>
      pa' = pa /\ fst (split_equal optstr) = lit "no-trace"
  | Raise _ => True
  end.
Proof.
  unfold option_turn. destruct (split_equal optstr) as [optname arg]. cbn [fst].
  destruct (cstring_eqb optname (lit "thread-only")).
  { split; [apply set_flags_extends|]. right; left. now split. }
  destruct (cstring_eqb optname (lit "mem-only")).
  { split; [apply set_flags_extends|]. right; right. now split. }
  destruct (cstring_eqb optname (lit "no-trace")) eqn:E.
  { split; [reflexivity|]. now apply cstring_eqb_eq. }
  destruct (cstring_eqb optname (lit "kernel")).
  { destruct (kernel_items_keeps
                match arg with Some a => getlines " "%char [] a | None => [] end pa).
    split; [assumption|now left]. }
  destruct (cstring_eqb optname (lit "sm")).
  { destruct (sm_items _ pa) as [pa'|e] eqn:S; cbn [lift]; [|exact I].
    apply sm_items_keeps in S. destruct S. split; [assumption|now left]. }
  destruct (cstring_eqb optname (lit "cta")).
  { destruct (cta_items _ pa) as [pa'|e] eqn:S; cbn [lift]; [|exact I].
    apply cta_items_keeps in S. destruct S. split; [assumption|now left]. }
  destruct (cstring_eqb optname (lit "warp")).
  { destruct (warp_items _ pa) as [pa'|e] eqn:S; cbn [lift]; [|exact I].
    apply warp_items_keeps in S. destruct S. split; [assumption|now left]. }
  split; [apply extends_refl|left; now split].
Qed.

Lemma options_loop_keeps (opts : list cstring) : forall pa b pa',
  trace_thread pa || trace_mem pa = true ->
  options_loop opts pa = Ok (b, pa') ->
  extends pa pa' /\ trace_thread pa' || trace_mem pa' = true /\
  (b = false ->
   exists optstr, In optstr opts /\ fst (split_equal optstr) = lit "no-trace").
Proof.
  induction opts as [|o opts IH]; intros pa b pa' F H.
  - injection H as <- <-. split; [apply extends_refl|]. split; [exact F|].
    discriminate.
  - cbn [options_loop] in H. pose proof (option_turn_keeps o pa) as K.
    destruct (option_turn o pa) as [pa1|pa1|e]; [| |discriminate].
    + destruct K as [E Fl].
      assert (F1 : trace_thread pa1 || trace_mem pa1 = true).
      { destruct Fl as [[Ft Fm]|[[Ft Fm]|[Ft Fm]]]; rewrite Ft, Fm;
          [exact F|reflexivity|reflexivity]. }
      destruct (IH pa1 b pa' F1 H) as (E' & F' & N).
      split; [eapply extends_trans; eassumption|]. split; [exact F'|].
      intros Hb. destruct (N Hb) as (os & I & Hn). exists os. split; [now right|exact Hn].
    + destruct K as [-> Hn]. injection H as <- <-.
      split; [apply extends_refl|]. split; [exact F|].
      intros _. exists o. split; [now left|exact Hn].
Qed.

(** X16.  When [ParseArgs] returns, with true or false, at least one of the
    flags [trace_thread] and [trace_mem] is set, whatever the flags were
    before the call and whatever the arguments are. *)
Theorem ParseArgs_keeps_a_trace_flag
  (pa pa' : InstrumentPassArg) (args : list cstring) (b : bool)
  (H : ParseArgs pa args = Ok (b, pa')) :
  trace_thread pa' || trace_mem pa' = true.
Proof.
  unfold ParseArgs in H.
  now destruct (options_loop_keeps _ (set_flags pa true true) _ _ eq_refl H) as (_ & F & _).
Qed.

(** X18.  [ParseArgs] only appends to the static [pass_args]: when it
    returns, the kernel names, processor ids, coordinate values and warp ids
    that were there before the call are still there, in front and in their
    order, and every number it added is within the element type of its
    vector: processor ids below 2^8, coordinate values below 2^64, warp ids
    below 2^32. *)
Theorem ParseArgs_only_appends
  (pa pa' : InstrumentPassArg) (args : list cstring) (b : bool)
  (H : ParseArgs pa args = Ok (b, pa')) :
  extends pa pa'.
Proof.
  unfold ParseArgs in H.
  destruct (options_loop_keeps _ (set_flags pa true true) _ _ eq_refl H) as (E & _ & _).
  eapply extends_trans; [apply (set_flags_extends pa true true)|exact E].
Qed.

Lemma options_loop_no_trace (opts : list cstring) : forall pa pa',
  In (lit "no-trace") opts -> options_loop opts pa <> Ok (true, pa').
Proof.
  induction opts as [|o opts IH]; intros pa pa' I; [contradiction|].
  cbn [options_loop]. destruct I as [->|I].
  - change (option_turn (lit "no-trace") pa) with (ReturnFalse pa). discriminate.
  - destruct (option_turn o pa); [now apply IH|discriminate|discriminate].
Qed.

(** X17.  If one of the arguments is "no-trace", [ParseArgs] does not return
    true, whatever the other arguments are; and it returns false only if some
    option, as cut out of the arguments at the commas, has the name
    "no-trace". *)
Theorem ParseArgs_no_trace (pa pa' : InstrumentPassArg) (args : list cstring) :
  (In (lit "no-trace") args -> ParseArgs pa args <> Ok (true, pa')) /\
  (ParseArgs pa args = Ok (false, pa') ->
   exists optstr,
     In optstr (getlines ","%char [] (argslist args)) /\
     fst (split_equal optstr) = lit "no-trace").
Proof.
  split.
  - intros I. unfold ParseArgs. apply options_loop_no_trace.
    rewrite getlines_argslist. apply in_flat_map.
    exists (lit "no-trace"). split; [exact I|]. now left.
  - intros H. unfold ParseArgs in H.
    destruct (options_loop_keeps _ (set_flags pa true true) _ _ eq_refl H) as (_ & _ & N).
    now apply N.
Qed.

Lemma ParseArgs_keeps_a_trace_flag_witness :
  trace_thread (mk_InstrumentPassArg false true [] [] [] [])
  || trace_mem (mk_InstrumentPassArg false true [] [] [] []) = true.
Proof.
  apply (ParseArgs_keeps_a_trace_flag pa_blank
           (mk_InstrumentPassArg false true [] [] [] [])
           [lit "thread-only"; lit "mem-only"] true).
  vm_compute. reflexivity.
Defined.

Lemma ParseArgs_only_appends_witness :
  extends (mk_InstrumentPassArg true true [lit "k"] [3] [] [])
          (mk_InstrumentPassArg true true [lit "k"; lit "vadd"] [3; 44] [] [7]).
Proof.
  apply (ParseArgs_only_appends
           (mk_InstrumentPassArg true true [lit "k"] [3] [] [])
           (mk_InstrumentPassArg true true [lit "k"; lit "vadd"] [3; 44] [] [7])
           [lit "kernel=vadd,sm=300"; lit "warp=7"] true).
  vm_compute. reflexivity.
Defined.

(** *** Single options *)

Lemma single_option (o : cstring) (pa : InstrumentPassArg) :
  ~ In ","%char o ->
  ParseArgs pa [o] = options_loop [o] (set_flags pa true true).
Proof.
  intros H. unfold ParseArgs, argslist. cbn [flat_map]. rewrite app_nil_r.
  now rewrite getlines_app_delim by assumption.
Qed.

Lemma option_turn_sm (s : cstring) (pa : InstrumentPassArg) :
  option_turn (lit "sm=" ++ s) pa = lift (sm_items (getlines " "%char [] s) pa).
Proof. reflexivity. Qed.

Lemma option_turn_cta (s : cstring) (pa : InstrumentPassArg) :
  option_turn (lit "cta=" ++ s) pa = lift (cta_items (getlines " "%char [] s) pa).
Proof. reflexivity. Qed.

Lemma not_in_app {A} (x : A) (a b : list A) : ~ In x a -> ~ In x b -> ~ In x (a ++ b).
Proof. intros Ha Hb I. apply in_app_or in I. tauto. Qed.

Lemma sm_items_empty_item (items : list cstring) : forall pa,
  In [] items -> exists e, sm_items items pa = Throw e.
Proof.
  induction items as [|i items IH]; intros pa I; [contradiction|].
  cbn [sm_items]. destruct I as [->|I].
  - now exists invalid_argument.
  - destruct (all_digits i); [|now apply IH].
    destruct (stoi i) as [v|e]; [now apply IH|now exists e].
Qed.

(** X19.  An empty item in the list of the [sm] option, as a leading blank or
    two blanks in a row produce it, passes the test for digits and reaches
    [std::stoi] as the empty string: [ParseArgs] is left by an exception
    instead of returning. *)
Theorem ParseArgs_sm_empty_item_throws (pa : InstrumentPassArg) (s : cstring)
  (Hcomma : ~ In ","%char s)
  (Hempty : In [] (getlines " "%char [] s)) :
  exists e, ParseArgs pa [lit "sm=" ++ s] = Throw e.
Proof.
  rewrite single_option.
  - cbn [options_loop]. rewrite option_turn_sm.
    destruct (sm_items_empty_item _ (set_flags pa true true) Hempty) as [e E].
    rewrite E. now exists e.
  - apply not_in_app; [|assumption].
    cbn. intros [E|[E|[E|[]]]]; discriminate.
Qed.

Lemma ParseArgs_sm_empty_item_throws_witness :
  exists e, ParseArgs pa_blank [lit "sm=" ++ lit "1  2"] = Throw e.
Proof.
  apply (ParseArgs_sm_empty_item_throws pa_blank (lit "1  2")).
  - cbn. intros [E|[E|[E|[E|[]]]]]; discriminate.
  - cbn. right. left. reflexivity.
Defined.

(** X21.  A processor id given to the [sm] option as a string of digits is
    stored modulo 256 when it is at most [INT_MAX], so that 256 and 0 name
    the same processor; a larger number leaves [ParseArgs] by the exception
    [out_of_range]. *)
Theorem ParseArgs_sm_is_masked (pa : InstrumentPassArg) (d : cstring)
  (Hd : all_digits d = true) (Hne : d <> []) :
  ParseArgs pa [lit "sm=" ++ d] =
  if decimal d <=? INT_MAX
  then Ok (true, push_sm (set_flags pa true true) (decimal d mod 256))
  else Throw out_of_range.
Proof.
  rewrite single_option.
  - cbn [options_loop]. rewrite option_turn_sm.
    rewrite getlines_no_delim
      by (try (apply all_digits_not_in; [assumption|reflexivity]); assumption).
    cbn [app sm_items]. rewrite Hd.
    unfold stoi. destruct d as [|c d]; [contradiction|].
    destruct (decimal (c :: d) <=? INT_MAX); [|reflexivity].
    cbn [lift options_loop option_turn]. do 3 f_equal.
    change 255 with (Z.ones 8). rewrite Z.land_ones by lia.
    unfold Int.u8, Int.wrap. change (2 ^ 8) with 256. apply Z.mod_mod. lia.
  - apply not_in_app.
    + cbn. intros [E|[E|[E|[]]]]; discriminate.
    + apply all_digits_not_in; [assumption|reflexivity].
Qed.

Lemma ParseArgs_sm_is_masked_witness :
  ParseArgs pa_blank [lit "sm=" ++ lit "256"] =
  if decimal (lit "256") <=? INT_MAX
  then Ok (true, push_sm (set_flags pa_blank true true) (decimal (lit "256") mod 256))
  else Throw out_of_range.
Proof.
  apply (ParseArgs_sm_is_masked pa_blank (lit "256")).
  - reflexivity.
  - discriminate.
Defined.

(** X20.  The option "cta=x/y/z" with three numbers of at most [INT_MAX],
    written in digits, appends to the coordinate filter the value that
    [ctaid_conv] packs from them, and "cta=x" alone that of (x, 0, 0); the
    call returns true with both trace flags set. *)
Theorem ParseArgs_cta_coordinate (pa : InstrumentPassArg) (dx dy dz : cstring)
  (Hx : all_digits dx = true) (Hy : all_digits dy = true)
  (Hz : all_digits dz = true)
  (Nx : dx <> []) (Ny : dy <> []) (Nz : dz <> [])
  (Lx : decimal dx <= INT_MAX) (Ly : decimal dy <= INT_MAX)
  (Lz : decimal dz <= INT_MAX) :
  ParseArgs pa [lit "cta=" ++ dx ++ "/"%char :: dy ++ "/"%char :: dz] =
  Ok (true, push_cta (set_flags pa true true)
              (PluginEntry.ctaid_conv (decimal dx) (decimal dy) (decimal dz))) /\
  ParseArgs pa [lit "cta=" ++ dx] =
  Ok (true, push_cta (set_flags pa true true)
              (PluginEntry.ctaid_conv (decimal dx) 0 0)).
Proof.
  assert (D : forall d c, all_digits d = true -> isdigit c = false -> ~ In c d)
    by (intros; now apply all_digits_not_in).
  assert (U : forall d, all_digits d = true -> decimal d <= INT_MAX ->
                        Int.u32 (decimal d) = decimal d).
  { intros d Hd Ld. apply IntFacts.u32_small.
    pose proof (decimal_nonneg d Hd). unfold INT_MAX in Ld. lia. }
  split.
  - rewrite single_option.
    + cbn [options_loop]. rewrite option_turn_cta.
      rewrite getlines_no_delim.
      * cbn [app cta_items].
        rewrite getlines_app_delim by (apply D; [assumption|reflexivity]).
        rewrite getlines_app_delim by (apply D; [assumption|reflexivity]).
        rewrite getlines_no_delim
          by (try (apply D; [assumption|reflexivity]); assumption).
        cbn [app cta_components Nat.ltb Nat.leb].
        rewrite Hx, Hy, Hz, !stoi_ok by assumption.
        cbn [firstn skipn app nth lift]. now rewrite !U by assumption.
      * apply not_in_app; [apply D; [assumption|reflexivity]|].
        intros [E|I]; [discriminate|]. revert I.
        apply not_in_app; [apply D; [assumption|reflexivity]|].
        intros [E|I]; [discriminate|]. revert I.
        apply D; [assumption|reflexivity].
      * cbn [app]. now destruct dx.
    + apply not_in_app; [cbn; intros [E|[E|[E|[E|[]]]]]; discriminate|].
      apply not_in_app; [apply D; [assumption|reflexivity]|].
      intros [E|I]; [discriminate|]. revert I.
      apply not_in_app; [apply D; [assumption|reflexivity]|].
      intros [E|I]; [discriminate|]. revert I.
      apply D; [assumption|reflexivity].
  - rewrite single_option.
    + cbn [options_loop]. rewrite option_turn_cta.
      rewrite getlines_no_delim
        by (try (apply D; [assumption|reflexivity]); assumption).
      cbn [app cta_items].
      rewrite getlines_no_delim
        by (try (apply D; [assumption|reflexivity]); assumption).
      cbn [app cta_components Nat.ltb Nat.leb].
      rewrite Hx, !stoi_ok by assumption.
      cbn [firstn skipn app nth lift cta_components]. now rewrite !U by assumption.
    + apply not_in_app; [cbn; intros [E|[E|[E|[E|[]]]]]; discriminate|].
      apply D; [assumption|reflexivity].
Qed.

Lemma ParseArgs_cta_coordinate_witness :
  ParseArgs pa_blank [lit "cta=" ++ lit "1" ++ "/"%char :: lit "2" ++ "/"%char :: lit "3"] =
  Ok (true, push_cta (set_flags pa_blank true true)
              (PluginEntry.ctaid_conv (decimal (lit "1")) (decimal (lit "2"))
                 (decimal (lit "3")))) /\
  ParseArgs pa_blank [lit "cta=" ++ lit "1"] =
  Ok (true, push_cta (set_flags pa_blank true true)
              (PluginEntry.ctaid_conv (decimal (lit "1")) 0 0)).
Proof.
  apply (ParseArgs_cta_coordinate pa_blank (lit "1") (lit "2") (lit "3"));
    try reflexivity; try discriminate; vm_compute; discriminate.
Defined.

End PluginArgsFacts.

(** ** Debug data and instruction ids *)

Module DebugDataFacts.
Import Stdlib.Strings.Ascii.
Import Symbols PluginArgs DevicePass DevicePassSpec PluginArgsFacts.

(** The loop, one turn at a time. *)
Lemma strip_dot_slash_eq (path : cstring) :
  strip_dot_slash path =
  match path with
  | c :: d :: rest =>
      if Ascii.eqb c "."%char && Ascii.eqb d "/"%char
      then strip_dot_slash rest else path
  | _ => path
  end.
Proof.
  destruct path as [|c [|d rest]]; [reflexivity| |].
  - destruct c as [[] [] [] [] [] [] [] []]; reflexivity.
  - destruct c as [[] [] [] [] [] [] [] []]; try reflexivity.
    destruct d as [[] [] [] [] [] [] [] []]; reflexivity.
Qed.

Lemma strip_dot_slash_aux (n : nat) : forall path,
  (List.length path <= n)%nat ->
  (exists k, path = dot_slashes k ++ strip_dot_slash path) /\
  startswith (strip_dot_slash path) (lit "./") = false.
Proof.
  induction n as [|n IH]; intros path L.
  - destruct path; [|cbn in L; lia]. split; [now exists 0%nat|reflexivity].
  - rewrite strip_dot_slash_eq. destruct path as [|c [|d rest]].
    + split; [now exists 0%nat|reflexivity].
    + split; [now exists 0%nat|].
      cbn. now rewrite andb_false_r.
    + destruct (Ascii.eqb c "."%char && Ascii.eqb d "/"%char) eqn:E.
      * apply andb_true_iff in E. destruct E as [Ec Ed].
        apply Ascii.eqb_eq in Ec, Ed. subst c d.
        destruct (IH rest) as [[k Hk] S]; [cbn in L; lia|].
        split; [|exact S].
        exists (Datatypes.S k). cbn [dot_slashes lit list_ascii_of_string app].
        now rewrite <- Hk.
      * split; [now exists 0%nat|].
        cbn [startswith lit list_ascii_of_string].
        replace (startswith rest []) with true by (now destruct rest).
        rewrite andb_true_r. exact E.
Qed.

(** X22.  The loop that prepares the file name of an instruction removes
    every leading "./" and nothing else: the path is some number of "./"
    followed by the result, and the result does not start with "./". *)
Theorem strip_dot_slash_removes_leading (path : cstring) :
  (exists k, path = dot_slashes k ++ strip_dot_slash path) /\
  startswith (strip_dot_slash path) (lit "./") = false.
Proof. now apply (strip_dot_slash_aux (List.length path)). Qed.

(** *** [std::to_string] and [std::stoi] *)

Lemma digit_char (k : Z) :
  0 <= k < 10 ->
  isdigit (ascii_of_nat (48 + Z.to_nat k)) = true /\
  Z.of_nat (nat_of_ascii (ascii_of_nat (48 + Z.to_nat k))) - 48 = k.
Proof.
  intros H. unfold isdigit. rewrite nat_ascii_embedding by lia.
  split; [|lia]. apply andb_true_iff. split; [apply Z.leb_le|apply Z.leb_le]; lia.
Qed.

Lemma to_string_digits_value (fuel : nat) : forall n acc,
  0 <= n < 10 ^ Z.of_nat fuel -> (1 <= fuel)%nat ->
  fold_left digit_step (to_string_digits fuel n acc) 0 = fold_left digit_step acc n.
Proof.
  induction fuel as [|fuel IH]; intros n acc Hn Hf; [lia|].
  cbn [to_string_digits].
  assert (Hm : 0 <= n mod 10 < 10) by (apply Z.mod_pos_bound; lia).
  destruct (digit_char _ Hm) as [_ Hd].
  destruct (Z.eqb_spec (n / 10) 0) as [E|E].
  - cbn [fold_left]. unfold digit_step at 2. rewrite Hd.
    f_equal. pose proof (Z.div_mod n 10 ltac:(lia)). lia.
  - rewrite Nat2Z.inj_succ, Z.pow_succ_r in Hn by lia.
    assert (Hq : 0 <= n / 10 < 10 ^ Z.of_nat fuel).
    { split; [apply Z.div_pos; lia|apply Z.div_lt_upper_bound; lia]. }
    destruct fuel as [|fuel'].
    { cbn in Hq. lia. }
    rewrite IH by (try assumption; lia).
    cbn [fold_left]. unfold digit_step at 2. rewrite Hd.
    f_equal. pose proof (Z.div_mod n 10 ltac:(lia)). lia.
Qed.

Lemma to_string_digits_digits (fuel : nat) : forall n acc,
  0 <= n -> all_digits acc = true ->
  all_digits (to_string_digits fuel n acc) = true.
Proof.
  induction fuel as [|fuel IH]; intros n acc Hn Ha; [exact Ha|].
  cbn [to_string_digits].
  assert (Hm : 0 <= n mod 10 < 10) by (apply Z.mod_pos_bound; lia).
  destruct (digit_char _ Hm) as [Hd _].
  assert (Ha' : all_digits (ascii_of_nat (48 + Z.to_nat (n mod 10)) :: acc) = true).
  { cbn [all_digits forallb]. rewrite Hd. exact Ha. }
  destruct (n / 10 =? 0); [exact Ha'|].
  apply IH; [apply Z.div_pos; lia|exact Ha'].
Qed.

Lemma to_string_digits_nonempty (fuel : nat) : forall n acc,
  (1 <= fuel)%nat -> to_string_digits fuel n acc <> [].
Proof.
  induction fuel as [|fuel IH]; intros n acc Hf; [lia|].
  cbn [to_string_digits]. destruct (n / 10 =? 0); [discriminate|].
  destruct fuel as [|fuel']; [discriminate|]. apply IH. lia.
Qed.

(** What [std::stoi] reads from what [std::to_string] printed. *)
Lemma stoi_to_string (n : Z) :
  0 <= n <= INT_MAX -> stoi (to_string n) = Ok n /\ all_digits (to_string n) = true.
Proof.
  intros H. unfold INT_MAX in H.
  assert (V : decimal (to_string n) = n).
  { unfold decimal, to_string.
    change (fun acc c => 10 * acc + (Z.of_nat (nat_of_ascii c) - 48)) with digit_step.
    rewrite to_string_digits_value; [reflexivity| |lia].
    change (10 ^ Z.of_nat 10) with 10000000000. lia. }
  split.
  - rewrite stoi_ok; [now rewrite V| |rewrite V; unfold INT_MAX; lia].
    apply to_string_digits_nonempty. lia.
  - apply to_string_digits_digits; [lia|reflexivity].
Qed.

(** *** From the collected accesses to the trace calls *)

Lemma access_kind_global (fuel : nat) (g : values) (i : instruction) :
  access_kind fuel g i = Some (Done (Some PointerKinds.PK_GLOBAL)) ->
  exists p ty, memory_access (op i) = Some (p, ty).
Proof.
  unfold access_kind, memory_access.
  destruct (op i) as [p|p|p|p|[name|] a| |]; try (intros _; eauto; fail);
    try discriminate.
  destruct (startswith name (lit "llvm.nvvm.atomic")); [intros _; eauto|].
  destruct (cstring_eqb name (lit "___cuprof_trace")); [discriminate|].
  destruct (negb (startswith name (lit "llvm."))); discriminate.
Qed.

(** The positions that [collectGlobalMemAccesses] returns are memory
    accesses of the kernel, in increasing order. *)
Lemma collect_from_spec (fuel : nat) (g : values) (body : kernel_body) :
  forall pos accs,
  collect_from fuel g body pos = Some (Done accs) ->
  Forall (fun p => (pos <= p)%nat /\
                   exists i, nth_error body (p - pos) = Some i /\
                             memory_access (op i) <> None) accs /\
  NoDup accs.
Proof.
  induction body as [|i rest IH]; intros pos accs H.
  - injection H as <-. split; constructor.
  - cbn [collect_from] in H.
    destruct (access_kind fuel g i) as [[k|m]|] eqn:K; try discriminate.
    destruct (collect_from fuel g rest (S pos)) as [[result|m]|] eqn:R;
      try discriminate.
    destruct (IH _ _ R) as [F N].
    assert (F' : Forall (fun p => (pos <= p)%nat /\
                   exists i0, nth_error (i :: rest) (p - pos) = Some i0 /\
                              memory_access (op i0) <> None) result).
    { eapply Forall_impl; [|exact F]. cbn beta. intros p (L & i0 & E & A).
      split; [lia|]. exists i0. split; [|exact A].
      replace (p - pos)%nat with (S (p - S pos)) by lia. exact E. }
    destruct k as [[| |]|]; injection H as <-; try (split; assumption).
    split.
    + constructor; [|exact F'].
      split; [lia|]. exists i. rewrite Nat.sub_diag. split; [reflexivity|].
      destruct (access_kind_global _ _ _ K) as (p & ty & E). congruence.
    + constructor; [|exact N]. intros I.
      rewrite Forall_forall in F. apply F in I. lia.
Qed.

Lemma getMetadata_cons_other (md : metadata) (p q : nat) (s : cstring) :
  p <> q -> getMetadata ((p, s) :: md) q = getMetadata md q.
Proof.
  intros N. cbn [getMetadata]. destruct (Nat.eqb_spec p q); [contradiction|reflexivity].
Qed.

(** The loop of [setupAndGetKernelDebugData]: ids and metadata. *)
Lemma debug_entries_spec (body : kernel_body) (inst_list : list nat) :
  forall id md nf entries md' last nf',
  debug_entries body inst_list id md nf = (entries, md', last, nf') ->
  NoDup inst_list ->
  0 <= id -> id + Z.of_nat (List.length inst_list) < 2 ^ 32 ->
  last = id + Z.of_nat (List.length inst_list) /\
  map inst_id entries
  = map (fun k => id + Z.of_nat (S k)) (seq 0 (List.length inst_list)) /\
  (forall k, (k < List.length inst_list)%nat ->
             getMetadata md' (nth k inst_list 0%nat)
             = Some (to_string (id + Z.of_nat (S k)))) /\
  (forall p, ~ In p inst_list -> getMetadata md' p = getMetadata md p).
Proof.
  induction inst_list as [|pos rest IH];
    intros id md nf entries md' last nf' H ND Hid Hn.
  - injection H as <- <- <- <-. cbn [List.length]. repeat split; try lia.
  - cbn [debug_entries] in H. cbn [List.length] in Hn |- *.
    assert (U : Int.u32 (id + 1) = id + 1) by (apply IntFacts.u32_small; lia).
    rewrite U in H.
    destruct (match nth_error body pos with
              | Some {| debug_loc := Some loc |} => _
              | _ => _
              end) as [entry nf1] eqn:EN in H.
    destruct (debug_entries body rest (id + 1) ((pos, to_string (id + 1)) :: md) nf1)
      as [[[entries1 md1] last1] nf2] eqn:R.
    injection H as <- <- <- <-.
    inversion ND as [|? ? Hnotin ND']; subst.
    destruct (IH _ _ _ _ _ _ _ R ND' ltac:(lia) ltac:(lia)) as (L & I & G & O).
    assert (Eid : inst_id entry = id + 1).
    { destruct (nth_error body pos) as [[o sz [loc|]]|];
        injection EN as <- _; reflexivity. }
    repeat split.
    + lia.
    + cbn [map seq]. rewrite Eid. f_equal; try lia.
      rewrite <- seq_shift, map_map. rewrite I. apply map_ext. intros k. lia.
    + intros [|k] Hk.
      * cbn [nth]. rewrite O by assumption.
        cbn [getMetadata]. rewrite Nat.eqb_refl. do 2 f_equal; lia.
      * cbn [nth]. rewrite G by lia. do 2 f_equal; lia.
    + intros p Hp. rewrite O by (intros I2; apply Hp; now right).
      apply getMetadata_cons_other. intros ->. apply Hp. now left.
Qed.

Lemma instrument_one_ok (body : kernel_body) (md : metadata) (pos : nat)
  (i : instruction) (p : nat) (ty : record_type) (k : Z) :
  nth_error body pos = Some i ->
  memory_access (op i) = Some (p, ty) ->
  getMetadata md pos = Some (to_string k) ->
  0 <= k <= INT_MAX ->
  instrument_one body md pos =
  inr {| call_pos := pos; call_addr := p; call_inst_id := k;
         call_size := Int.u16 (store_size i); call_type := ty |}.
Proof.
  intros Hn Hm Hg Hk. unfold instrument_one. rewrite Hn, Hg.
  destruct (stoi_to_string k Hk) as [S _]. rewrite S.
  assert (U : Int.u32 k = k) by (apply IntFacts.u32_small; unfold INT_MAX in Hk; lia).
  rewrite U. unfold memory_access in Hm.
  destruct (op i) as [q|q|q|q|[name|] a| |]; try discriminate;
    try (injection Hm as <- <-; reflexivity).
  destruct (startswith name (lit "llvm.nvvm.atomic")); [|discriminate].
  injection Hm as <- <-. reflexivity.
Qed.

Lemma instrument_all (body : kernel_body) (md : metadata) (l : list nat) :
  forall base,
  (forall k, (k < List.length l)%nat ->
     (exists i, nth_error body (nth k l 0%nat) = Some i /\
                memory_access (op i) <> None) /\
     getMetadata md (nth k l 0%nat) = Some (to_string (base + Z.of_nat (S k)))) ->
  0 <= base -> base + Z.of_nat (List.length l) <= INT_MAX ->
  exists calls,
    instrumentMemAccess body md l = inr calls /\
    map call_pos calls = l /\
    map call_inst_id calls
    = map (fun k => base + Z.of_nat (S k)) (seq 0 (List.length l)) /\
    Forall (fun c => exists i, nth_error body (call_pos c) = Some i /\
                               memory_access (op i) = Some (call_addr c, call_type c) /\
                               call_size c = Int.u16 (store_size i)) calls.
Proof.
  induction l as [|pos rest IH]; intros base H Hb Hn.
  - exists []. repeat split; constructor.
  - cbn [List.length] in *.
    destruct (H 0%nat ltac:(lia)) as ((i & Ei & Ai) & Gi). cbn [nth] in Ei, Gi.
    destruct (memory_access (op i)) as [[p ty]|] eqn:Em; [|contradiction].
    destruct (IH (base + 1)) as (calls & Ic & Pc & Idc & Fc).
    { intros k Hk. destruct (H (S k) ltac:(lia)) as (A & G). cbn [nth] in A, G.
      split; [exact A|]. rewrite G. do 2 f_equal; lia. }
    { lia. }
    { lia. }
    cbn [instrumentMemAccess].
    rewrite (instrument_one_ok body md pos i p ty (base + Z.of_nat 1))
      by (try assumption; lia).
    rewrite Ic. eexists. split; [reflexivity|]. cbn [map call_pos call_inst_id seq].
    split; [now rewrite Pc|]. split.
    + f_equal. rewrite Idc, <- seq_shift, map_map. apply map_ext. intros k. lia.
    + constructor; [|exact Fc]. exists i. cbn. auto.
Qed.

(** X23.  The accesses that [collectGlobalMemAccesses] returns go through
    the rest of the pass without an error and keep their numbers: with at
    most [INT_MAX] of them, [setupAndGetKernelDebugData] numbers them
    1, 2, ... in the debug header, whose count is their number, and
    [instrumentMemAccess], reading the ids back from the metadata, inserts
    one trace call per access, at that access, with the same id, the record
    type of the instruction and its store size as a 16-bit number. *)
Theorem collected_accesses_keep_their_ids
  (fuel : nat) (g : values) (body : kernel_body) (kernel_name : cstring)
  (md : metadata) (accs : list nat)
  (Hc : collectGlobalMemAccesses fuel g body = Some (Done accs))
  (Hn : Z.of_nat (List.length accs) <= INT_MAX) :
  exists hdr md' ok calls,
    setupAndGetKernelDebugData kernel_name body accs md = (hdr, md', ok) /\
    instrumentMemAccess body md' accs = inr calls /\
    insts_count hdr = Z.of_nat (List.length accs) /\
    map inst_id (insts hdr)
    = map (fun k => Z.of_nat (S k)) (seq 0 (List.length accs)) /\
    map call_inst_id calls = map inst_id (insts hdr) /\
    map call_pos calls = accs /\
    Forall (fun c => exists i, nth_error body (call_pos c) = Some i /\
                               memory_access (op i) = Some (call_addr c, call_type c) /\
                               call_size c = Int.u16 (store_size i)) calls.
Proof.
  unfold collectGlobalMemAccesses in Hc.
  destruct (collect_from_spec _ _ _ _ _ Hc) as [F ND].
  unfold setupAndGetKernelDebugData.
  destruct (debug_entries body accs 0 md false) as [[[entries md'] last] nf] eqn:D.
  unfold INT_MAX in Hn.
  destruct (debug_entries_spec _ _ _ _ _ _ _ _ _ D ND ltac:(lia) ltac:(lia))
    as (L & I & G & _).
  destruct (instrument_all body md' accs 0) as (calls & Ic & Pc & Idc & Fc).
  { intros k Hk. split; [|now apply G].
    rewrite Forall_forall in F.
    destruct (F (nth k accs 0%nat) (nth_In _ _ Hk)) as (_ & i & E & A).
    rewrite Nat.sub_0_r in E. eauto. }
  { lia. }
  { unfold INT_MAX. lia. }
  do 4 eexists. split; [reflexivity|]. cbn [insts_count insts].
  split; [exact Ic|]. split; [lia|]. split; [exact I|].
  split; [now rewrite Idc, I|]. split; [exact Pc|exact Fc].
Qed.

Lemma collected_accesses_keep_their_ids_witness :
  collectGlobalMemAccesses 20 SampleKernel.sample_values SampleKernel.sample_body
  = Some (Done [0%nat; 3%nat]) /\
  exists hdr md' ok calls,
    setupAndGetKernelDebugData (lit "k") SampleKernel.sample_body [0%nat; 3%nat] []
    = (hdr, md', ok) /\
    instrumentMemAccess SampleKernel.sample_body md' [0%nat; 3%nat] = inr calls /\
    insts_count hdr = 2 /\
    map inst_id (insts hdr) = [1; 2] /\
    map call_inst_id calls = map inst_id (insts hdr) /\
    map call_pos calls = [0%nat; 3%nat] /\
    Forall (fun c => exists i,
              nth_error SampleKernel.sample_body (call_pos c) = Some i /\
              memory_access (op i) = Some (call_addr c, call_type c) /\
              call_size c = Int.u16 (store_size i)) calls.
Proof.
  split; [reflexivity|].
  apply (collected_accesses_keep_their_ids 20 SampleKernel.sample_values
           SampleKernel.sample_body (lit "k") [] [0%nat; 3%nat]);
    [reflexivity|vm_compute; discriminate].
Defined.

End DebugDataFacts.

(** ** The pointer kind analysis *)

Module PointerKindFacts.
Import Symbols PluginArgs PointerKinds DevicePass DevicePassSpec PointerGraph.

(** *** One turn of the loop *)

Lemma loop_turn (fuel cfuel : nat) (g : values) (is_kernel : bool)
  (node : nat) (stack seen : list nat) (kind : PointerKind) :
  getPointerKind_loop (S fuel) cfuel g is_kernel (node :: stack) seen kind =
  if seen_count seen node
  then getPointerKind_loop fuel cfuel g is_kernel stack seen kind
  else
    match skip_casts cfuel g node with
    | None => None
    | Some n =>
        if is_call_value (g n)
        then Some (Fatal (lit "Base Pointer is result of function. No."))
        else getPointerKind_loop fuel cfuel g is_kernel
               (rev (operands (g n)) ++ stack) (node :: seen)
               match contribution is_kernel (g n) with
               | Some c => mergePointerKinds kind c
               | None => kind
               end
    end.
Proof.
  cbn [getPointerKind_loop]. destruct (seen_count seen node); [reflexivity|].
  destruct (skip_casts cfuel g node) as [n|]; [|reflexivity].
  destruct (g n); reflexivity.
Qed.

Lemma seen_count_In (seen : list nat) (v : nat) :
  seen_count seen v = true <-> In v seen.
Proof.
  unfold seen_count. rewrite existsb_exists. split.
  - intros (x & I & E). apply Nat.eqb_eq in E. now subst.
  - intros I. exists v. split; [exact I|apply Nat.eqb_refl].
Qed.

Lemma skip_casts_strips (g : values) (fuel : nat) : forall v n,
  skip_casts fuel g v = Some n -> strips g v n.
Proof.
  induction fuel as [|fuel IH]; intros v n H; [discriminate|].
  cbn [skip_casts] in H. destruct (g v) eqn:E;
    try (injection H as <-; apply strips_here; intros o; congruence).
  eapply strips_cast; [exact E|now apply IH].
Qed.

Lemma strips_functional (g : values) (v n n' : nat) :
  strips g v n -> strips g v n' -> n = n'.
Proof.
  intros H. revert n'. induction H as [v Hv|v o n E _ IH]; intros n' H'.
  - destruct H' as [|v o' n' E']; [reflexivity|]. exfalso. exact (Hv _ E').
  - destruct H' as [v Hv|v o' n' E' H'].
    + exfalso. exact (Hv _ E).
    + rewrite E in E'. injection E' as <-. now apply IH.
Qed.

Lemma skip_casts_more (g : values) (fuel : nat) : forall fuel' v n,
  skip_casts fuel g v = Some n -> (fuel <= fuel')%nat ->
  skip_casts fuel' g v = Some n.
Proof.
  induction fuel as [|fuel IH]; intros fuel' v n H L; [discriminate|].
  destruct fuel' as [|fuel']; [lia|]. cbn [skip_casts] in *.
  destruct (g v); try exact H. apply IH; [exact H|lia].
Qed.

Lemma skip_casts_enough (g : values) (fuel : nat) : forall v,
  casts_descend g -> (v < fuel)%nat -> exists n, skip_casts fuel g v = Some n.
Proof.
  induction fuel as [|fuel IH]; intros v C L; [lia|].
  cbn [skip_casts]. destruct (g v) eqn:E; eauto.
  apply IH; [exact C|]. apply C in E. lia.
Qed.

(** *** What a result means *)

Section Meaning.
Variables (g : values) (is_kernel : bool) (val : nat).

Lemma invariant_at_end (seen : list nat) (kind : PointerKind) :
  loop_invariant g is_kernel val [] seen kind -> is_least_kind g is_kernel val kind.
Proof.
  intros (I1 & I2 & I3 & I4 & I5 & I6).
  assert (All : forall v, reach g val v -> In v seen).
  { intros v R. induction R as [|v w _ IH E].
    - destruct I3 as [H|[]]. exact H.
    - destruct (I2 _ _ IH E) as [H|[]]. exact H. }
  repeat split.
  - intros v c R C. apply (I4 v c); auto.
  - destruct I5 as [H|(v & Hv & C)]; [now left|right].
    exists v. split; [apply I1; now left|exact C].
  - intros v R. apply I6. now apply All.
Qed.

Lemma invariant_seen (node : nat) (stack seen : list nat) (kind : PointerKind) :
  In node seen ->
  loop_invariant g is_kernel val (node :: stack) seen kind -> loop_invariant g is_kernel val stack seen kind.
Proof.
  intros S (I1 & I2 & I3 & I4 & I5 & I6). repeat split; auto.
  - intros v [H|H]; apply I1; [now left|right; now right].
  - intros v w Hv E. destruct (I2 _ _ Hv E) as [H|[<-|H]]; auto.
  - destruct I3 as [H|[<-|H]]; auto.
Qed.

Lemma merge_cases (kind c : PointerKind) :
  enum_value (mergePointerKinds kind c) <= enum_value kind /\
  enum_value (mergePointerKinds kind c) <= enum_value c /\
  (mergePointerKinds kind c = c \/
   (mergePointerKinds kind c = kind /\ kind <> PK_UNINITIALIZED) \/
   c = PK_UNINITIALIZED).
Proof.
  destruct kind, c; cbn; repeat split; try lia; auto;
    right; left; split; [reflexivity|discriminate].
Qed.

Lemma contribution_not_uninit (x : value) (c : PointerKind) :
  contribution is_kernel x = Some c -> c <> PK_UNINITIALIZED.
Proof.
  destruct x; cbn; try discriminate; intros E; injection E as <-;
    try discriminate. now destruct is_kernel.
Qed.

Lemma invariant_visit (node n : nat) (stack seen : list nat) (kind : PointerKind) :
  ~ In node seen -> strips g node n -> is_call_value (g n) = false ->
  loop_invariant g is_kernel val (node :: stack) seen kind ->
  loop_invariant g is_kernel val (rev (operands (g n)) ++ stack) (node :: seen)
    match contribution is_kernel (g n) with
    | Some c => mergePointerKinds kind c
    | None => kind
    end.
Proof.
  intros NS St NC (I1 & I2 & I3 & I4 & I5 & I6).
  assert (Rn : reach g val node) by (apply I1; right; now left).
  repeat split.
  - intros v [[<-|H]|H]; [exact Rn|apply I1; now left|].
    apply in_app_or in H. destruct H as [H|H].
    + apply in_rev in H. eapply reach_step; [exact Rn|]. now exists n.
    + apply I1. right. now right.
  - intros v w [<-|Hv] E.
    + destruct E as (n' & St' & Iw).
      rewrite (strips_functional _ _ _ _ St' St) in Iw.
      right. apply in_or_app. left. now apply in_rev in Iw.
    + destruct (I2 _ _ Hv E) as [H|[<-|H]].
      * left. now right.
      * left. now left.
      * right. apply in_or_app. now right.
  - destruct I3 as [H|[<-|H]].
    + left. now right.
    + left. now left.
    + right. apply in_or_app. now right.
  - intros v c [<-|Hv] C.
    + destruct C as (n' & St' & Cn).
      rewrite (strips_functional _ _ _ _ St' St) in Cn. rewrite Cn.
      apply merge_cases.
    + pose proof (I4 _ _ Hv C) as L.
      destruct (contribution is_kernel (g n)) as [c0|]; [|exact L].
      pose proof (merge_cases kind c0) as (M & _). lia.
  - destruct (contribution is_kernel (g n)) as [c0|] eqn:Cn.
    + destruct (merge_cases kind c0) as (_ & _ & [M|[[M K]|M]]).
      * right. exists node. split; [now left|]. rewrite M. now exists n.
      * rewrite M. destruct I5 as [H|(v & Hv & C)]; [contradiction|].
        right. exists v. split; [now right|exact C].
      * exfalso. exact (contribution_not_uninit _ _ Cn M).
    + destruct I5 as [H|(v & Hv & C)]; [now left|].
      right. exists v. split; [now right|exact C].
  - intros v [<-|Hv] (n' & St' & Cl).
    + rewrite (strips_functional _ _ _ _ St' St) in Cl. rewrite Cl in NC. discriminate.
    + apply (I6 _ Hv). now exists n'.
Qed.

Lemma loop_meaning (cfuel fuel : nat) : forall stack seen kind r,
  getPointerKind_loop fuel cfuel g is_kernel stack seen kind = Some r ->
  loop_invariant g is_kernel val stack seen kind ->
  match r with
  | Done k => is_least_kind g is_kernel val k
  | Fatal _ => exists v, reach g val v /\ is_call g v
  end.
Proof.
  induction fuel as [|fuel IH]; intros stack seen kind r H Inv; [discriminate|].
  destruct stack as [|node stack].
  - injection H as <-. now apply (invariant_at_end seen).
  - rewrite loop_turn in H. destruct (seen_count seen node) eqn:S.
    + apply (IH _ _ _ _ H). apply (invariant_seen node); [|exact Inv].
      now apply seen_count_In.
    + destruct (skip_casts cfuel g node) as [n|] eqn:K; [|discriminate].
      apply skip_casts_strips in K.
      destruct (is_call_value (g n)) eqn:C.
      * injection H as <-. exists node. split.
        -- destruct Inv as (I1 & _). apply I1. right. now left.
        -- exists n. split; [exact K|]. now destruct (g n).
      * apply (IH _ _ _ _ H). apply invariant_visit; try assumption.
        intros I. apply seen_count_In in I. congruence.
Qed.

End Meaning.

Lemma getPointerKind_meaning
  (fuel : nat) (g : values) (val : nat) (is_kernel : bool) (r : outcome PointerKind) :
  getPointerKind fuel g val is_kernel = Some r ->
  match r with
  | Done kind => is_least_kind g is_kernel val kind
  | Fatal _ => exists v, reach g val v /\ is_call g v
  end.
Proof.
  unfold getPointerKind. intros H.
  apply (loop_meaning g is_kernel val fuel fuel _ _ _ _ H).
  repeat split.
  - intros v [[]|[<-|[]]]. apply reach_start.
  - intros v w [].
  - right. now left.
  - intros v c [].
  - now left.
  - intros v [].
Qed.

(** *** The loop ends *)

Lemma weight_on_cons (g : values) (seen : list nat) (a : nat) (l : list nat) :
  weight_on g seen (a :: l)
  = ((if seen_count seen a then 0 else S (List.length (pushed g a)))
     + weight_on g seen l)%nat.
Proof. reflexivity. Qed.

Lemma seen_count_cons (v : nat) (seen : list nat) (a : nat) :
  seen_count (v :: seen) a = Nat.eqb a v || seen_count seen a.
Proof. reflexivity. Qed.

Lemma weight_on_cons_le (g : values) (v : nat) (seen l : list nat) :
  (weight_on g (v :: seen) l <= weight_on g seen l)%nat.
Proof.
  induction l as [|a l IH]; [apply Nat.le_refl|].
  rewrite !weight_on_cons, seen_count_cons.
  destruct (Nat.eqb a v), (seen_count seen a); cbn [orb]; lia.
Qed.

Lemma weight_on_cons_in (g : values) (v : nat) (seen l : list nat) :
  NoDup l -> In v l -> seen_count seen v = false ->
  (weight_on g (v :: seen) l + S (List.length (pushed g v)) <= weight_on g seen l)%nat.
Proof.
  intros ND. induction ND as [|a l NI ND IH]; intros I S; [destruct I|].
  pose proof (weight_on_cons_le g v seen l) as LE.
  rewrite !weight_on_cons, seen_count_cons.
  destruct I as [->|I].
  - rewrite Nat.eqb_refl, S. cbn [orb]. lia.
  - specialize (IH I S). destruct (Nat.eqb_spec a v) as [->|NE]; [contradiction|].
    cbn [orb]. destruct (seen_count seen a); lia.
Qed.

Lemma pushed_operands (g : values) (cfuel v n : nat) :
  casts_descend g -> skip_casts cfuel g v = Some n -> pushed g v = operands (g n).
Proof.
  intros C K. unfold pushed.
  destruct (skip_casts_enough g (S v) v C ltac:(lia)) as [n' K'].
  rewrite K'. apply skip_casts_strips in K, K'.
  now rewrite (strips_functional _ _ _ _ K' K).
Qed.

Lemma loop_terminates (g : values) (N : nat) (is_kernel : bool) (cfuel : nat) :
  finite_below g N -> casts_descend g -> (N < cfuel)%nat ->
  forall fuel stack seen kind,
  (List.length stack + weight g N seen < fuel)%nat ->
  exists r, getPointerKind_loop fuel cfuel g is_kernel stack seen kind = Some r.
Proof.
  intros F C L. induction fuel as [|fuel IH]; intros stack seen kind H; [lia|].
  destruct stack as [|node stack]; [eexists; reflexivity|].
  rewrite loop_turn. cbn [List.length] in H.
  destruct (seen_count seen node) eqn:S; [apply IH; lia|].
  destruct (le_lt_dec N node) as [Out|In_].
  - assert (K : skip_casts cfuel g node = Some node).
    { destruct cfuel as [|c]; [lia|]. cbn [skip_casts]. now rewrite (F _ Out). }
    rewrite K, (F _ Out). cbn [is_call_value operands rev app contribution].
    apply IH. pose proof (weight_on_cons_le g node seen (seq 0 N)). unfold weight in *. lia.
  - destruct (skip_casts_enough g cfuel node C ltac:(lia)) as [n K]. rewrite K.
    destruct (is_call_value (g n)); [eexists; reflexivity|].
    apply IH. rewrite length_app, length_rev, <- (pushed_operands g cfuel node n C K).
    pose proof (weight_on_cons_in g node seen (seq 0 N) (seq_NoDup N 0)
                  ltac:(apply in_seq; lia) S).
    unfold weight in *. lia.
Qed.

Lemma startswith_app (name p q : cstring) :
  startswith name (p ++ q) = true -> startswith name p = true.
Proof.
  revert name. induction p as [|c p IH]; intros name H; [now destruct name|].
  destruct name as [|d name]; [discriminate|]. cbn [app startswith] in *.
  apply andb_true_iff in H. destruct H as [H1 H2].
  rewrite H1. cbn [andb]. now apply IH.
Qed.

(** *** The instructions that are collected *)

Lemma access_kind_global_iff (fuel : nat) (g : values) (i : instruction) :
  access_kind fuel g i = Some (Done (Some PK_GLOBAL)) <->
  exists ptr ty, memory_access (op i) = Some (ptr, ty) /\
                 getPointerKind fuel g ptr true = Some (Done PK_GLOBAL).
Proof.
  unfold access_kind, memory_access.
  assert (P : forall (p : nat) (ty : record_type),
    match getPointerKind fuel g p true with
    | None => None
    | Some (Done k) => Some (Done (Some k))
    | Some (Fatal m) => Some (Fatal m)
    end = Some (Done (Some PK_GLOBAL)) <->
    exists ptr ty', Some (p, ty) = Some (ptr, ty') /\
                    getPointerKind fuel g ptr true = Some (Done PK_GLOBAL)).
  { intros p ty. split.
    - intros H. exists p, ty. split; [reflexivity|].
      destruct (getPointerKind fuel g p true) as [[k|m]|]; congruence.
    - intros (ptr & ty' & E & H). injection E as <- <-. now rewrite H. }
  assert (Q : forall x : option (outcome (option PointerKind)),
    x <> Some (Done (Some PK_GLOBAL)) ->
    x = Some (Done (Some PK_GLOBAL)) <->
    exists (ptr : nat) (ty : record_type),
      @None (nat * record_type) = Some (ptr, ty) /\
      getPointerKind fuel g ptr true = Some (Done PK_GLOBAL)).
  { intros x N. split; [contradiction|]. intros (? & ? & E & _). discriminate. }
  destruct (op i) as [p|p|p|p|[name|] a| |]; try apply P; try (apply Q; discriminate).
  destruct (startswith name (lit "llvm.nvvm.atomic")); [apply P|].
  apply Q. destruct (cstring_eqb name (lit "___cuprof_trace")); [discriminate|].
  destruct (negb (startswith name (lit "llvm."))); discriminate.
Qed.

Lemma collect_from_iff (fuel : nat) (g : values) (body : kernel_body) :
  forall pos accs,
  collect_from fuel g body pos = Some (Done accs) ->
  forall p, In p accs <->
    (pos <= p)%nat /\
    exists i ptr ty, nth_error body (p - pos) = Some i /\
                     memory_access (op i) = Some (ptr, ty) /\
                     getPointerKind fuel g ptr true = Some (Done PK_GLOBAL).
Proof.
  induction body as [|i rest IH]; intros pos accs H p.
  - injection H as <-. split; [intros []|].
    intros (_ & i & ? & ? & E & _). now destruct (p - pos)%nat.
  - cbn [collect_from] in H.
    destruct (access_kind fuel g i) as [[k|m]|] eqn:K; try discriminate.
    destruct (collect_from fuel g rest (S pos)) as [[result|m]|] eqn:R;
      try discriminate.
    specialize (IH _ _ R p).
    assert (T : In p result <->
      (pos < p)%nat /\
      exists i0 ptr ty, nth_error (i :: rest) (p - pos) = Some i0 /\
                        memory_access (op i0) = Some (ptr, ty) /\
                        getPointerKind fuel g ptr true = Some (Done PK_GLOBAL)).
    { rewrite IH. split; intros (Lp & i0 & ptr & ty & E & A).
      - split; [lia|]. exists i0, ptr, ty. split; [|exact A].
        replace (p - pos)%nat with (S (p - S pos)) by lia. exact E.
      - split; [lia|]. exists i0, ptr, ty. split; [|exact A].
        replace (p - pos)%nat with (S (p - S pos)) in E by lia. exact E. }
    assert (G : k = Some PK_GLOBAL \/ (k <> Some PK_GLOBAL /\ accs = result)).
    { destruct k as [[| |]|]; injection H as <-; auto; right; split;
        try reflexivity; discriminate. }
    destruct G as [->|[NG ->]].
    + injection H as <-. cbn [In]. rewrite T. split.
      * intros [<-|(Lp & Ex)]; [|split; [lia|exact Ex]].
        split; [lia|]. exists i. rewrite Nat.sub_diag.
        apply access_kind_global_iff in K. destruct K as (ptr & ty & A).
        exists ptr, ty. split; [reflexivity|exact A].
      * intros (Lp & Ex). destruct (Nat.eq_dec pos p) as [E|NE]; [now left|].
        right. split; [lia|exact Ex].
    + rewrite T. split.
      * intros (Lp & Ex). split; [lia|exact Ex].
      * intros (Lp & i0 & ptr & ty & E & A). split; [|now exists i0, ptr, ty].
        destruct (Nat.eq_dec pos p) as [<-|NE]; [|lia]. exfalso.
        rewrite Nat.sub_diag in E. injection E as <-.
        apply NG. f_equal.
        assert (X : access_kind fuel g i = Some (Done (Some PK_GLOBAL)))
          by (apply access_kind_global_iff; now exists ptr, ty).
        congruence.
Qed.

Lemma collect_from_sorted (fuel : nat) (g : values) (body : kernel_body) :
  forall pos accs,
  collect_from fuel g body pos = Some (Done accs) ->
  Forall (fun p => (pos <= p)%nat) accs /\ StronglySorted lt accs.
Proof.
  induction body as [|i rest IH]; intros pos accs H.
  - injection H as <-. split; constructor.
  - cbn [collect_from] in H.
    destruct (access_kind fuel g i) as [[k|m]|]; try discriminate.
    destruct (collect_from fuel g rest (S pos)) as [[result|m]|] eqn:R;
      try discriminate.
    destruct (IH _ _ R) as [F S].
    assert (F' : Forall (fun p => (pos < p)%nat) result).
    { eapply Forall_impl; [|exact F]. cbn beta. lia. }
    assert (F'' : Forall (fun p => (pos <= p)%nat) result).
    { eapply Forall_impl; [|exact F]. cbn beta. lia. }
    destruct k as [[| |]|]; injection H as <-; try (split; assumption).
    split; constructor; auto.
Qed.

Lemma access_kind_memory (fuel : nat) (g : values) (i : instruction)
  (ptr : nat) (ty : record_type) :
  memory_access (op i) = Some (ptr, ty) ->
  access_kind fuel g i =
  match getPointerKind fuel g ptr true with
  | None => None
  | Some (Done k) => Some (Done (Some k))
  | Some (Fatal m) => Some (Fatal m)
  end.
Proof.
  unfold access_kind, memory_access.
  destruct (op i) as [p|p|p|p|[name|] a| |]; try discriminate;
    try (intros E; injection E as <- _; reflexivity).
  destruct (startswith name (lit "llvm.nvvm.atomic")); [|discriminate].
  intros E. injection E as <- _. reflexivity.
Qed.

(** When the collection returns a list, every instruction was looked at and
    none of them ended the pass. *)
Lemma collect_from_all_done (fuel : nat) (g : values) (body : kernel_body) :
  forall pos accs,
  collect_from fuel g body pos = Some (Done accs) ->
  forall q i, nth_error body q = Some i ->
  exists k, access_kind fuel g i = Some (Done k).
Proof.
  induction body as [|j rest IH]; intros pos accs H q i E;
    [now destruct q|].
  cbn [collect_from] in H.
  destruct (access_kind fuel g j) as [[k|m]|] eqn:K; try discriminate.
  destruct (collect_from fuel g rest (S pos)) as [[result|m]|] eqn:R;
    try discriminate.
  destruct q as [|q].
  - injection E as <-. now exists k.
  - exact (IH _ _ R q i E).
Qed.

(** The kind [PK_GLOBAL] of a pointer of a kernel, in terms of the values
    it is traced back to. *)
Lemma global_kind_meaning (fuel : nat) (g : values) (ptr : nat) :
  getPointerKind fuel g ptr true = Some (Done PK_GLOBAL) ->
  (exists v n, reach g ptr v /\ strips g v n /\
               (g n = VGlobal \/ g n = VArgument)) /\
  (forall v n, reach g ptr v -> strips g v n -> g n <> VAlloca).
Proof.
  intros K. apply getPointerKind_meaning in K.
  destruct K as (Least & Some_ & _). split.
  - destruct Some_ as [U|(v & R & n & St & C)]; [discriminate|].
    exists v, n. split; [exact R|]. split; [exact St|].
    destruct (g n); cbn in C; try discriminate; auto.
  - intros v n R St G. specialize (Least v PK_OTHER R).
    assert (C : contributes g true v PK_OTHER)
      by (exists n; split; [exact St|now rewrite G]).
    specialize (Least C). cbn in Least. lia.
Qed.

Lemma kind_of_traced_values (g : values) (ptr : nat) (k : PointerKind) :
  is_least_kind g true ptr k ->
  (exists v n, reach g ptr v /\ strips g v n /\
               (g n = VGlobal \/ g n = VArgument)) ->
  (forall v n, reach g ptr v -> strips g v n -> g n <> VAlloca) ->
  k = PK_GLOBAL.
Proof.
  intros (Least & Some_ & _) (v & n & R & St & G) NoLocal.
  assert (C : contributes g true v PK_GLOBAL).
  { exists n. split; [exact St|]. destruct G as [G|G]; now rewrite G. }
  specialize (Least v PK_GLOBAL R C).
  destruct k; [|reflexivity|cbn in Least; lia].
  destruct Some_ as [U|(v' & R' & n' & St' & C')]; [discriminate|].
  exfalso. apply (NoLocal v' n' R' St').
  destruct (g n'); cbn in C'; try discriminate; reflexivity.
Qed.

(** With enough turns every instruction gets an answer. *)
Lemma access_kind_returns (fuel : nat) (g : values) (N : nat) (i : instruction) :
  finite_below g N -> casts_descend g -> (enough_fuel g N <= fuel)%nat ->
  exists r, access_kind fuel g i = Some r.
Proof.
  intros F C L. unfold access_kind.
  assert (P : forall p, exists r,
    match getPointerKind fuel g p true with
    | None => None
    | Some (Done k) => Some (Done (Some k))
    | Some (Fatal m) => Some (Fatal m)
    end = Some r).
  { intros p. unfold getPointerKind. unfold enough_fuel in L.
    destruct (loop_terminates g N true fuel F C ltac:(lia) fuel [p] []
                PK_UNINITIALIZED ltac:(cbn [List.length]; lia)) as [[k|m] E];
      rewrite E; eexists; reflexivity. }
  destruct (op i) as [p|p|p|p|[name|] a| |]; try apply P;
    try (eexists; reflexivity).
  destruct (startswith name (lit "llvm.nvvm.atomic")); [apply P|].
  destruct (cstring_eqb name (lit "___cuprof_trace")); [eexists; reflexivity|].
  destruct (negb (startswith name (lit "llvm."))); eexists; reflexivity.
Qed.

Lemma access_kind_fatal_call (fuel : nat) (g : values) (i : instruction)
  (name : cstring) (a : nat) :
  op i = ICall (Some name) a -> startswith name (lit "llvm.") = false ->
  exists msg, access_kind fuel g i = Some (Fatal msg).
Proof.
  intros O Hs. unfold access_kind. rewrite O.
  destruct (startswith name (lit "llvm.nvvm.atomic")) eqn:A.
  - apply (startswith_app name (lit "llvm.") (lit "nvvm.atomic")) in A. congruence.
  - destruct (cstring_eqb name (lit "___cuprof_trace")); [eexists; reflexivity|].
    rewrite Hs. eexists. reflexivity.
Qed.

Lemma collect_from_fatal (fuel : nat) (g : values) (N : nat) (body : kernel_body) :
  finite_below g N -> casts_descend g -> (enough_fuel g N <= fuel)%nat ->
  forall pos i name a,
  In i body -> op i = ICall (Some name) a ->
  startswith name (lit "llvm.") = false ->
  exists msg, collect_from fuel g body pos = Some (Fatal msg).
Proof.
  intros F C L.
  induction body as [|j rest IH]; intros pos i name a I O Hs; [destruct I|].
  cbn [collect_from]. destruct I as [->|I].
  - destruct (access_kind_fatal_call fuel g i name a O Hs) as [msg E].
    rewrite E. now exists msg.
  - destruct (access_kind_returns fuel g N j F C L) as [[k|m] E]; rewrite E.
    + destruct (IH (S pos) i name a I O Hs) as [msg R]. rewrite R. now exists msg.
    + now exists m.
Qed.

Lemma strips_sample_cycle (v n : nat) : ~ strips (fun _ => VBitCast 0) v n.
Proof.
  intros H. induction H as [v Hv|v o n E _ IH]; [now apply (Hv 0%nat)|exact IH].
Qed.

Lemma sample_finite : finite_below SampleKernel.sample_values 6.
Proof.
  intros v L. do 6 (destruct v as [|v]; [lia|]). reflexivity.
Qed.

Lemma sample_casts : casts_descend SampleKernel.sample_values.
Proof.
  intros v o E. destruct v as [|[|[|[|[|[|v]]]]]]; cbn in E; try discriminate.
  injection E as <-. lia.
Qed.

(** X24.  When [getPointerKind] returns a kind, it is the least, in the
    order [PK_OTHER] < [PK_GLOBAL] < [PK_UNINITIALIZED], of the kinds of all
    the values that the pointer may come from through casts, address
    computations, atomic operations and phi nodes (local variables count as
    [PK_OTHER], globals as [PK_GLOBAL], arguments as [PK_GLOBAL] in a
    kernel), [PK_UNINITIALIZED] if there is none, and none of these values
    is the result of a call; when it ends in the fatal error, one of them
    is. *)
Theorem getPointerKind_is_the_least_kind
  (fuel : nat) (g : values) (val : nat) (is_kernel : bool) :
  match getPointerKind fuel g val is_kernel with
  | Some (Done kind) => is_least_kind g is_kernel val kind
  | Some (Fatal _) => exists v, reach g val v /\ is_call g v
  | None => True
  end.
Proof.
  destruct (getPointerKind fuel g val is_kernel) as [r|] eqn:H; [|exact I].
  exact (getPointerKind_meaning _ _ _ _ _ H).
Qed.

(** X25.  [getPointerKind] returns: in a module with [N] values in which
    every cast is applied to an earlier value, the loop ends within
    [enough_fuel g N] turns, with a kind or in the fatal error, however the
    phi nodes and address computations refer to one another. *)
Theorem getPointerKind_returns
  (fuel : nat) (g : values) (N : nat) (val : nat) (is_kernel : bool)
  (Hfin : finite_below g N) (Hcast : casts_descend g)
  (Hfuel : (enough_fuel g N <= fuel)%nat) :
  exists r, getPointerKind fuel g val is_kernel = Some r.
Proof.
  unfold getPointerKind. unfold enough_fuel in Hfuel.
  apply (loop_terminates g N is_kernel fuel Hfin Hcast); [lia|].
  cbn [List.length]. lia.
Qed.

Lemma getPointerKind_returns_witness :
  exists r, getPointerKind 18 SampleKernel.sample_values 5 true = Some r.
Proof.
  apply (getPointerKind_returns 18 SampleKernel.sample_values 6 5 true
           sample_finite sample_casts).
  vm_compute. lia.
Defined.

(** X26.  The loop that skips casts has no check of its own: on a pointer
    whose chain of casts never arrives at a value that is not a cast,
    [getPointerKind] does not return, whatever the number of turns. *)
Theorem getPointerKind_cast_cycle_never_returns
  (g : values) (val : nat) (is_kernel : bool)
  (Hcycle : forall n, ~ strips g val n) :
  forall fuel, getPointerKind fuel g val is_kernel = None.
Proof.
  intros [|fuel]; [reflexivity|]. unfold getPointerKind. rewrite loop_turn.
  cbn [seen_count existsb].
  destruct (skip_casts (S fuel) g val) as [n|] eqn:K; [|reflexivity].
  exfalso. exact (Hcycle n (skip_casts_strips _ _ _ _ K)).
Qed.

Lemma getPointerKind_cast_cycle_never_returns_witness :
  getPointerKind 1000 (fun _ => VBitCast 0) 0 true = None.
Proof.
  apply (getPointerKind_cast_cycle_never_returns (fun _ => VBitCast 0) 0 true).
  intros n. apply strips_sample_cycle.
Defined.

(** X27.  When [collectGlobalMemAccesses] returns, its result is, in the
    order of the kernel and without repetition, exactly the loads, stores,
    atomic operations and calls of [llvm.nvvm.atomic] intrinsics whose
    pointer has the kind [PK_GLOBAL]. *)
Theorem collectGlobalMemAccesses_exactly_the_global_accesses
  (fuel : nat) (g : values) (body : kernel_body) (accs : list nat)
  (Hc : collectGlobalMemAccesses fuel g body = Some (Done accs)) :
  StronglySorted lt accs /\
  forall p, In p accs <->
    exists i ptr ty, nth_error body p = Some i /\
                     memory_access (op i) = Some (ptr, ty) /\
                     getPointerKind fuel g ptr true = Some (Done PK_GLOBAL).
Proof.
  unfold collectGlobalMemAccesses in Hc. split.
  - apply (collect_from_sorted _ _ _ _ _ Hc).
  - intros p. rewrite (collect_from_iff _ _ _ _ _ Hc p), Nat.sub_0_r.
    split; [intros [_ H]; exact H|intros H; split; [lia|exact H]].
Qed.

Lemma collectGlobalMemAccesses_exactly_the_global_accesses_witness :
  StronglySorted lt [0%nat; 3%nat] /\
  forall p, In p [0%nat; 3%nat] <->
    exists i ptr ty, nth_error SampleKernel.sample_body p = Some i /\
                     memory_access (op i) = Some (ptr, ty) /\
                     getPointerKind 20 SampleKernel.sample_values ptr true
                     = Some (Done PK_GLOBAL).
Proof.
  apply (collectGlobalMemAccesses_exactly_the_global_accesses 20
           SampleKernel.sample_values SampleKernel.sample_body [0%nat; 3%nat]).
  reflexivity.
Defined.

(** X28.  Which accesses [collectGlobalMemAccesses] returns, in terms of
    the values that [getPointerKind] traces the pointer back to.  The trace
    goes through bitcasts, address computations (GEP), [atomicrmw]
    instructions and phi nodes only; every other value (a [select], an
    [addrspacecast], a loaded pointer, ...) ends it and counts for nothing.
    When the function returns, an access is in its result exactly when
    among the values so traced there is a global or an argument of the
    kernel and there is no [alloca]; and then none of them is the result of
    a call. *)
Theorem collected_access_traces_back_to_a_global
  (fuel : nat) (g : values) (body : kernel_body) (accs : list nat) (p : nat)
  (Hc : collectGlobalMemAccesses fuel g body = Some (Done accs)) :
  (In p accs <->
   exists i ptr ty,
     nth_error body p = Some i /\
     memory_access (op i) = Some (ptr, ty) /\
     (exists v n, reach g ptr v /\ strips g v n /\
                  (g n = VGlobal \/ g n = VArgument)) /\
     (forall v n, reach g ptr v -> strips g v n -> g n <> VAlloca)) /\
  (In p accs ->
   exists i ptr ty,
     nth_error body p = Some i /\
     memory_access (op i) = Some (ptr, ty) /\
     (forall v n, reach g ptr v -> strips g v n -> g n <> VCall)).
Proof.
  unfold collectGlobalMemAccesses in Hc.
  pose proof (collect_from_iff _ _ _ _ _ Hc p) as Iff.
  rewrite Nat.sub_0_r in Iff.
  split; [split|].
  - intros Hp. apply Iff in Hp. destruct Hp as (_ & i & ptr & ty & E & A & K).
    exists i, ptr, ty. split; [exact E|]. split; [exact A|].
    exact (global_kind_meaning fuel g ptr K).
  - intros (i & ptr & ty & E & A & Ex & All). apply Iff. split; [lia|].
    exists i, ptr, ty. split; [exact E|]. split; [exact A|].
    destruct (collect_from_all_done _ _ _ _ _ Hc _ _ E) as [k K].
    rewrite (access_kind_memory _ _ _ _ _ A) in K.
    destruct (getPointerKind fuel g ptr true) as [[k'|m]|] eqn:G; try discriminate.
    f_equal. f_equal. now apply (kind_of_traced_values g ptr k' (getPointerKind_meaning _ _ _ _ _ G)).
  - intros Hp. apply Iff in Hp. destruct Hp as (_ & i & ptr & ty & E & A & K).
    exists i, ptr, ty. split; [exact E|]. split; [exact A|].
    apply getPointerKind_meaning in K. destruct K as (_ & _ & NoCall).
    intros v n R St G. apply (NoCall v R). now exists n.
Qed.

Lemma collected_access_traces_back_to_a_global_witness :
  (In 0%nat [0%nat; 3%nat] <->
   exists i ptr ty,
     nth_error SampleKernel.sample_body 0 = Some i /\
     memory_access (op i) = Some (ptr, ty) /\
     (exists v n, reach SampleKernel.sample_values ptr v /\
                  strips SampleKernel.sample_values v n /\
                  (SampleKernel.sample_values n = VGlobal \/
                   SampleKernel.sample_values n = VArgument)) /\
     (forall v n, reach SampleKernel.sample_values ptr v ->
                  strips SampleKernel.sample_values v n ->
                  SampleKernel.sample_values n <> VAlloca)) /\
  (In 0%nat [0%nat; 3%nat] ->
   exists i ptr ty,
     nth_error SampleKernel.sample_body 0 = Some i /\
     memory_access (op i) = Some (ptr, ty) /\
     (forall v n, reach SampleKernel.sample_values ptr v ->
                  strips SampleKernel.sample_values v n ->
                  SampleKernel.sample_values n <> VCall)).
Proof.
  apply (collected_access_traces_back_to_a_global 20 SampleKernel.sample_values
           SampleKernel.sample_body [0%nat; 3%nat] 0).
  reflexivity.
Defined.

(** X29.  In a module with finitely many values in which every cast is
    applied to an earlier value, and with enough turns for the pointer
    analysis, [collectGlobalMemAccesses] ends in a fatal error on every
    kernel with a direct call of a function whose name does not start with
    [llvm.], instead of returning a list. *)
Theorem collectGlobalMemAccesses_rejects_calls
  (fuel : nat) (g : values) (N : nat) (body : kernel_body) (i : instruction)
  (name : cstring) (a : nat)
  (Hfin : finite_below g N) (Hcast : casts_descend g)
  (Hfuel : (enough_fuel g N <= fuel)%nat)
  (Hi : In i body) (Hop : op i = ICall (Some name) a)
  (Hname : startswith name (lit "llvm.") = false) :
  exists msg, collectGlobalMemAccesses fuel g body = Some (Fatal msg).
Proof.
  unfold collectGlobalMemAccesses.
  exact (collect_from_fatal fuel g N body Hfin Hcast Hfuel 0 i name a Hi Hop Hname).
Qed.

Lemma collectGlobalMemAccesses_rejects_calls_witness :
  startswith (lit "f") (lit "llvm.") = false /\
  exists msg,
    collectGlobalMemAccesses 18 SampleKernel.sample_values
      (SampleKernel.sample_body ++ [mk_instruction (ICall (Some (lit "f")) 0) 0 None])
    = Some (Fatal msg).
Proof.
  split; [reflexivity|].
  apply (collectGlobalMemAccesses_rejects_calls 18 SampleKernel.sample_values 6 _
           (mk_instruction (ICall (Some (lit "f")) 0) 0 None) (lit "f") 0
           sample_finite sample_casts).
  - vm_compute. lia.
  - apply in_or_app. right. now left.
  - reflexivity.
  - reflexivity.
Defined.

End PointerKindFacts.
